(** * The vLLM streaming integration service: model and verified properties

  Shallow embedding of [app/services/vllm_integration_service.py]:
  [CodeQualityValidator], [ResponseParser] and [VLLMIntegrationService].

  Conventions of the embedding.
  - A Python [str] is the list of its code points ([list N]); a literal
    is written [u "..."], the code points of the text between the quotes.
    White space is that of [str.isspace], which is also the class [\s] of
    [re]; case-insensitive matching knows the four code points beyond
    ASCII that match an ASCII letter.
  - [bytes] are a Rocq [string]; the keys of dicts are Rocq strings.
  - Python [float] is IEEE binary64: [PrimFloat.float].
  - Python [dict] with string keys is [gmap string _].
  - What the service takes from outside is a parameter of the functions
    that use it: [ast.parse], [json.loads], [hash], the personalization
    hook, the answers of the HTTP transport, the [metadata] attribute of
    the response class, and [str.isalnum] beyond ASCII (the Unicode
    database, behind the class [\w]). *)

From Stdlib Require Import ZArith NArith Lia List Ascii String.
From Stdlib Require Import Floats.PrimFloat Floats.SpecFloat Floats.FloatOps.
From Stdlib Require Import Numbers.Cyclic.Int63.Uint63.
From stdpp Require Import base option list strings gmap pretty.

Set Warnings "-inexact-float,-register-all".
Set Default Proof Using "Type".

Local Open Scope string_scope.
Local Open Scope nat_scope.
Local Open Scope list_scope.

(** ** Python values and string primitives *)

Module Py.

(** The code point of an ASCII character. *)
Definition ch (a : ascii) : N := N_of_ascii a.
Arguments ch : simpl never.

Definition LF : N := 10%N.
Definition DQ : N := 34%N.   (* the double quote character *)
Definition SQ : N := 39%N.   (* the single quote character *)

Definition between (lo hi c : N) : bool := ((lo <=? c) && (c <=? hi))%N.

(** [bytes.decode('utf-8')]: the code points of a well-formed UTF-8 byte
    sequence, [None] standing for [UnicodeDecodeError]. *)
Fixpoint utf8_decode (fuel : nat) (l : list N) : option (list N) :=
  match fuel with
  | O => match l with [] => Some [] | _ => None end
  | S fuel' =>
      match l with
      | [] => Some []
      | a :: l1 =>
          if (a <? 128)%N then cons a <$> utf8_decode fuel' l1
          else if between 194 223 a then
            match l1 with
            | b :: l2 =>
                if between 128 191 b
                then cons ((a - 192) * 64 + (b - 128))%N <$> utf8_decode fuel' l2
                else None
            | _ => None
            end
          else if between 224 239 a then
            match l1 with
            | b :: c :: l3 =>
                if (if (a =? 224)%N then between 160 191 b
                    else if (a =? 237)%N then between 128 159 b
                    else between 128 191 b)
                   && between 128 191 c
                then cons ((a - 224) * 4096 + (b - 128) * 64 + (c - 128))%N
                       <$> utf8_decode fuel' l3
                else None
            | _ => None
            end
          else if between 240 244 a then
            match l1 with
            | b :: c :: d :: l4 =>
                if (if (a =? 240)%N then between 144 191 b
                    else if (a =? 244)%N then between 128 143 b
                    else between 128 191 b)
                   && between 128 191 c && between 128 191 d
                then cons ((a - 240) * 262144 + (b - 128) * 4096
                           + (c - 128) * 64 + (d - 128))%N
                       <$> utf8_decode fuel' l4
                else None
            | _ => None
            end
          else None
      end
  end.
Definition decode_utf8 (chunk : string) : option (list N) :=
  utf8_decode (String.length chunk) (map N_of_ascii (list_ascii_of_string chunk)).

(** A [str] literal. *)
Definition u (s : string) : list N := default [] (decode_utf8 s).

Definition nl : list N := [LF].

(** [str.isspace], which is also the class [\s]. *)
Definition isspace (c : N) : bool :=
  between 9 13 c || between 28 31 c || (c =? 32)%N || (c =? 133)%N || (c =? 160)%N
  || (c =? 5760)%N || between 8192 8202 c || (c =? 8232)%N || (c =? 8233)%N
  || (c =? 8239)%N || (c =? 8287)%N || (c =? 12288)%N.

Definition isdigit (c : N) : bool := between 48 57 c.
Definition isupper (c : N) : bool := between 65 90 c.
Definition islower (c : N) : bool := between 97 122 c.

(** [str.isalnum]; [unicode_alnum] answers for the code points beyond
    ASCII. *)
Definition isalnum (unicode_alnum : N -> bool) (c : N) : bool :=
  if (c <? 128)%N then isupper c || islower c || isdigit c else unicode_alnum c.

(** Case folding as far as it reaches the ASCII letters: the capital
    letters, and the four code points beyond ASCII that match an ASCII
    letter when case is ignored (dotted capital I and dotless i match i,
    long s matches s, the Kelvin sign matches k). *)
Definition fold (c : N) : N :=
  if isupper c then (c + 32)%N
  else if (c =? 304)%N || (c =? 305)%N then 105%N
  else if (c =? 383)%N then 115%N
  else if (c =? 8490)%N then 107%N
  else c.

Fixpoint drop_while (p : N -> bool) (l : list N) : list N :=
  match l with
  | c :: l' => if p c then drop_while p l' else l
  | [] => []
  end.

Definition lstrip (l : list N) : list N := drop_while isspace l.
Definition rstrip (l : list N) : list N := rev (drop_while isspace (rev l)).
(** [s.strip()] *)
Definition strip (s : list N) : list N := rstrip (lstrip s).

(** Truthiness of a string or a list: non-empty. *)
Definition nonempty {A} (l : list A) : bool :=
  match l with [] => false | _ => true end.

(** [a == b] on strings. *)
Fixpoint str_eqb (a b : list N) : bool :=
  match a, b with
  | [], [] => true
  | x :: a', y :: b' => (x =? y)%N && str_eqb a' b'
  | _, _ => false
  end.

(** [s.startswith(p)] *)
Fixpoint startswith (p s : list N) : bool :=
  match p, s with
  | [], _ => true
  | a :: p', b :: s' => (a =? b)%N && startswith p' s'
  | _ :: _, [] => false
  end.

(** [needle in hay] *)
Fixpoint contains (needle hay : list N) : bool :=
  startswith needle hay ||
  match hay with
  | [] => false
  | _ :: hay' => contains needle hay'
  end.

(** [s.count(c)] for a one-character argument. *)
Fixpoint count_char (c : N) (s : list N) : nat :=
  match s with
  | [] => 0
  | x :: s' => (if (x =? c)%N then 1 else 0) + count_char c s'
  end.

(** [s.split('\n')] *)
Fixpoint split_on (sep : N) (cur : list N) (l : list N) : list (list N) :=
  match l with
  | [] => [rev cur]
  | c :: l' =>
      if (c =? sep)%N then rev cur :: split_on sep [] l'
      else split_on sep (c :: cur) l'
  end.
Definition split_lines (s : list N) : list (list N) := split_on LF [] s.

(** [sep.join(parts)] *)
Fixpoint join (sep : list N) (parts : list (list N)) : list N :=
  match parts with
  | [] => []
  | [p] => p
  | p :: ps => p ++ sep ++ join sep ps
  end.

(** [s.replace(old, '')]: the non-overlapping occurrences of [old] are
    removed, scanning from the left.  [skip] counts the characters of a
    found occurrence still to be dropped. *)
Fixpoint remove_all (old : list N) (skip : nat) (l : list N) : list N :=
  match l with
  | [] => []
  | c :: l' =>
      match skip with
      | S k => remove_all old k l'
      | O =>
          if startswith old l
          then remove_all old (length old - 1) l'
          else c :: remove_all old 0 l'
      end
  end.
Definition replace_with_empty (old s : list N) : list N :=
  match old with
  | [] => s
  | _ => remove_all old 0 s
  end.

(** [str(n)] for an integer: its decimal digits. *)
Definition str_of_nat (n : nat) : list N := u (pretty n).
Definition str_of_int (n : Z) : list N := u (pretty n).

(** [len(s.split())]: the number of maximal runs of non-space characters. *)
Fixpoint count_words (in_word : bool) (l : list N) : nat :=
  match l with
  | [] => 0
  | c :: l' =>
      if isspace c then count_words false l'
      else if in_word then count_words true l' else S (count_words true l')
  end.

(** Python's [max(a, b)] and [min(a, b)] on floats: the first argument
    unless the second is strictly beyond it. *)
Definition py_max (a b : float) : float := if PrimFloat.ltb a b then b else a.
Definition py_min (a b : float) : float := if PrimFloat.ltb b a then b else a.

(** Python values, as they occur in dicts and in decoded JSON. *)
Inductive pyval :=
| PNone
| PBool (b : bool)
| PInt (n : Z)
| PFloat (f : float)
| PStr (s : list N)
| PList (l : list pyval)
| PDict (d : gmap string pyval).

(** Truthiness of a value. *)
Definition truthy_val (v : pyval) : bool :=
  match v with
  | PNone => false
  | PBool b => b
  | PInt n => negb (n =? 0)%Z
  | PFloat f => negb (PrimFloat.eqb f 0%float)
  | PStr s => nonempty s
  | PList l => nonempty l
  | PDict d => negb (bool_decide (d = ∅))
  end.

(** [v == s] for a string [s]. *)
Definition eq_str (v : pyval) (s : list N) : bool :=
  match v with
  | PStr x => str_eqb x s
  | _ => false
  end.

(** [d.get(key, default)] *)
Definition dict_get (d : gmap string pyval) (key : string) (default : pyval) : pyval :=
  match d !! key with
  | Some v => v
  | None => default
  end.

(** [float(n)] for an integer below 2^53, and [int(f)] (truncation
    towards zero) for a finite float. *)
Definition float_of_int (n : Z) : float := PrimFloat.of_uint63 (Uint63.of_Z n).
Definition int_of_float (f : float) : Z :=
  match Prim2SF f with
  | S754_finite s m e =>
      let v := if (0 <=? e)%Z then (Z.pos m * 2 ^ e)%Z
               else (Z.pos m / 2 ^ (- e))%Z in
      if s then (- v)%Z else v
  | _ => 0%Z
  end.

(** [x or default] on optional numbers: [None] and zero are falsy. *)
Definition int_or (x : option Z) (default : Z) : Z :=
  match x with
  | Some n => if (n =? 0)%Z then default else n
  | None => default
  end.
Definition float_or (x : option float) (default : float) : float :=
  match x with
  | Some f => if PrimFloat.eqb f 0%float then default else f
  | None => default
  end.

(** [type(v).__name__] *)
Definition type_name (v : pyval) : list N :=
  match v with
  | PNone => u "NoneType"
  | PBool _ => u "bool"
  | PInt _ => u "int"
  | PFloat _ => u "float"
  | PStr _ => u "str"
  | PList _ => u "list"
  | PDict _ => u "dict"
  end.

(** Exceptions, with what [str(e)] gives. *)
Inductive exn_kind :=
| ConnectionError | ClientError | AttributeError | TypeError | KeyError | OtherException.
Record exn := Exn { kind : exn_kind; message : list N }.

Definition quoted (s : list N) : list N := [SQ] ++ s ++ [SQ].

(** [v.attr] for an attribute that the type of [v] does not have. *)
Definition no_attribute (v : pyval) (attr : string) : exn :=
  Exn AttributeError
      (quoted (type_name v) ++ u " object has no attribute " ++ quoted (u attr)).

(** [v[:50]] for a value that is neither a string nor a list (the text
    is that of CPython 3.11). *)
Definition not_subscriptable (v : pyval) : exn :=
  match v with
  | PDict _ => Exn TypeError (u "unhashable type: " ++ quoted (u "slice"))
  | _ => Exn TypeError (quoted (type_name v) ++ u " object is not subscriptable")
  end.

(** [s += v] for a string [s] and a value that is not a string. *)
Definition cannot_concatenate (v : pyval) : exn :=
  Exn TypeError (u "can only concatenate str (not " ++ [DQ] ++ type_name v ++ [DQ]
                 ++ u ") to str").

(** [str(KeyError(key))] is the key between single quotes. *)
Definition key_error (key : string) : exn := Exn KeyError (quoted (u key)).

Inductive result (A : Type) :=
| Ok (a : A)
| Raise (e : exn).
Arguments Ok {A} a.
Arguments Raise {A} e.

(** [d[key]] for a dict, and [v[key]] for a value, with a string key. *)
Definition subscript (d : gmap string pyval) (key : string) : result pyval :=
  match d !! key with
  | Some v => Ok v
  | None => Raise (key_error key)
  end.
Definition subscript_value (v : pyval) (key : string) : result pyval :=
  match v with
  | PDict d => subscript d key
  | PStr _ => Raise (Exn TypeError (u "string indices must be integers, not 'str'"))
  | PList _ =>
      Raise (Exn TypeError (u "list indices must be integers or slices, not str"))
  | _ => Raise (not_subscriptable v)
  end.

End Py.

(** ** A backtracking matcher for the [re] patterns of the service

  The patterns of the source only quantify single-character atoms, so
  the abstract syntax restricts [*], [+] and [*?] to character classes.
  [run r c] lists the cursors at which a match of [r] started at [c] can
  end, in the order in which Python's backtracking matcher tries them:
  the head of the list is the match [re] reports. *)

Module Re.
Import Py.

Record cursor := Cursor {
  seen : list N;            (* the text before the position, reversed *)
  rest : list N;            (* the text from the position on *)
  cap  : option (list N)    (* what group 1 captured, if it took part *)
}.

Inductive regex :=
| Eps
| Cls (p : N -> bool)       (* one character of a class *)
| Seq (a b : regex)
| Alt (a b : regex)
| StarG (p : N -> bool)     (* [p*]  greedy *)
| StarL (p : N -> bool)     (* [p*?] lazy *)
| Group (a : regex)         (* capturing group 1 *)
| Look (a : regex)          (* [(?=a)] *)
| Bol (multiline : bool)    (* [^] *)
| Eol (multiline : bool)    (* [$] *)
| EndZ.                     (* [\Z] *)

Fixpoint greedy (p : N -> bool) (sn rs : list N) (cp : option (list N))
  : list cursor :=
  match rs with
  | x :: rs' =>
      if p x then greedy p (x :: sn) rs' cp ++ [Cursor sn rs cp]
      else [Cursor sn rs cp]
  | [] => [Cursor sn rs cp]
  end.

Fixpoint lazy (p : N -> bool) (sn rs : list N) (cp : option (list N))
  : list cursor :=
  Cursor sn rs cp ::
  match rs with
  | x :: rs' => if p x then lazy p (x :: sn) rs' cp else []
  | [] => []
  end.

(** [^]: at the start of the text and, when MULTILINE is set, after
    each line feed. *)
Definition at_bol (multiline : bool) (c : cursor) : bool :=
  match seen c with
  | [] => true
  | x :: _ => multiline && (x =? LF)%N
  end.

(** [$]: at the end of the text and before a line feed that ends it;
    when MULTILINE is set, before each line feed. *)
Definition at_eol (multiline : bool) (c : cursor) : bool :=
  match rest c with
  | [] => true
  | x :: tl => (x =? LF)%N && (multiline || negb (nonempty tl))
  end.

(** The text consumed between cursor [c0] and a later cursor [c]. *)
Definition consumed (c0 c : cursor) : list N :=
  rev (take (length (seen c) - length (seen c0)) (seen c)).

Fixpoint run (r : regex) (c : cursor) : list cursor :=
  match r with
  | Eps => [c]
  | Cls p =>
      match rest c with
      | x :: rs => if p x then [Cursor (x :: seen c) rs (cap c)] else []
      | [] => []
      end
  | Seq a b => flat_map (run b) (run a c)
  | Alt a b => run a c ++ run b c
  | StarG p => greedy p (seen c) (rest c) (cap c)
  | StarL p => lazy p (seen c) (rest c) (cap c)
  | Group a =>
      map (fun c' => Cursor (seen c') (rest c') (Some (consumed c c'))) (run a c)
  | Look a => match run a c with [] => [] | _ :: _ => [c] end
  | Bol m => if at_bol m c then [c] else []
  | Eol m => if at_eol m c then [c] else []
  | EndZ => match rest c with [] => [c] | _ => [] end
  end.

(** Pattern combinators: a literal character, a literal character under
    IGNORECASE, a literal text, [p+], a sequence. *)
Definition chr (x : N) : regex := Cls (N.eqb x).
Definition chr_i (x : N) : regex := Cls (fun y => (fold y =? fold x)%N).
Definition lit (s : list N) : regex := fold_right (fun x r => Seq (chr x) r) Eps s.
Definition lit_i (s : list N) : regex := fold_right (fun x r => Seq (chr_i x) r) Eps s.
Definition plus (p : N -> bool) : regex := Seq (Cls p) (StarG p).
Fixpoint seqs (rs : list regex) : regex :=
  match rs with
  | [] => Eps
  | [r] => r
  | r :: rs' => Seq r (seqs rs')
  end.

(** Character classes. *)
Definition space : N -> bool := isspace.                               (* \s *)
Definition word (unicode_alnum : N -> bool) (c : N) : bool :=          (* \w *)
  isalnum unicode_alnum c || (c =? ch "_")%N.
Definition any : N -> bool := fun _ => true.                   (* . with DOTALL *)
Definition dot (c : N) : bool := negb (c =? LF)%N.                     (* . *)
Definition none_of (l : list N) (c : N) : bool :=                      (* [^...] *)
  negb (existsb (N.eqb c) l).
Definition one_of (l : list N) (c : N) : bool :=                       (* [...] *)
  existsb (N.eqb c) l.

(** A match: the whole matched text and group 1. *)
Record found := Found { whole : list N; group1 : option (list N) }.

(** The match of [r] at a position: the first success of the
    backtracking search.  With [must_advance] set, successes that consume
    nothing are passed over: this is how [findall] and [sub] search again
    at a position where they have just found the empty match. *)
Definition first_match (r : regex) (must_advance : bool) (sn rs : list N)
  : option found :=
  let c0 := Cursor sn rs None in
  match List.filter (fun c => negb must_advance || nonempty (consumed c0 c))
                    (run r c0) with
  | c :: _ => Some (Found (consumed c0 c) (cap c))
  | [] => None
  end.

(** [re.search(r, s)] as a truth value. *)
Fixpoint search_from (r : regex) (sn rs : list N) : bool :=
  match first_match r false sn rs with
  | Some _ => true
  | None =>
      match rs with
      | [] => false
      | x :: rs' => search_from r (x :: sn) rs'
      end
  end.
Definition search (r : regex) (s : list N) : bool := search_from r [] s.

(** The non-overlapping matches of [r], scanning from the left.  [skip]
    counts the characters of the last match still to be stepped over.
    After an empty match the search is repeated at the same position for
    a match that is not empty, before it moves on by one character. *)
Fixpoint scan (r : regex) (skip : nat) (sn rs : list N) {struct rs} : list found :=
  let step k :=
    match rs with
    | x :: rs' => scan r k (x :: sn) rs'
    | [] => []
    end in
  match skip with
  | S k => step k
  | O =>
      match first_match r false sn rs with
      | Some f =>
          match whole f with
          | _ :: w => f :: step (length w)
          | [] =>
              f :: match first_match r true sn rs with
                   | Some f' => f' :: step (length (whole f') - 1)
                   | None => step 0
                   end
          end
      | None => step 0
      end
  end.

(** [re.findall(r, s)]: group 1 when the pattern has a group, else the
    whole match. *)
Definition findall (r : regex) (s : list N) : list (list N) :=
  map (fun m => match group1 m with
                | Some g => g
                | None => whole m
                end)
      (scan r 0 [] s).

(** [re.sub(r, repl, s)] for a replacement without group references:
    the text between the matches is kept ([keep]), each match is replaced. *)
Fixpoint sub_from (r : regex) (repl : list N) (skip : nat) (sn rs : list N)
    {struct rs} : list N :=
  let step (keep : bool) k :=
    match rs with
    | x :: rs' => (if keep then [x] else []) ++ sub_from r repl k (x :: sn) rs'
    | [] => []
    end in
  match skip with
  | S k => step false k
  | O =>
      match first_match r false sn rs with
      | Some f =>
          match whole f with
          | _ :: w => repl ++ step false (length w)
          | [] =>
              repl ++ match first_match r true sn rs with
                      | Some f' => repl ++ step false (length (whole f') - 1)
                      | None => step true 0
                      end
          end
      | None => step true 0
      end
  end.
Definition sub (r : regex) (repl s : list N) : list N := sub_from r repl 0 [] s.

End Re.

(** ** CodeQualityValidator *)

Module CodeQualityValidator.
Import Py Re.

(** What [ast.parse(code)] does: it returns, raises [SyntaxError] (with
    its [msg]) or raises another exception (with its [str(e)]). *)
Inductive parse_outcome :=
| Parsed
| SyntaxError (msg : list N)
| OtherError (text : list N).

(** The instance attributes set by [__init__]. *)
Record validator := Validator {
  validation_enabled : bool;
  strict_mode : bool
}.
Definition __init__ : validator :=
  {| validation_enabled := true; strict_mode := true |}.

(** The returned dict; the early return carries neither [code_length]
    nor [line_count]. *)
Record validation_result := ValidationResult {
  valid : bool;
  issues : list (list N);
  confidence : float;
  code_length : option nat;
  line_count : option nat
}.

Definition quote : N -> bool := one_of [DQ; SQ].      (* the class of DQ and SQ *)
Definition not_quote : N -> bool := none_of [DQ; SQ].
Definition not_rparen : N -> bool := none_of [ch ")"].
Definition not_eq : N -> bool := none_of [ch "="].

(** [suspicious_patterns], in the order of the source:
    - [print\(] Q [^Q]* Q Q
    - Q [^Q]* [\(] [^)]* Q
    - [\(] [^)]* [\(] [^)]* Q [^Q]* [$]
    - [^] [^=]* [=] [^=]* [\(] [^)]* [$]
    where Q is the class of the two quote characters. *)
Definition suspicious_patterns : list (regex * list N) :=
  [ (seqs [lit (u "print("); Cls quote; StarG not_quote; Cls quote; Cls quote],
     u "print() 함수의 잘못된 따옴표 패턴");
    (seqs [Cls quote; StarG not_quote; chr (ch "("); StarG not_rparen; Cls quote],
     u "함수 호출 내부의 잘못된 따옴표");
    (seqs [chr (ch "("); StarG not_rparen; chr (ch "("); StarG not_rparen; Cls quote;
           StarG not_quote; Eol false],
     u "미완성된 중첩 함수 호출");
    (seqs [Bol false; StarG not_eq; chr (ch "="); StarG not_eq; chr (ch "(");
           StarG not_rparen; Eol false],
     u "미완성된 함수 할당") ].

Definition _check_basic_syntax (code : list N) : list (list N) :=
  flat_map (fun pi : regex * list N =>
              if search (fst pi) code then [snd pi] else [])
           suspicious_patterns.

(** [brackets = {'(': ')', '[': ']', '{': '}'}] *)
Definition brackets : list (N * N) :=
  [(ch "(", ch ")"); (ch "[", ch "]"); (ch "{", ch "}")].

(** [char in brackets] and [char in brackets.values()] *)
Definition is_open (c : N) : bool := existsb (fun kv => (c =? fst kv)%N) brackets.
Definition is_close (c : N) : bool := existsb (fun kv => (c =? snd kv)%N) brackets.
(** [brackets[o]] *)
Definition closer (o : N) : N :=
  match find (fun kv => (o =? fst kv)%N) brackets with
  | Some kv => snd kv
  | None => o
  end.

Definition issue_too_many_closers : list N := u "닫는 괄호가 여는 괄호보다 많음".
Definition issue_mismatch (last_open char : N) : list N :=
  u "괄호 타입 불일치: " ++ [last_open] ++ u " vs " ++ [char].
Definition unclosed_marker : list N := u "닫히지 않은 괄호".
Definition issue_unclosed (n : nat) : list N :=
  unclosed_marker ++ u ": " ++ str_of_nat n ++ u "개".

(** The [for char in code] loop.  The stack is kept with its top at the
    head of the list ([append] is a cons, [pop] removes the head); the
    result is the stack and the issues when the loop ends or breaks. *)
Fixpoint bracket_loop (code : list N) (stack : list N) (issues : list (list N))
  : list N * list (list N) :=
  match code with
  | [] => (stack, issues)
  | char :: code' =>
      if is_open char then bracket_loop code' (char :: stack) issues
      else if is_close char then
        match stack with
        | [] => (stack, issues ++ [issue_too_many_closers])        (* break *)
        | last_open :: stack' =>
            if (closer last_open =? char)%N
            then bracket_loop code' stack' issues
            else bracket_loop code' stack' (issues ++ [issue_mismatch last_open char])
        end
      else bracket_loop code' stack issues
  end.

Definition _check_bracket_balance (code : list N) : list (list N) :=
  let '(stack, issues) := bracket_loop code [] [] in
  match stack with
  | [] => issues
  | _ :: _ => issues ++ [issue_unclosed (length stack)]
  end.

Definition issue_odd_single : list N := u "홀수 개의 단일 따옴표".
Definition issue_odd_double : list N := u "홀수 개의 이중 따옴표".

Definition _check_quote_balance (code : list N) : list (list N) :=
  let single_quotes := count_char SQ code in
  let double_quotes := count_char DQ code in
  (if negb (single_quotes mod 2 =? 0) then [issue_odd_single] else []) ++
  (if negb (double_quotes mod 2 =? 0) then [issue_odd_double] else []).

Definition _check_ast_validity (ast_parse : list N -> parse_outcome) (code : list N)
  : list (list N) :=
  match ast_parse code with
  | Parsed => []
  | SyntaxError msg => [u "구문 오류: " ++ msg]
  | OtherError text => [u "파싱 오류: " ++ text]
  end.

Definition validate_code_chunk (ast_parse : list N -> parse_outcome)
    (self : validator) (code : list N) : validation_result :=
  if negb (validation_enabled self) || negb (nonempty (strip code)) then
    {| valid := true; issues := []; confidence := 1.0%float;
       code_length := None; line_count := None |}
  else
    let issues := [] in
    let confidence := 1.0%float in
    let syntax_issues := _check_basic_syntax code in
    let '(issues, confidence) :=
      if nonempty syntax_issues
      then (issues ++ syntax_issues, (confidence - 0.3)%float)
      else (issues, confidence) in
    let balance_issues := _check_bracket_balance code in
    let '(issues, confidence) :=
      if nonempty balance_issues
      then (issues ++ balance_issues, (confidence - 0.2)%float)
      else (issues, confidence) in
    let quote_issues := _check_quote_balance code in
    let '(issues, confidence) :=
      if nonempty quote_issues
      then (issues ++ quote_issues, (confidence - 0.2)%float)
      else (issues, confidence) in
    let ast_issues := _check_ast_validity ast_parse code in
    let '(issues, confidence) :=
      if nonempty ast_issues
      then (issues ++ ast_issues, (confidence - 0.3)%float)
      else (issues, confidence) in
    {| valid := length issues =? 0;
       issues := issues;
       confidence := py_max 0.0%float confidence;
       code_length := Some (length code);
       line_count := Some (count_char LF code + 1) |}.

(** One round of the [for issue in issues] loop of [suggest_fix]. *)
Definition fix_step (fixed_code : list N) (issue : list N) : list N :=
  if contains unclosed_marker issue then
    let open_count := count_char (ch "(") fixed_code in
    let close_count := count_char (ch ")") fixed_code in
    if close_count <? open_count
    then fixed_code ++ repeat (ch ")") (open_count - close_count)
    else fixed_code
  else if contains issue_odd_single issue then
    if negb (count_char SQ fixed_code mod 2 =? 0)
    then fixed_code ++ [SQ]
    else fixed_code
  else if contains issue_odd_double issue then
    if negb (count_char DQ fixed_code mod 2 =? 0)
    then fixed_code ++ [DQ]
    else fixed_code
  else fixed_code.

Definition suggest_fix (code : list N) (issues : list (list N)) : list N :=
  fold_left fix_step issues code.

End CodeQualityValidator.

(** ** ResponseParser *)

Module ResponseParser.
Import Py Re.

Section Parser.
(** [str.isalnum] beyond ASCII, for the class [\w]. *)
Variable unicode_alnum : N -> bool.

Definition fence : regex := lit (u "```").

(** [```python\s*(.*?)\s*```] under DOTALL and IGNORECASE *)
Definition fence_python : regex :=
  seqs [lit_i (u "```python"); StarG space; Group (StarL any); StarG space; fence].
(** [```\s*(.*?)\s*```] under DOTALL and IGNORECASE *)
Definition fence_generic : regex :=
  seqs [fence; StarG space; Group (StarL any); StarG space; fence].
(** The lookahead [(?=\n\n|\Z)] *)
Definition blank_line_or_end : regex := Look (Alt (lit (nl ++ nl)) EndZ).
(** [def\s+\w+.*?(?=\n\n|\Z)] under MULTILINE and IGNORECASE *)
Definition def_pattern : regex :=
  seqs [lit_i (u "def"); plus space; plus (word unicode_alnum); StarL dot;
        blank_line_or_end].
(** [class\s+\w+.*?(?=\n\n|\Z)] *)
Definition class_pattern : regex :=
  seqs [lit_i (u "class"); plus space; plus (word unicode_alnum); StarL dot;
        blank_line_or_end].
(** [print\s*\([^)]*\)] *)
Definition print_pattern : regex :=
  seqs [lit_i (u "print"); StarG space; chr (ch "("); StarG (none_of [ch ")"]);
        chr (ch ")")].
(** [^\s*[a-zA-Z_]\w*\s*=.*] under MULTILINE and IGNORECASE; with case
    ignored the class of the letters takes what folds to a letter. *)
Definition assign_pattern : regex :=
  seqs [Bol true; StarG space;
        Cls (fun c => islower (fold c) || (c =? ch "_")%N);
        StarG (word unicode_alnum); StarG space; chr (ch "="); StarG dot].

(** [self.code_patterns] *)
Definition code_patterns : list regex :=
  [fence_python; fence_generic; def_pattern; class_pattern; print_pattern;
   assign_pattern].

(** [self.explanation_markers] *)
Definition explanation_markers : list (list N) :=
  map u ["이 코드는"; "설명:"; "다음과 같이"; "작동 방식:";
         "주요 기능:"; "사용법:"; "예시:"; "참고:";
         "This code"; "Explanation:"; "How it works:";
         "Usage:"; "Example:"; "Note:"].

(** [[match.strip() for match in matches if match.strip()]] *)
Definition stripped_nonempty (matches : list (list N)) : list (list N) :=
  map strip (List.filter (fun m => nonempty (strip m)) matches).

(** [block in blocks] *)
Definition mem (s : list N) (l : list (list N)) : bool := existsb (str_eqb s) l.

Definition _extract_code_blocks (text : list N) : list (list N) :=
  let code_blocks :=
    fold_left (fun acc pattern => acc ++ stripped_nonempty (findall pattern text))
              [fence_python; fence_generic] [] in
  let code_blocks :=
    if negb (nonempty code_blocks) then
      fold_left (fun acc pattern => acc ++ stripped_nonempty (findall pattern text))
                (drop 2 code_patterns) code_blocks
    else code_blocks in
  fold_left (fun unique_blocks block =>
               if nonempty block && negb (mem block unique_blocks) then
                 if 3 <=? length block then unique_blocks ++ [block]
                 else unique_blocks
               else unique_blocks)
            code_blocks [].

(** [```python.*?```] and [```.*?```] under DOTALL and IGNORECASE *)
Definition fenced_python_region : regex := seqs [lit_i (u "```python"); StarL any; fence].
Definition fenced_region : regex := seqs [fence; StarL any; fence].

Definition code_like : list (list N) :=
  map u ["def "; "class "; "import "; "print("; "="].

Definition _extract_explanation (text : list N) (code_blocks : list (list N)) : list N :=
  let explanation_text := text in
  let explanation_text :=
    fold_left (fun t pattern => sub pattern [] t)
              [fenced_python_region; fenced_region] explanation_text in
  let explanation_text :=
    fold_left (fun t block => replace_with_empty block t) code_blocks explanation_text in
  let lines := split_lines explanation_text in
  let explanation_lines :=
    fold_left (fun acc line =>
                 let line := strip line in
                 if negb (nonempty line) then acc
                 else
                   let is_explanation :=
                     existsb (fun marker => contains marker line) explanation_markers in
                   let is_not_code :=
                     negb (existsb (fun pattern => contains pattern line) code_like) in
                   if is_explanation || (is_not_code && (10 <? length line))
                   then acc ++ [line] else acc)
              lines [] in
  join nl explanation_lines.

Definition _merge_code_blocks (code_blocks : list (list N)) : list N :=
  if negb (nonempty code_blocks) then []
  else
    let unique_blocks :=
      fold_left (fun unique block => if negb (mem block unique) then unique ++ [block]
                                     else unique)
                code_blocks [] in
    match unique_blocks with
    | [b] => b
    | _ => join (nl ++ nl) unique_blocks
    end.

(** [^[#*\-=]+\s*] under MULTILINE, and [\n\s*\n\s*\n] *)
Definition leading_markers : regex :=
  seqs [Bol true; plus (one_of [ch "#"; ch "*"; ch "-"; ch "="]); StarG space].
Definition blank_lines : regex :=
  seqs [chr LF; StarG space; chr LF; StarG space; chr LF].

Definition _clean_explanation (explanation : list N) : list N :=
  if negb (nonempty explanation) then []
  else
    let explanation := sub leading_markers [] explanation in
    let explanation := sub blank_lines (nl ++ nl) explanation in
    strip explanation.

Definition _calculate_confidence (explanation code : list N) : float :=
  let confidence := 0.5%float in
  let confidence :=
    if nonempty code && (10 <? length code) then (confidence + 0.3)%float
    else confidence in
  let confidence :=
    if nonempty explanation && (20 <? length explanation)
    then (confidence + 0.2)%float else confidence in
  let confidence :=
    if nonempty explanation && nonempty code then
      if existsb (fun marker => contains marker explanation) explanation_markers
      then (confidence + 0.1)%float else confidence
    else confidence in
  py_min 1.0%float confidence.

Definition parse_response (raw_response : list N) : gmap string pyval :=
  if negb (nonempty raw_response) || negb (nonempty (strip raw_response)) then
    <["explanation" := PStr []]> (<["code" := PStr []]> ∅)
  else
    let code_blocks := _extract_code_blocks raw_response in
    let explanation_text := _extract_explanation raw_response code_blocks in
    let final_code := _merge_code_blocks code_blocks in
    let final_explanation := _clean_explanation explanation_text in
    <["explanation" := PStr final_explanation]>
    (<["code" := PStr final_code]>
    (<["metadata" := PDict
         (<["code_blocks_found" := PInt (Z.of_nat (length code_blocks))]>
         (<["has_explanation" := PBool (nonempty final_explanation)]>
         (<["parsing_confidence" :=
              PFloat (_calculate_confidence final_explanation final_code)]> ∅)))]> ∅)).

End Parser.

End ResponseParser.

(** ** VLLMIntegrationService *)

Module VLLMIntegrationService.
Import Py.

(** [ModelType] of the request schema and [VLLMModelType]. *)
Inductive ModelType :=
| CODE_GENERATION | CODE_COMPLETION | CODE_EXPLANATION | CODE_REVIEW
| BUG_FIX | CODE_OPTIMIZATION | UNIT_TEST_GENERATION | DOCUMENTATION.

Module VLLMModelType.
Definition AUTOCOMPLETE : list N := u "autocomplete".
Definition PROMPT : list N := u "prompt".
Definition COMMENT : list N := u "comment".
Definition ERROR_FIX : list N := u "error_fix".
End VLLMModelType.

(** [self.model_mapping]; every member of [ModelType] has an entry, so
    the default of [.get] is never used. *)
Definition model_mapping (m : ModelType) : list N :=
  match m with
  | CODE_GENERATION => VLLMModelType.PROMPT
  | CODE_COMPLETION => VLLMModelType.AUTOCOMPLETE
  | CODE_EXPLANATION => VLLMModelType.COMMENT
  | CODE_REVIEW => VLLMModelType.COMMENT
  | BUG_FIX => VLLMModelType.ERROR_FIX
  | CODE_OPTIMIZATION => VLLMModelType.PROMPT
  | UNIT_TEST_GENERATION => VLLMModelType.PROMPT
  | DOCUMENTATION => VLLMModelType.COMMENT
  end.

Record CodeGenerationRequest := Request {
  prompt : list N;
  context : option (list N);
  model_type : ModelType;
  max_tokens : option Z;
  temperature : option float;
  top_p : option float
}.

(** The complexity tier of the adaptive buffer and its [.value]. *)
Inductive ComplexityTier := SIMPLE | MEDIUM | COMPLEX.
Definition value (c : ComplexityTier) : list N :=
  match c with
  | SIMPLE => u "simple"
  | MEDIUM => u "medium"
  | COMPLEX => u "complex"
  end.

(** The instance attributes of the service that the modelled methods
    read or write. *)
Record service := Service {
  session : bool;                (* [self.session is not None] *)
  is_connected : bool;
  connection_retries : nat;
  max_retries : nat
}.
Definition __init__ : service :=
  {| session := false; is_connected := false; connection_retries := 0;
     max_retries := 3 |}.

(** *** connect *)

(** What a [GET /health] does: it answers with a status or raises. *)
Inductive probe_result :=
| Status (code : Z)
| ProbeRaises (msg : list N).

(** The observable effects: the number of probes sent and the
    [asyncio.sleep] delays, in seconds, oldest first. *)
Record effects := Effects {
  probes : nat;
  sleeps : list nat
}.
Definition no_effects : effects := {| probes := 0; sleeps := [] |}.

Definition retries_exceeded : exn :=
  Exn ConnectionError (u "vLLM 서버 연결 최대 재시도 횟수 초과").

(** [connect] calls itself after a failed probe; [fuel] bounds the depth
    of the recursion, [None] meaning that the bound was reached.  The
    [n]-th probe sent since the effects began is answered by [health n]. *)
Fixpoint connect_loop (fuel : nat) (health : nat -> probe_result)
    (self : service) (w : effects) : option (result unit * service * effects) :=
  match fuel with
  | O => None
  | S fuel' =>
      let self := {| session := true; is_connected := is_connected self;
                     connection_retries := connection_retries self;
                     max_retries := max_retries self |} in
      let answer := health (probes w) in
      let w := {| probes := S (probes w); sleeps := sleeps w |} in
      let success :=
        match answer with
        | Status code => (code =? 200)%Z
        | ProbeRaises _ => false
        end in
      if success then
        Some (Ok tt,
              {| session := session self; is_connected := true;
                 connection_retries := 0; max_retries := max_retries self |},
              w)
      else
        let self := {| session := session self; is_connected := false;
                       connection_retries := connection_retries self + 1;
                       max_retries := max_retries self |} in
        if connection_retries self <? max_retries self then
          let w := {| probes := probes w;
                      sleeps := sleeps w ++ [2 ^ connection_retries self] |} in
          connect_loop fuel' health self w
        else
          Some (Raise retries_exceeded, self, w)
  end.

(** The recursion depth never exceeds the retries that remain. *)
Definition connect (health : nat -> probe_result) (self : service) (w : effects)
  : option (result unit * service * effects) :=
  connect_loop (S (max_retries self - connection_retries self)) health self w.

(** *** disconnect and health_check *)

(** [disconnect]: the session is closed (which is taken not to raise)
    and forgotten, the flag is cleared; the retry counter is left as it
    is. *)
Definition disconnect (self : service) : service :=
  {| session := false; is_connected := false;
     connection_retries := connection_retries self;
     max_retries := max_retries self |}.

(** [health_check].  [body n] is what reading the text of the answer to
    the [n]-th probe gives.  Every exception ends in [return False]. *)
Definition health_check (health : nat -> probe_result) (body : nat -> result (list N))
    (self : service) (w : effects) : option (bool * service * effects) :=
  let connected :=
    if negb (session self) then connect health self w
    else Some (Ok tt, self, w) in
  match connected with
  | None => None
  | Some (Raise _, self, w) => Some (false, self, w)
  | Some (Ok _, self, w) =>
      let answer := health (probes w) in
      let text := body (probes w) in
      let w := {| probes := S (probes w); sleeps := sleeps w |} in
      match answer with
      | Status status =>
          if (status =? 200)%Z then
            match text with
            | Ok response_text => Some (true, self, w)
            | Raise _ => Some (false, self, w)
            end
          else Some (false, self, w)
      | ProbeRaises _ => Some (false, self, w)
      end
  end.

(** *** Payloads *)

Record payload := Payload {
  p_user_id : Z;
  p_prompt : list N;
  p_model_type : list N;
  p_user_select_options : gmap string pyval;
  p_temperature : float;
  p_max_tokens : Z;
  p_top_p : float
}.

Definition system_prompt : list N := u
"당신은 고품질 Python 코드를 생성하는 AI 코딩 어시스턴트입니다.
다음 규칙을 따라 코드를 생성해주세요:
1. 완전하고 실행 가능한 코드를 작성
2. 적절한 주석과 문서화 포함
3. 파이썬 최선의 관례(best practices) 준수
4. 간결하고 읽기 쉬운 코드 작성".

(** Truthiness of the optional preferences: [None] and the empty dict
    are falsy. *)
Definition has_preferences (user_preferences : option (gmap string pyval)) : bool :=
  match user_preferences with
  | Some d => negb (bool_decide (d = ∅))
  | None => false
  end.
(** [user_preferences or {}] *)
Definition or_empty (user_preferences : option (gmap string pyval)) : gmap string pyval :=
  match user_preferences with
  | Some d => d
  | None => ∅
  end.

(** [build_personalized_prompt] is imported when the prompt is built;
    [None] stands for a failing import. *)
Definition _build_enhanced_prompt
    (build_personalized_prompt : option (list N -> gmap string pyval -> list N))
    (request : CodeGenerationRequest)
    (user_preferences : option (gmap string pyval)) : list N :=
  let context_section :=
    match context request with
    | Some ctx =>
        if nonempty ctx && nonempty (strip ctx)
        then nl ++ nl ++ u "기존 코드 컨텍스트:" ++ nl ++ u "```python" ++ nl
             ++ ctx ++ nl ++ u "```"
        else []
    | None => []
    end in
  let base_prompt :=
    system_prompt ++ nl ++ nl ++ u "사용자 요청: " ++ prompt request
    ++ context_section ++ nl ++ nl ++ u "Python 코드:" ++ nl ++ u "```python" in
  if has_preferences user_preferences then
    match build_personalized_prompt with
    | Some personalize => personalize base_prompt (or_empty user_preferences)
    | None => base_prompt
    end
  else base_prompt.

Definition _map_hapa_to_vllm_model (m : ModelType) : list N := model_mapping m.

(** [int(n * factor)] *)
Definition scale_int (n : Z) (factor : float) : Z :=
  int_of_float (float_of_int n * factor)%float.

Definition _prepare_vllm_payload
    (py_hash : list N -> Z)
    (build_personalized_prompt : option (list N -> gmap string pyval -> list N))
    (request : CodeGenerationRequest) (complexity : ComplexityTier)
    (user_id : list N) (user_preferences : option (gmap string pyval)) : payload :=
  let base_temperature := 0.3%float in
  let base_max_tokens := 400%Z in
  let base_top_p := 0.8%float in
  let '(base_temperature, base_max_tokens, base_top_p) :=
    if has_preferences user_preferences then
      let prefs := or_empty user_preferences in
      let skill_level := dict_get prefs "skill_level" (PStr (u "intermediate")) in
      let code_style := dict_get prefs "code_style" (PStr (u "standard")) in
      let safety_level := dict_get prefs "safety_level" (PStr (u "standard")) in
      let base_max_tokens :=
        if eq_str skill_level (u "beginner") then scale_int base_max_tokens 1.5
        else if eq_str skill_level (u "expert") then scale_int base_max_tokens 0.8
        else base_max_tokens in
      let base_temperature :=
        if eq_str code_style (u "concise")
        then py_max (base_temperature * 0.8)%float 0.1%float
        else if eq_str code_style (u "detailed")
             then py_min (base_temperature * 1.2)%float 0.4%float
        else base_temperature in
      let base_top_p :=
        if eq_str safety_level (u "enhanced")
        then py_max (base_top_p * 0.9)%float 0.7%float
        else if eq_str safety_level (u "minimal")
             then py_min (base_top_p * 1.1)%float 0.95%float
        else base_top_p in
      (base_temperature, base_max_tokens, base_top_p)
    else (base_temperature, base_max_tokens, base_top_p) in
  let '(temperature, max_tokens, top_p) :=
    if str_eqb (value complexity) (u "simple") then
      (base_temperature, base_max_tokens, base_top_p)
    else if str_eqb (value complexity) (u "medium") then
      (py_min (base_temperature * 1.3)%float 0.5%float,
       scale_int base_max_tokens 1.5,
       py_min (base_top_p * 1.1)%float 0.9%float)
    else
      (py_min (base_temperature * 1.6)%float 0.7%float,
       scale_int base_max_tokens 2.0,
       py_min (base_top_p * 1.2)%float 0.95%float) in
  let enhanced_prompt :=
    _build_enhanced_prompt build_personalized_prompt request user_preferences in
  let mapped_model := _map_hapa_to_vllm_model (model_type request) in
  {| p_user_id := (py_hash (if nonempty user_id then user_id else u "anonymous")
                   mod 1000000)%Z;
     p_prompt := enhanced_prompt;
     p_model_type := mapped_model;
     p_user_select_options := or_empty user_preferences;
     p_temperature := temperature;
     p_max_tokens := max_tokens;
     p_top_p := top_p |}.

(** The payload that [generate_code_streaming] sends. *)
Definition streaming_payload (py_hash : list N -> Z)
    (request : CodeGenerationRequest) (user_id : list N)
    (user_preferences : option (gmap string pyval)) : payload :=
  let mapped_model := model_mapping (model_type request) in
  {| p_user_id := (py_hash user_id mod 1000000)%Z;
     p_prompt := prompt request;
     p_model_type := mapped_model;
     p_user_select_options := or_empty user_preferences;
     p_max_tokens := int_or (max_tokens request) 512;
     p_temperature := float_or (temperature request) 0.7;
     p_top_p := float_or (top_p request) 0.9 |}.

(** *** Streaming *)

(** [StreamEvent]: the dicts [{"type": "token", "content": c,
    "is_complete": False}], [{"type": "done", "content": "",
    "is_complete": True}] and [{"type": "error", "content": msg,
    "is_complete": True}]. *)
Inductive StreamEvent :=
| token (content : pyval)
| done
| error (msg : list N).

(** What [json.loads] does with a text: a value, [JSONDecodeError], or
    another exception. *)
Inductive loads_result :=
| Loaded (v : pyval)
| JSONDecodeError
| LoadsRaises (e : exn).

Definition _process_stream_line (json_loads : list N -> loads_result)
    (line_text : list N) : result (option StreamEvent) :=
  if negb (nonempty line_text) then Ok None
  else if negb (startswith (u "data: ") line_text) then Ok None
  else if str_eqb line_text (u "data: [DONE]") then Ok (Some done)
  else
    let data_part := drop 6 line_text in
    match json_loads data_part with
    | JSONDecodeError => Ok None
    | LoadsRaises e => Raise e
    | Loaded (PDict parsed_data) =>
        if eq_str (dict_get parsed_data "type" PNone) (u "done") then Ok (Some done)
        else
          match parsed_data !! "text" with
          | Some content =>
              if truthy_val content then
                (* the log line evaluates [content[:50]] *)
                match content with
                | PStr _ | PList _ => Ok (Some (token content))
                | _ => Raise (not_subscriptable content)
                end
              else Ok None
          | None => Ok None
          end
    | Loaded parsed_data => Raise (no_attribute parsed_data "get")
    end.

(** The body of a streaming response: the chunks of bytes that
    [iter_chunked] delivers and how the iteration ends.  The request is
    sent with a total timeout (300 seconds), which makes the iteration
    fail when the body does not end: the chunks are finitely many. *)
Inductive ending :=
| EndOfBody
| ReadFails (msg : list N).

Record response := Response {
  status : Z;
  text : result (list N);            (* what [await response.text()] gives *)
  chunks : list string;
  finish : ending
}.

(** What the [POST /generate/stream] does: it raises or is answered. *)
Inductive post_result :=
| PostRaises (e : exn)
| PostAnswers (r : response).

(** The [for line in lines] loop over one decoded chunk.  The flag
    tells whether the generator returned (a done event was yielded); an
    exception leaves the loop for the handler of the chunk, which goes
    on with the next chunk. *)
Fixpoint process_lines (json_loads : list N -> loads_result) (lines : list (list N))
  : list StreamEvent * bool :=
  match lines with
  | [] => ([], false)
  | line :: lines' =>
      let line_text := strip line in
      if nonempty line_text && negb (str_eqb line_text (u "data: ")) then
        match _process_stream_line json_loads line_text with
        | Raise _ => ([], false)
        | Ok None => process_lines json_loads lines'
        | Ok (Some result) =>
            match result with
            | done => ([result], true)
            | _ =>
                let '(evs, returned) := process_lines json_loads lines' in
                (result :: evs, returned)
            end
        end
      else process_lines json_loads lines'
  end.

(** The [async for chunk in response.content.iter_chunked(8192)] loop
    with what follows it. *)
Fixpoint read_chunks (json_loads : list N -> loads_result)
    (chunks : list string) (finish : ending) : list StreamEvent :=
  match chunks with
  | [] =>
      match finish with
      | EndOfBody => [done]
      | ReadFails msg => [error (u "Transfer-Encoding 오류: " ++ msg)]
      end
  | chunk :: chunks' =>
      match chunk with
      | EmptyString => read_chunks json_loads chunks' finish
      | _ =>
          match decode_utf8 chunk with
          | None => read_chunks json_loads chunks' finish
          | Some chunk_text =>
              let '(evs, returned) := process_lines json_loads (split_lines chunk_text) in
              if returned then evs
              else evs ++ read_chunks json_loads chunks' finish
          end
      end
  end.

(** The part of [generate_code_streaming] from the POST on.  [post] is
    what the [POST /generate/stream] does. *)
Definition request_stream (json_loads : list N -> loads_result)
    (post : post_result) (self : service) : list StreamEvent :=
  if negb (session self) then          (* [self.session] is [None] *)
    [error (u "오류: " ++ message (no_attribute PNone "post"))]
  else
    match post with
    | PostRaises e => [error (u "오류: " ++ message e)]
    | PostAnswers r =>
        if negb (status r =? 200)%Z then
          match text r with
          | Raise e => [error (u "오류: " ++ message e)]
          | Ok error_text => [error (u "API 오류: " ++ str_of_int (status r))]
          end
        else read_chunks json_loads (chunks r) (finish r)
    end.

(** The events of one call, with the state of the service afterwards. *)
Definition generate_code_streaming
    (json_loads : list N -> loads_result)
    (health : nat -> probe_result) (post : post_result)
    (self : service) (w : effects)
    : list StreamEvent * service :=
  let connected :=
    if negb (is_connected self) then connect health self w
    else Some (Ok tt, self, w) in
  match connected with
  | None => ([], self)
  | Some (Raise e, self, _) => ([error (u "오류: " ++ message e)], self)
  | Some (Ok _, self, _) => (request_stream json_loads post self, self)
  end.

(** *** generate_code_sync *)

(** The response object; [processing_time], a reading of the clock, is
    left out. *)
Record CodeGenerationResponse := CodeResponse {
  success : bool;
  generated_code : list N;
  explanation : option (list N);
  error_message : option (list N);
  model_used : list N;
  total_tokens : nat;                       (* [token_usage["total_tokens"]] *)
  confidence_score : option float;
  metadata : option (gmap string pyval)
}.

Definition failure (msg : list N) : CodeGenerationResponse :=
  {| success := false; generated_code := []; explanation := None;
     error_message := Some msg; model_used := u "vllm"; total_tokens := 0;
     confidence_score := None; metadata := None |}.

(** The [async for chunk in ...] loop: the accumulated text, or the
    response returned from inside the loop, or an exception. *)
Fixpoint accumulate (events : list StreamEvent) (accumulated_content : list N)
  : result (list N + CodeGenerationResponse) :=
  match events with
  | [] => Ok (inl accumulated_content)
  | token content :: events' =>
      match content with
      | PStr s => accumulate events' (accumulated_content ++ s)
      | _ => Raise (cannot_concatenate content)
      end
  | done :: _ => Ok (inl accumulated_content)
  | error msg :: _ => Ok (inr (failure msg))
  end.

(** The success response built from the parsed text; every subscript
    is evaluated before the response is constructed.  The class of the
    response is declared with the schemas, outside this file: what the
    statements under [if user_preferences:] do with the object (whether
    it has, or accepts, a [metadata] attribute) is the parameter
    [update_metadata], applied to the response and to the dict of the
    update. *)
Definition build_response (unicode_alnum : N -> bool)
    (update_metadata : CodeGenerationResponse -> gmap string pyval
                       -> result CodeGenerationResponse)
    (user_preferences : option (gmap string pyval))
    (accumulated_content : list N) : result CodeGenerationResponse :=
  let parsed_response := ResponseParser.parse_response unicode_alnum accumulated_content in
  match subscript parsed_response "code" with
  | Raise e => Raise e
  | Ok code =>
  match subscript parsed_response "explanation" with
  | Raise e => Raise e
  | Ok expl =>
  match subscript parsed_response "metadata" with
  | Raise e => Raise e
  | Ok meta =>
      match subscript_value meta "parsing_confidence" with
      | Raise e => Raise e
      | Ok conf =>
          let response :=
            {| success := true;
               generated_code := match code with PStr s => s | _ => [] end;
               explanation := match expl with PStr s => Some s | _ => None end;
               error_message := None;
               model_used := u "vllm";
               total_tokens := count_words false accumulated_content;
               confidence_score := match conf with PFloat f => Some f | _ => None end;
               metadata := None |} in
          if has_preferences user_preferences then
            let prefs := or_empty user_preferences in
            update_metadata response
              (<["personalized" := PBool true]>
              (<["user_preferences" := PDict prefs]>
              (<["skill_level" := dict_get prefs "skill_level" (PStr (u "unknown"))]>
              (<["code_style" := dict_get prefs "code_style" (PStr (u "unknown"))]>
               ∅))))
          else Ok response
      end
  end end end.

Definition generate_code_sync
    (unicode_alnum : N -> bool)
    (update_metadata : CodeGenerationResponse -> gmap string pyval
                       -> result CodeGenerationResponse)
    (json_loads : list N -> loads_result)
    (health : nat -> probe_result) (post : post_result)
    (self : service) (w : effects)
    (user_preferences : option (gmap string pyval))
    : CodeGenerationResponse :=
  let events := fst (generate_code_streaming json_loads health post self w) in
  match accumulate events [] with
  | Raise e => failure (u "코드 생성 실패: " ++ message e)
  | Ok (inr early) => early
  | Ok (inl accumulated_content) =>
      match build_response unicode_alnum update_metadata user_preferences
              accumulated_content with
      | Raise e => failure (u "코드 생성 실패: " ++ message e)
      | Ok response => response
      end
  end.

End VLLMIntegrationService.

(** ** Settings ([app/core/config.py]) *)

Module Settings.
Import Py.

(** The fields of [Settings] that its methods read. *)
Record settings := {
  ENVIRONMENT : list N;
  CORS_ORIGINS : list (list N)
}.

(** The values of the class definition, which apply when the
    environment sets nothing. *)
Definition defaults : settings :=
  {| ENVIRONMENT := u "development"; CORS_ORIGINS := [u "*"] |}.

Definition is_production (self : settings) : bool :=
  str_eqb (ENVIRONMENT self) (u "production").

Definition get_cors_origins (self : settings) : list (list N) :=
  if str_eqb (ENVIRONMENT self) (u "production")
  then List.filter (fun origin => negb (str_eqb origin (u "*"))) (CORS_ORIGINS self)
  else CORS_ORIGINS self.

End Settings.

(** * Vocabulary of the properties *)

Import Py.

(** A probe succeeds when it answers with status 200. *)
Definition probe_ok (r : VLLMIntegrationService.probe_result) : bool :=
  match r with
  | VLLMIntegrationService.Status code => (code =? 200)%Z
  | VLLMIntegrationService.ProbeRaises _ => false
  end.

(** The brackets of a text are properly nested. *)
Inductive well_bracketed : list N -> Prop :=
| wb_nil : well_bracketed []
| wb_other c s :
    CodeQualityValidator.is_open c = false ->
    CodeQualityValidator.is_close c = false ->
    well_bracketed s -> well_bracketed (c :: s)
| wb_pair o s t :
    CodeQualityValidator.is_open o = true ->
    well_bracketed s -> well_bracketed t ->
    well_bracketed (o :: s ++ CodeQualityValidator.closer o :: t).

(** [unclosed ops s]: [s] is properly nested but for the openers [ops]
    (outermost first), which are never closed. *)
Inductive unclosed : list N -> list N -> Prop :=
| unclosed_nil s : well_bracketed s -> unclosed [] s
| unclosed_cons o ops s t :
    well_bracketed s -> CodeQualityValidator.is_open o = true ->
    unclosed ops t -> unclosed (o :: ops) (s ++ o :: t).

(** [closes stack s]: [s] closes the openers of [stack], innermost
    first, with properly nested text in between and after. *)
Fixpoint closes (stack : list N) (s : list N) : Prop :=
  match stack with
  | [] => well_bracketed s
  | o :: stack' =>
      exists s1 s2, s = s1 ++ CodeQualityValidator.closer o :: s2
                    /\ well_bracketed s1 /\ closes stack' s2
  end.

(** The confidence that remains after the penalties of the categories
    that reported an issue: 0.3 for the syntax heuristics, 0.2 for the
    brackets, 0.2 for the quotes and 0.3 for the parse, clamped at 0. *)
Definition penalised (c : float) (hit : bool) (penalty : float) : float :=
  if hit then (c - penalty)%float else c.
Definition confidence_of (syntax bracket quote parse : bool) : float :=
  py_max 0.0%float
    (penalised (penalised (penalised (penalised 1.0%float syntax 0.3%float)
                                     bracket 0.2%float) quote 0.2%float)
               parse 0.3%float).

(** A text made of white space only (the empty text included). *)
Definition whitespace_only (s : list N) : bool := forallb isspace s.

(** [a <= b] on floats. *)
Definition fle (a b : float) : Prop := PrimFloat.leb a b = true.

(** The characters that a repair may append. *)
Definition repair_char : N -> bool := Re.one_of [ch ")"; SQ; DQ].

(** The quote characters that a repair appends: one for each kind of
    quote that occurs an odd number of times. *)
Definition quote_suffix (code : list N) : list N :=
  (if negb (count_char SQ code mod 2 =? 0) then [SQ] else []) ++
  (if negb (count_char DQ code mod 2 =? 0) then [DQ] else []).

(** Example 3 of the specification: an explanation line followed by a
    fence tagged python around print(1). *)
Definition tagged_fence_example : list N :=
  u "Explanation: does X" ++ nl ++ u "```python" ++ nl ++ u "print(1)" ++ nl ++ u "```".

(** The same text with a fence that carries no language tag. *)
Definition plain_fence_example : list N :=
  u "Explanation: does X" ++ nl ++ u "```" ++ nl ++ u "print(1)" ++ nl ++ u "```".

(** The dict that [parse_response] returns for blank input. *)
Definition blank_parse : gmap string pyval :=
  <["explanation" := PStr []]> (<["code" := PStr []]> ∅).




Definition is_terminal (e : VLLMIntegrationService.StreamEvent) : bool :=
  match e with
  | VLLMIntegrationService.token _ => false
  | _ => true
  end.

(** The token that a line of a chunk gives when it is processed on its
    own, and the tokens of all the lines of the decodable chunks in the
    order of their arrival. *)
Definition line_token (json_loads : list N -> VLLMIntegrationService.loads_result)
    (line : list N) : list pyval :=
  let line_text := strip line in
  if nonempty line_text && negb (str_eqb line_text (u "data: ")) then
    match VLLMIntegrationService._process_stream_line json_loads line_text with
    | Ok (Some (VLLMIntegrationService.token content)) => [content]
    | _ => []
    end
  else [].
Definition arriving_tokens (json_loads : list N -> VLLMIntegrationService.loads_result)
    (chunks : list string) : list pyval :=
  flat_map (fun chunk =>
              match decode_utf8 chunk with
              | Some chunk_text => flat_map (line_token json_loads) (split_lines chunk_text)
              | None => []
              end) chunks.

(** A decoder for the payloads of the examples: the object with text
    foo, the object with type done, and the number 5. *)
Definition text_foo_payload : list N :=
  u "{" ++ [DQ] ++ u "text" ++ [DQ] ++ u ": " ++ [DQ] ++ u "foo" ++ [DQ] ++ u "}".
Definition type_done_payload : list N :=
  u "{" ++ [DQ] ++ u "type" ++ [DQ] ++ u ": " ++ [DQ] ++ u "done" ++ [DQ] ++ u "}".
Definition example_loads (s : list N) : VLLMIntegrationService.loads_result :=
  if str_eqb s text_foo_payload
  then VLLMIntegrationService.Loaded (PDict (<["text" := PStr (u "foo")]> ∅))
  else if str_eqb s type_done_payload
  then VLLMIntegrationService.Loaded (PDict (<["type" := PStr (u "done")]> ∅))
  else if str_eqb s (u "5") then VLLMIntegrationService.Loaded (PInt 5)
  else VLLMIntegrationService.JSONDecodeError.

(** The bytes of an ASCII text. *)
Definition ascii_bytes (s : list N) : string :=
  string_of_list_ascii (map ascii_of_N s).

(** The decoding parameters of a payload. *)
Record decoding := Decoding {
  d_temperature : float;
  d_max_tokens : Z;
  d_top_p : float
}.
Definition decoding_of (p : VLLMIntegrationService.payload) : decoding :=
  {| d_temperature := VLLMIntegrationService.p_temperature p;
     d_max_tokens := VLLMIntegrationService.p_max_tokens p;
     d_top_p := VLLMIntegrationService.p_top_p p |}.

(** The layered rule of the specification.  A value scaled with a floor
    is not let below the floor, one scaled with a ceiling not above it;
    token budgets are scaled exactly: by 1.5 is by 3/2, by 0.8 is by 4/5. *)
Definition floor_at (lo x : float) : float := if PrimFloat.ltb x lo then lo else x.
Definition ceiling_at (hi x : float) : float := if PrimFloat.ltb hi x then hi else x.

Definition baseline : decoding :=
  {| d_temperature := 0.3; d_max_tokens := 400; d_top_p := 0.8 |}.

Definition skill_adjustment (skill_level : pyval) (d : decoding) : decoding :=
  if eq_str skill_level (u "beginner")
  then {| d_temperature := d_temperature d; d_max_tokens := (d_max_tokens d * 3 / 2)%Z;
          d_top_p := d_top_p d |}
  else if eq_str skill_level (u "expert")
  then {| d_temperature := d_temperature d; d_max_tokens := (d_max_tokens d * 4 / 5)%Z;
          d_top_p := d_top_p d |}
  else d.

Definition style_adjustment (code_style : pyval) (d : decoding) : decoding :=
  if eq_str code_style (u "concise")
  then {| d_temperature := floor_at 0.1 (d_temperature d * 0.8)%float;
          d_max_tokens := d_max_tokens d; d_top_p := d_top_p d |}
  else if eq_str code_style (u "detailed")
  then {| d_temperature := ceiling_at 0.4 (d_temperature d * 1.2)%float;
          d_max_tokens := d_max_tokens d; d_top_p := d_top_p d |}
  else d.

Definition safety_adjustment (safety_level : pyval) (d : decoding) : decoding :=
  if eq_str safety_level (u "enhanced")
  then {| d_temperature := d_temperature d; d_max_tokens := d_max_tokens d;
          d_top_p := floor_at 0.7 (d_top_p d * 0.9)%float |}
  else if eq_str safety_level (u "minimal")
  then {| d_temperature := d_temperature d; d_max_tokens := d_max_tokens d;
          d_top_p := ceiling_at 0.95 (d_top_p d * 1.1)%float |}
  else d.

Definition complexity_overlay (tier : VLLMIntegrationService.ComplexityTier)
    (d : decoding) : decoding :=
  match tier with
  | VLLMIntegrationService.SIMPLE => d
  | VLLMIntegrationService.MEDIUM =>
      {| d_temperature := ceiling_at 0.5 (d_temperature d * 1.3)%float;
         d_max_tokens := (d_max_tokens d * 3 / 2)%Z;
         d_top_p := ceiling_at 0.9 (d_top_p d * 1.1)%float |}
  | VLLMIntegrationService.COMPLEX =>
      {| d_temperature := ceiling_at 0.7 (d_temperature d * 1.6)%float;
         d_max_tokens := (d_max_tokens d * 2)%Z;
         d_top_p := ceiling_at 0.95 (d_top_p d * 1.2)%float |}
  end.

(** The preference stored under a key; the default when there are no
    preferences or the key is absent. *)
Definition preference (user_preferences : option (gmap string pyval))
    (key : string) (default : list N) : pyval :=
  match user_preferences with
  | Some d => dict_get d key (PStr default)
  | None => PStr default
  end.

Definition layered_rule (user_preferences : option (gmap string pyval))
    (tier : VLLMIntegrationService.ComplexityTier) : decoding :=
  complexity_overlay tier
    (safety_adjustment (preference user_preferences "safety_level" (u "standard"))
       (style_adjustment (preference user_preferences "code_style" (u "standard"))
          (skill_adjustment
             (preference user_preferences "skill_level" (u "intermediate"))
             baseline))).

(** The delays of [k] consecutive backoffs that start with the retry
    counter at [r]: 2^(r+1), ..., 2^(r+k) seconds. *)
Definition backoff_delays (r k : nat) : list nat := map (fun i => 2 ^ i) (seq (r + 1) k).

(** [demands q r]: every match of [r] consumes a character for which
    [q] holds. *)
Fixpoint demands (q : N -> Prop) (r : Re.regex) : Prop :=
  match r with
  | Re.Cls p => forall x, p x = true -> q x
  | Re.Seq a b => demands q a \/ demands q b
  | Re.Alt a b => demands q a /\ demands q b
  | Re.Group a => demands q a
  | _ => False
  end.

(** A quote character. *)
Definition is_quote (x : N) : Prop := x = DQ \/ x = SQ.

(** The repairs of [suggest_fix]: which one an issue triggers (the
    first marker that the issue contains decides), and what it appends
    to the code it finds. *)
Inductive repair := CloseParens | SingleQuote | DoubleQuote | NoRepair.

Definition repair_of (issue : list N) : repair :=
  if contains CodeQualityValidator.unclosed_marker issue then CloseParens
  else if contains CodeQualityValidator.issue_odd_single issue then SingleQuote
  else if contains CodeQualityValidator.issue_odd_double issue then DoubleQuote
  else NoRepair.

Definition appended (k : repair) (fixed_code : list N) : list N :=
  match k with
  | CloseParens =>
      repeat (ch ")") (count_char (ch "(") fixed_code - count_char (ch ")") fixed_code)
  | SingleQuote => if count_char SQ fixed_code mod 2 =? 0 then [] else [SQ]
  | DoubleQuote => if count_char DQ fixed_code mod 2 =? 0 then [] else [DQ]
  | NoRepair => []
  end.

Definition repair_eqb (a b : repair) : bool :=
  match a, b with
  | CloseParens, CloseParens | SingleQuote, SingleQuote
  | DoubleQuote, DoubleQuote | NoRepair, NoRepair => true
  | _, _ => false
  end.

(** Every quote character occurs an even number of times. *)
Definition quotes_even (s : list N) : Prop :=
  (count_char SQ s mod 2 =? 0) = true /\ (count_char DQ s mod 2 =? 0) = true.

(** The call reaches the POST: the service is connected and holds a
    session, or it is not connected and connecting succeeds. *)
Definition reaches_post (health : nat -> VLLMIntegrationService.probe_result)
    (self : VLLMIntegrationService.service) (w : VLLMIntegrationService.effects) : Prop :=
  (VLLMIntegrationService.is_connected self = true
   /\ VLLMIntegrationService.session self = true)
  \/ (VLLMIntegrationService.is_connected self = false
      /\ exists self' w',
           VLLMIntegrationService.connect health self w = Some (Ok tt, self', w')).

(** The factors by which the style and the tier scale the temperature. *)
Definition style_factor (code_style : pyval) : float :=
  if eq_str code_style (u "concise") then 0.8%float
  else if eq_str code_style (u "detailed") then 1.2%float
  else 1.0%float.
Definition tier_factor (tier : VLLMIntegrationService.ComplexityTier) : float :=
  match tier with
  | VLLMIntegrationService.SIMPLE => 1.0%float
  | VLLMIntegrationService.MEDIUM => 1.3%float
  | VLLMIntegrationService.COMPLEX => 1.6%float
  end.


(** A line that lets the line loop of its chunk go on: processing it
    neither raises nor ends the stream. *)
Definition passing (json_loads : list N -> VLLMIntegrationService.loads_result)
    (line : list N) : Prop :=
  match VLLMIntegrationService._process_stream_line json_loads (strip line) with
  | Ok None | Ok (Some (VLLMIntegrationService.token _)) => True
  | _ => False
  end.

(** The stream ends in [chunk]: the chunk decodes, and its line loop
    reaches (through passing lines) a line that gives the done event. *)
Definition ends_stream (json_loads : list N -> VLLMIntegrationService.loads_result)
    (chunk : string) : Prop :=
  exists content lines1 line lines2,
    decode_utf8 chunk = Some content
    /\ split_lines content = lines1 ++ line :: lines2
    /\ Forall (passing json_loads) lines1
    /\ VLLMIntegrationService._process_stream_line json_loads (strip line)
       = Ok (Some VLLMIntegrationService.done).
Definition done_reached (json_loads : list N -> VLLMIntegrationService.loads_result)
    (chunks : list string) : Prop :=
  Exists (ends_stream json_loads) chunks.

(** No line of the chunks raises or ends the stream. *)
Definition undisturbed (json_loads : list N -> VLLMIntegrationService.loads_result)
    (chunks : list string) : Prop :=
  forall chunk content,
    In chunk chunks -> decode_utf8 chunk = Some content ->
    Forall (passing json_loads) (split_lines content).

(** The events of the lines that remain in a chunk and of the chunks
    that follow it. *)
Definition remaining_events (json_loads : list N -> VLLMIntegrationService.loads_result)
    (lines : list (list N)) (chunks : list string)
    (finish : VLLMIntegrationService.ending) : list VLLMIntegrationService.StreamEvent :=
  let '(evs, returned) := VLLMIntegrationService.process_lines json_loads lines in
  if returned then evs
  else evs ++ VLLMIntegrationService.read_chunks json_loads chunks finish.

(** The event that follows the last chunk. *)
Definition end_event (finish : VLLMIntegrationService.ending)
  : VLLMIntegrationService.StreamEvent :=
  match finish with
  | VLLMIntegrationService.EndOfBody => VLLMIntegrationService.done
  | VLLMIntegrationService.ReadFails msg =>
      VLLMIntegrationService.error (u "Transfer-Encoding 오류: " ++ msg)
  end.

(** The failures of a call.  Connecting fails: it raises, or the service
    is marked connected without holding a session.  The request fails:
    the POST raises, it is answered with another status than 200, or
    reading the body fails before a done event was reached. *)
Definition connection_failure (health : nat -> VLLMIntegrationService.probe_result)
    (self : VLLMIntegrationService.service) (w : VLLMIntegrationService.effects) : Prop :=
  (VLLMIntegrationService.is_connected self = false
   /\ exists e self' w',
        VLLMIntegrationService.connect health self w = Some (Raise e, self', w'))
  \/ (VLLMIntegrationService.is_connected self = true
      /\ VLLMIntegrationService.session self = false).
Definition request_failure (json_loads : list N -> VLLMIntegrationService.loads_result)
    (post : VLLMIntegrationService.post_result) : Prop :=
  (exists e, post = VLLMIntegrationService.PostRaises e)
  \/ (exists r, post = VLLMIntegrationService.PostAnswers r
                /\ (VLLMIntegrationService.status r =? 200)%Z = false)
  \/ (exists r msg, post = VLLMIntegrationService.PostAnswers r
                    /\ VLLMIntegrationService.finish r
                       = VLLMIntegrationService.ReadFails msg
                    /\ ~ done_reached json_loads (VLLMIntegrationService.chunks r)).
Definition stream_failure (json_loads : list N -> VLLMIntegrationService.loads_result)
    (health : nat -> VLLMIntegrationService.probe_result)
    (post : VLLMIntegrationService.post_result)
    (self : VLLMIntegrationService.service) (w : VLLMIntegrationService.effects)
    : Prop :=
  connection_failure health self w \/ request_failure json_loads post.

(** * Verified properties *)

(** ** Connection retries (C1) *)

Section ConnectFacts.
Import VLLMIntegrationService.

(** The fuel that [connect] passes is always enough. *)
Lemma connect_loop_total fuel health self w :
  max_retries self - connection_retries self < fuel ->
  is_Some (connect_loop fuel health self w).
Proof.
  revert self w. induction fuel as [|fuel IH]; intros self w Hf; [lia|].
  simpl. destruct (health (probes w)) as [code|msg]; simpl.
  - destruct (code =? 200)%Z; [eauto|].
    destruct (Nat.ltb_spec (connection_retries self + 1) (max_retries self));
      [apply IH; simpl; lia | eauto].
  - destruct (Nat.ltb_spec (connection_retries self + 1) (max_retries self));
      [apply IH; simpl; lia | eauto].
Qed.

Lemma connect_total health self w : is_Some (connect health self w).
Proof. apply connect_loop_total. lia. Qed.

(** A normal return leaves the counter at zero, the flag set and a
    session in place. *)
Lemma connect_loop_ok fuel health self w self' w' :
  connect_loop fuel health self w = Some (Ok tt, self', w') ->
  connection_retries self' = 0 /\ is_connected self' = true /\ session self' = true.
Proof.
  revert self w. induction fuel as [|fuel IH]; intros self w; simpl; [done|].
  destruct (match health (probes w) with Status c => (c =? 200)%Z | _ => false end).
  - intros [= <- <-]. done.
  - destruct (_ <? _); [apply IH | done].
Qed.

(** An exception is the [ConnectionError] of the exhausted retries. *)
Lemma connect_loop_raise fuel health self w e self' w' :
  connect_loop fuel health self w = Some (Raise e, self', w') ->
  e = retries_exceeded /\ max_retries self' <= connection_retries self'
  /\ is_connected self' = false.
Proof.
  revert self w. induction fuel as [|fuel IH]; intros self w; simpl; [done|].
  destruct (match health (probes w) with Status c => (c =? 200)%Z | _ => false end);
    [done|].
  destruct (Nat.ltb_spec (connection_retries self + 1) (max_retries self));
    [apply IH|].
  intros [= <- <- <-]. simpl. done.
Qed.

(** One failed probe below the cap: sleep [2 ^ retries] and try again. *)
Lemma connect_loop_fail_step fuel health self w :
  probe_ok (health (probes w)) = false ->
  connection_retries self + 1 < max_retries self ->
  connect_loop (S fuel) health self w =
  connect_loop fuel health
    {| session := true; is_connected := false;
       connection_retries := connection_retries self + 1;
       max_retries := max_retries self |}
    {| probes := S (probes w);
       sleeps := sleeps w ++ [2 ^ (connection_retries self + 1)] |}.
Proof.
  intros Hp Hlt. simpl. unfold probe_ok in Hp. rewrite Hp.
  destruct (Nat.ltb_spec (connection_retries self + 1) (max_retries self)); [done|lia].
Qed.

(** One failed probe at the cap: no sleep, the error is raised. *)
Lemma connect_loop_fail_last fuel health self w :
  probe_ok (health (probes w)) = false ->
  max_retries self <= connection_retries self + 1 ->
  connect_loop (S fuel) health self w =
  Some (Raise retries_exceeded,
        {| session := true; is_connected := false;
           connection_retries := connection_retries self + 1;
           max_retries := max_retries self |},
        {| probes := S (probes w); sleeps := sleeps w |}).
Proof.
  intros Hp Hge. simpl. unfold probe_ok in Hp. rewrite Hp.
  destruct (Nat.ltb_spec (connection_retries self + 1) (max_retries self)); [lia|done].
Qed.

(** C1, amended.  Against a backend whose probe fails on every attempt,
    a [connect()] started with retry counter 0 and cap 3 sends three
    probes, sleeps 2 and then 4 seconds (after the first and the second
    failure, delay 2^attempt) and raises [ConnectionError] at the third
    failure without a further sleep, the counter then being at the cap.
    In general an exception of [connect()] is that [ConnectionError] and
    is raised only with the counter at or beyond the cap, and a
    successful probe resets the counter to zero. *)
Theorem connect_backoff_cap3 health self w :
  (forall n, probe_ok (health n) = false) ->
  connection_retries self = 0 ->
  max_retries self = 3 ->
  connect health self w =
    Some (Raise retries_exceeded,
          {| session := true; is_connected := false;
             connection_retries := 3; max_retries := 3 |},
          {| probes := probes w + 3; sleeps := sleeps w ++ [2; 4] |})
  /\ (forall health' s0 w0 e s1 w1,
        connect health' s0 w0 = Some (Raise e, s1, w1) ->
        e = retries_exceeded /\ max_retries s1 <= connection_retries s1)
  /\ (forall health' s0 w0 s1 w1,
        connect health' s0 w0 = Some (Ok tt, s1, w1) ->
        connection_retries s1 = 0).
Proof.
  intros Hfail H0 H3. split; [|split].
  - unfold connect. rewrite H0, H3. simpl Nat.sub.
    rewrite connect_loop_fail_step by (auto; simpl; lia).
    rewrite connect_loop_fail_step by (auto; simpl; lia).
    rewrite connect_loop_fail_last by (auto; simpl; lia).
    simpl. rewrite H0, H3. simpl. rewrite <- app_assoc. simpl.
    do 3 f_equal. lia.
  - intros health' s0 w0 e s1 w1 H.
    apply connect_loop_raise in H. tauto.
  - intros health' s0 w0 s1 w1 H.
    apply connect_loop_ok in H. tauto.
Qed.

Lemma connect_backoff_cap3_witness :
  connect (fun _ => Status 503) __init__ no_effects =
    Some (Raise retries_exceeded,
          {| session := true; is_connected := false;
             connection_retries := 3; max_retries := 3 |},
          {| probes := 3; sleeps := [2; 4] |}).
Proof.
  apply (connect_backoff_cap3 (fun _ => Status 503) __init__ no_effects);
    [intros n; reflexivity | reflexivity | reflexivity].
Defined.

(** C1 as stated fails: with cap 3 the sleeps are 2 and 4 seconds, and
    there is no third sleep of 8 seconds. *)
Lemma connect_no_third_sleep :
  exists self' w',
    connect (fun _ => Status 503) __init__ no_effects
      = Some (Raise retries_exceeded, self', w')
    /\ sleeps w' = [2; 4] /\ sleeps w' <> [2; 4; 8].
Proof. do 2 eexists. split; [vm_compute; reflexivity|]. split; [reflexivity|discriminate]. Qed.

End ConnectFacts.

(** ** Strings *)

Section StringFacts.

(** The decoder never runs out of fuel: every step consumes a byte. *)
Lemma utf8_decode_fuel n :
  forall m l, length l <= n -> length l <= m -> utf8_decode n l = utf8_decode m l.
Proof.
  induction n as [|n IH]; intros m l Hn Hm.
  - destruct l; [by destruct m | simpl in Hn; lia].
  - destruct l as [|a l]; [by destruct m|].
    destruct m as [|m]; [simpl in Hm; lia|].
    simpl in *.
    repeat match goal with
           | |- context [if ?b then _ else _] => destruct b
           | |- context [match ?x with [] => _ | _ :: _ => _ end] => destruct x
           end;
      try done; f_equal; apply IH; simpl in *; lia.
Qed.

Lemma decode_utf8_fuel chunk n :
  String.length chunk <= n ->
  decode_utf8 chunk = utf8_decode n (map N_of_ascii (list_ascii_of_string chunk)).
Proof.
  intros H. unfold decode_utf8.
  assert (length (map N_of_ascii (list_ascii_of_string chunk)) = String.length chunk) as E.
  { rewrite length_map. clear. induction chunk; simpl; congruence. }
  apply utf8_decode_fuel; lia.
Qed.

Lemma drop_while_nil p l : drop_while p l = [] <-> forallb p l = true.
Proof.
  induction l as [|c l IH]; simpl; [done|].
  destruct (p c); simpl; [done|]. split; discriminate.
Qed.

Lemma drop_while_head p l c l' : drop_while p l = c :: l' -> p c = false.
Proof.
  induction l as [|x l IH]; simpl; [done|].
  destruct (p x) eqn:E; [done|]. by intros [= -> ->].
Qed.

(** [strip] gives the empty text exactly on white space. *)
Lemma strip_empty_iff s : strip s = [] <-> whitespace_only s = true.
Proof.
  unfold strip, rstrip, lstrip, whitespace_only. split.
  - intros H. apply (f_equal (@rev N)) in H. rewrite rev_involutive in H. simpl in H.
    destruct (drop_while isspace s) as [|c l'] eqn:E.
    + by apply drop_while_nil.
    + apply drop_while_head in E as Hc.
      apply drop_while_nil in H. rewrite forallb_forall in H.
      specialize (H c). rewrite H in Hc; [done|].
      apply in_rev. rewrite rev_involutive. by left.
  - intros H. apply drop_while_nil in H. by rewrite H.
Qed.

Lemma nonempty_false {A} (l : list A) : nonempty l = false <-> l = [].
Proof. by destruct l. Qed.

Lemma nonempty_strip s : nonempty (strip s) = negb (whitespace_only s).
Proof.
  destruct (whitespace_only s) eqn:E; simpl.
  - apply strip_empty_iff in E. by rewrite E.
  - destruct (nonempty (strip s)) eqn:T; [done|].
    apply nonempty_false, strip_empty_iff in T. congruence.
Qed.

Lemma str_eqb_eq a b : str_eqb a b = true <-> a = b.
Proof.
  revert b. induction a as [|x a IH]; intros [|y b]; simpl; try done.
  rewrite andb_true_iff, N.eqb_eq, IH. split; [by intros [-> ->] | by intros [= -> ->]].
Qed.

Lemma str_eqb_spec a b : reflect (a = b) (str_eqb a b).
Proof.
  destruct (str_eqb a b) eqn:E; constructor.
  - by apply str_eqb_eq.
  - intros H. apply str_eqb_eq in H. congruence.
Qed.

Lemma startswith_app p l : startswith p (p ++ l) = true.
Proof. induction p as [|c p IH]; simpl; [done|]. by rewrite N.eqb_refl. Qed.

(** A text contains each of its prefixes. *)
Lemma contains_prefix p s : contains p (p ++ s) = true.
Proof. destruct (p ++ s) eqn:E; simpl; rewrite <- E, startswith_app; done. Qed.

Lemma count_char_app c a b :
  count_char c (a ++ b) = count_char c a + count_char c b.
Proof. induction a as [|x a IH]; simpl; [done|]. rewrite IH. lia. Qed.

Lemma count_char_repeat_same c n : count_char c (repeat c n) = n.
Proof. induction n as [|n IH]; simpl; [done|]. by rewrite N.eqb_refl, IH. Qed.

Lemma count_char_repeat_other c x n : x <> c -> count_char c (repeat x n) = 0.
Proof.
  intros Hne. induction n as [|n IH]; simpl; [done|].
  apply N.eqb_neq in Hne. by rewrite Hne, IH.
Qed.

Lemma forallb_repeat {A} (p : A -> bool) x n : p x = true -> forallb p (repeat x n) = true.
Proof. intros H. induction n as [|n IH]; simpl; [done|]. by rewrite H, IH. Qed.

Lemma rev_repeat {A} (x : A) n : rev (repeat x n) = repeat x n.
Proof.
  induction n as [|n IH]; simpl; [done|].
  rewrite IH. clear. induction n as [|n IH]; simpl; [done|]. by rewrite IH.
Qed.

Lemma repeat_S_not_nil {A} (x : A) n : repeat x (S n) <> [].
Proof. done. Qed.

Lemma odd_plus_one n : (n mod 2 =? 0) = false -> ((n + 1) mod 2 =? 0) = true.
Proof.
  rewrite Nat.eqb_neq, Nat.eqb_eq. intros H.
  pose proof (Nat.mod_upper_bound n 2).
  assert (n mod 2 = 1) as H1 by lia.
  rewrite Nat.Div0.add_mod, H1. reflexivity.
Qed.

Lemma fold_left_id {A B} (f : A -> B -> A) l a :
  (forall x, In x l -> forall a', f a' x = a') -> fold_left f l a = a.
Proof.
  revert a. induction l as [|x l IH]; intros a H; simpl; [done|].
  rewrite (H x) by (by left). apply IH. intros y Hy. apply H. by right.
Qed.

Lemma fold_left_fixed {A B} (f : A -> B -> A) l a :
  (forall x, In x l -> f a x = a) -> fold_left f l a = a.
Proof.
  induction l as [|x l IH]; intros H; simpl; [done|].
  rewrite (H x) by (by left). apply IH. intros y Hy. apply H. by right.
Qed.

Lemma split_on_no_sep sep l :
  forall cur, ~ In sep l -> split_on sep cur l = [rev cur ++ l].
Proof.
  induction l as [|c l IH]; intros cur Hn; simpl.
  - by rewrite app_nil_r.
  - destruct (N.eqb_spec c sep) as [->|Hne]; [by destruct Hn; left|].
    rewrite IH by (intros ?; apply Hn; by right). simpl. by rewrite <- app_assoc.
Qed.

Lemma split_lines_single line : ~ In LF line -> split_lines line = [line].
Proof. intros H. unfold split_lines. by rewrite split_on_no_sep. Qed.

Lemma drop_while_idem p l : drop_while p (drop_while p l) = drop_while p l.
Proof.
  induction l as [|c l IH]; simpl; [done|].
  destruct (p c) eqn:E; [done|]. simpl. by rewrite E.
Qed.

Lemma drop_while_app_keep p l c t :
  p c = false -> drop_while p (l ++ c :: t) = drop_while p l ++ c :: t.
Proof.
  intros Hc. induction l as [|x l IH]; simpl; [by rewrite Hc|].
  by destruct (p x).
Qed.

Lemma drop_while_fixed p l :
  drop_while p l = l <-> match l with [] => True | c :: _ => p c = false end.
Proof.
  destruct l as [|c l]; simpl; [done|]. destruct (p c) eqn:E; [|done].
  split; [|done]. intros H.
  assert (length (drop_while p l) <= length l) as Hle.
  { clear. induction l as [|x l IH]; simpl; [done|]. destruct (p x); simpl; lia. }
  rewrite H in Hle. simpl in Hle. lia.
Qed.

Lemma rstrip_idem s : rstrip (rstrip s) = rstrip s.
Proof. unfold rstrip. by rewrite rev_involutive, drop_while_idem. Qed.

Lemma lstrip_rstrip s : lstrip s = s -> lstrip (rstrip s) = rstrip s.
Proof.
  unfold lstrip. intros H. apply drop_while_fixed in H.
  destruct s as [|c s]; [done|].
  unfold rstrip. simpl rev. rewrite (drop_while_app_keep _ _ _ [] H), rev_app_distr.
  simpl. by rewrite H.
Qed.

(** [strip] is idempotent. *)
Lemma strip_idem s : strip (strip s) = strip s.
Proof.
  unfold strip at 1.
  assert (lstrip (strip s) = strip s) as ->.
  { unfold strip. apply lstrip_rstrip. apply drop_while_idem. }
  apply rstrip_idem.
Qed.

(** A trimmed text is never the bare prefix, which ends in a space. *)
Lemma strip_not_bare_prefix line : strip line <> u "data: ".
Proof.
  intros H. pose proof (strip_idem line) as Hi. rewrite H in Hi. by vm_compute in Hi.
Qed.

End StringFacts.
(** ** The validation result (C6) *)

Section ValidateFacts.
Import CodeQualityValidator.

Lemma confidence_of_bounds s b q a :
  fle 0.0%float (confidence_of s b q a) /\ fle (confidence_of s b q a) 1.0%float.
Proof. by destruct s, b, q, a. Qed.

Lemma confidence_of_antitone s b q a s' b' q' a' :
  implb s s' && implb b b' && implb q q' && implb a a' = true ->
  fle (confidence_of s' b' q' a') (confidence_of s b q a).
Proof. destruct s, b, q, a, s', b', q', a'; simpl; intros H; done. Qed.

(** The result of a validation that runs its four checks. *)
Lemma validate_code_chunk_checked ast_parse self code :
  validation_enabled self = true -> whitespace_only code = false ->
  let syn := _check_basic_syntax code in
  let brk := _check_bracket_balance code in
  let quo := _check_quote_balance code in
  let par := _check_ast_validity ast_parse code in
  let r := validate_code_chunk ast_parse self code in
  issues r = syn ++ brk ++ quo ++ par
  /\ confidence r = confidence_of (nonempty syn) (nonempty brk) (nonempty quo) (nonempty par)
  /\ valid r = (length (issues r) =? 0).
Proof.
  intros He Hw. unfold validate_code_chunk.
  rewrite He, nonempty_strip, Hw. simpl negb. simpl orb. cbv iota.
  destruct (nonempty (_check_basic_syntax code)) eqn:E1;
  destruct (nonempty (_check_bracket_balance code)) eqn:E2;
  destruct (nonempty (_check_quote_balance code)) eqn:E3;
  destruct (nonempty (_check_ast_validity ast_parse code)) eqn:E4;
  cbv zeta; simpl issues; simpl confidence; simpl valid;
  repeat match goal with
         | H : nonempty _ = false |- _ => apply nonempty_false in H; rewrite H
         end;
  rewrite ?app_nil_r; simpl app; rewrite <- ?app_assoc; done.
Qed.

(** The early return. *)
Lemma validate_code_chunk_unchecked ast_parse self code :
  validation_enabled self = false \/ whitespace_only code = true ->
  validate_code_chunk ast_parse self code =
  {| valid := true; issues := []; confidence := 1.0%float;
     code_length := None; line_count := None |}.
Proof.
  intros H. unfold validate_code_chunk. rewrite nonempty_strip.
  destruct H as [-> | ->]; simpl; [done|]. by rewrite orb_true_r.
Qed.

(** C6.  For every code string [validate_code_chunk] returns [valid]
    true exactly when its issue list is empty, and a confidence within
    [0, 1]: when the checks run it is 1.0 less 0.3 for syntax-heuristic
    issues, 0.2 for bracket issues, 0.2 for quote issues and 0.3 for a
    parse failure, clamped at 0, so that it can only go down as more
    categories report; for empty (or white-space) input the result is
    valid, without issues and of confidence exactly 1.0. *)
Theorem validate_code_chunk_valid_confidence ast_parse self code :
  let r := validate_code_chunk ast_parse self code in
  (valid r = true <-> issues r = [])
  /\ fle 0.0%float (confidence r) /\ fle (confidence r) 1.0%float
  /\ (validation_enabled self = true -> whitespace_only code = false ->
      confidence r =
        confidence_of (nonempty (_check_basic_syntax code))
                      (nonempty (_check_bracket_balance code))
                      (nonempty (_check_quote_balance code))
                      (nonempty (_check_ast_validity ast_parse code)))
  /\ (forall s b q a s' b' q' a',
        implb s s' && implb b b' && implb q q' && implb a a' = true ->
        fle (confidence_of s' b' q' a') (confidence_of s b q a))
  /\ (whitespace_only code = true ->
      valid r = true /\ issues r = [] /\ confidence r = 1.0%float).
Proof.
  cbv zeta.
  destruct (validation_enabled self) eqn:He; [destruct (whitespace_only code) eqn:Hw|].
  - rewrite validate_code_chunk_unchecked by auto. simpl.
    repeat split; try done. apply confidence_of_antitone.
  - destruct (validate_code_chunk_checked ast_parse self code He Hw) as (Hi & Hc & Hv).
    cbv zeta in Hi, Hc, Hv. rewrite Hv, Hc.
    split; [|split; [|split; [|split; [|split]]]].
    + rewrite Nat.eqb_eq. split; [apply nil_length_inv | by intros ->].
    + apply confidence_of_bounds.
    + apply confidence_of_bounds.
    + done.
    + apply confidence_of_antitone.
    + done.
  - rewrite validate_code_chunk_unchecked by auto. simpl.
    repeat split; try done. apply confidence_of_antitone.
Qed.

Lemma validate_code_chunk_valid_confidence_witness :
  let r := validate_code_chunk (fun _ => SyntaxError (u "invalid syntax")) __init__ [] in
  valid r = true /\ issues r = [] /\ confidence r = 1.0%float.
Proof.
  apply (validate_code_chunk_valid_confidence
           (fun _ => SyntaxError (u "invalid syntax")) __init__ []).
  reflexivity.
Defined.

End ValidateFacts.

(** ** Bracket balance (C5) *)

Section BracketFacts.
Import CodeQualityValidator.

Lemma is_open_cases o :
  is_open o = true -> o = ch "(" \/ o = ch "[" \/ o = ch "{".
Proof.
  unfold is_open, brackets. cbn [existsb fst].
  destruct (N.eqb_spec o (ch "(")); [auto|].
  destruct (N.eqb_spec o (ch "[")); [auto|].
  destruct (N.eqb_spec o (ch "{")); [auto|]. done.
Qed.

Lemma is_close_cases c :
  is_close c = true -> c = ch ")" \/ c = ch "]" \/ c = ch "}".
Proof.
  unfold is_close, brackets. cbn [existsb snd].
  destruct (N.eqb_spec c (ch ")")); [auto|].
  destruct (N.eqb_spec c (ch "]")); [auto|].
  destruct (N.eqb_spec c (ch "}")); [auto|]. done.
Qed.

Lemma closer_closes o :
  is_open o = true ->
  is_open (closer o) = false /\ is_close (closer o) = true.
Proof. intros H. destruct (is_open_cases o H) as [->|[->| ->]]; done. Qed.

Lemma open_not_close o : is_open o = true -> is_close o = false.
Proof. intros H. destruct (is_open_cases o H) as [->|[->| ->]]; done. Qed.

Lemma not_open_not_lparen c : is_open c = false -> (c =? ch "(")%N = false.
Proof. destruct (N.eqb_spec c (ch "(")) as [->|]; done. Qed.

Lemma not_close_not_rparen c : is_close c = false -> (c =? ch ")")%N = false.
Proof. destruct (N.eqb_spec c (ch ")")) as [->|]; done. Qed.

(** The loop only ever adds issues. *)
Lemma bracket_loop_grows code stack iss stack' iss' :
  bracket_loop code stack iss = (stack', iss') -> length iss <= length iss'.
Proof.
  revert stack iss. induction code as [|c code IH]; intros stack iss; simpl.
  - intros [= <- <-]. done.
  - destruct (is_open c); [apply IH|].
    destruct (is_close c); [|apply IH].
    destruct stack as [|o stack].
    + intros [= <- <-]. rewrite length_app. simpl. lia.
    + destruct (closer o =? c)%N; [apply IH|].
      intros H. apply IH in H. rewrite length_app in H. simpl in H. lia.
Qed.

Lemma bracket_loop_clean_from_nonempty code stack x stack' :
  bracket_loop code stack [x] <> (stack', []).
Proof. intros H. apply bracket_loop_grows in H. simpl in H. lia. Qed.

(** Properly nested text leaves the loop where it was. *)
Lemma bracket_loop_skip s :
  well_bracketed s ->
  forall rest stack iss,
    bracket_loop (s ++ rest) stack iss = bracket_loop rest stack iss.
Proof.
  induction 1 as [|c s Ho Hc _ IH|o s t Ho _ IHs _ IHt]; intros rest stack iss.
  - done.
  - simpl. rewrite Ho, Hc. apply IH.
  - simpl. rewrite Ho. rewrite <- app_assoc. rewrite IHs. simpl.
    destruct (closer_closes o Ho) as [-> ->]. rewrite N.eqb_refl. apply IHt.
Qed.

Lemma closes_other stack c s :
  is_open c = false -> is_close c = false -> closes stack s -> closes stack (c :: s).
Proof.
  intros Ho Hc. destruct stack as [|o stack]; simpl.
  - by apply wb_other.
  - intros (s1 & s2 & -> & H1 & H2). exists (c :: s1), s2.
    split; [done|]. split; [by apply wb_other | done].
Qed.

Lemma closes_wrap stack o s1 s2 :
  is_open o = true -> well_bracketed s1 -> closes stack s2 ->
  closes stack (o :: s1 ++ closer o :: s2).
Proof.
  intros Ho H1. destruct stack as [|o' stack]; simpl.
  - by apply wb_pair.
  - intros (t1 & t2 & -> & Ht1 & Ht2).
    exists (o :: s1 ++ closer o :: t1), t2. split; [|split; [|done]].
    + simpl. by rewrite <- app_assoc.
    + by apply wb_pair.
Qed.

(** A run without issues that empties the stack closes it properly. *)
Lemma bracket_loop_clean_closes code :
  forall stack, bracket_loop code stack [] = ([], []) -> closes stack code.
Proof.
  induction code as [|c code IH]; intros stack; simpl.
  - intros [= ->]. simpl. constructor.
  - destruct (is_open c) eqn:Ho.
    + intros H. apply IH in H. simpl in H.
      destruct H as (s1 & s2 & -> & H1 & H2). by apply closes_wrap.
    + destruct (is_close c) eqn:Hc.
      * destruct stack as [|o stack]; [done|].
        destruct (N.eqb_spec (closer o) c) as [<-|Hne].
        -- intros H. apply IH in H. simpl. exists [], code.
           split; [done|]. split; [constructor | done].
        -- intros H. by apply bracket_loop_clean_from_nonempty in H.
      * intros H. apply IH in H. by apply closes_other.
Qed.

Lemma bracket_balance_nil_iff code :
  _check_bracket_balance code = [] <-> well_bracketed code.
Proof.
  unfold _check_bracket_balance. split.
  - destruct (bracket_loop code [] []) as [stack iss] eqn:E.
    destruct stack as [|o stack].
    + intros ->. by apply (bracket_loop_clean_closes _ []).
    + intros H. by apply app_eq_nil in H as [_ ?].
  - intros H. rewrite <- (app_nil_r code).
    by rewrite (bracket_loop_skip _ H).
Qed.

(** Openers that are never closed stay on the stack. *)
Lemma bracket_loop_unclosed ops s :
  unclosed ops s ->
  forall stack iss, bracket_loop s stack iss = (rev ops ++ stack, iss).
Proof.
  induction 1 as [s Hs|o ops s t Hs Ho _ IH]; intros stack iss.
  - rewrite <- (app_nil_r s), (bracket_loop_skip _ Hs). done.
  - rewrite (bracket_loop_skip _ Hs). simpl. rewrite Ho, IH.
    by rewrite <- app_assoc.
Qed.

Lemma bracket_balance_unclosed code ops :
  ops <> [] -> unclosed ops code ->
  _check_bracket_balance code = [issue_unclosed (length ops)].
Proof.
  intros Hne Hu. unfold _check_bracket_balance.
  rewrite (bracket_loop_unclosed _ _ Hu), app_nil_r.
  destruct (rev ops) as [|o l] eqn:E.
  - apply (f_equal (@rev N)) in E. rewrite rev_involutive in E. done.
  - assert (length (o :: l) = length ops) as Hl by (by rewrite <- E, length_rev).
    simpl in *. by rewrite Hl.
Qed.





End BracketFacts.

(** ** The repair routine (C7) *)

Section RepairFacts.
Import CodeQualityValidator.

Lemma fix_step_appends fixed issue :
  exists suffix, fix_step fixed issue = fixed ++ suffix
                 /\ forallb repair_char suffix = true.
Proof.
  unfold fix_step.
  repeat match goal with
         | |- context [if ?b then _ else _] => destruct b
         end;
    first [ by exists []; rewrite app_nil_r
          | by eexists; split; [reflexivity|]
          | eexists; split; [reflexivity|]; by apply forallb_repeat ].
Qed.

Lemma suggest_fix_appends code issues :
  exists suffix, suggest_fix code issues = code ++ suffix
                 /\ forallb repair_char suffix = true.
Proof.
  unfold suggest_fix. revert code.
  induction issues as [|issue issues IH]; intros code; simpl.
  - exists []. by rewrite app_nil_r.
  - destruct (fix_step_appends code issue) as (s1 & -> & H1).
    destruct (IH (code ++ s1)) as (s2 & -> & H2).
    exists (s1 ++ s2). rewrite app_assoc. split; [done|].
    by rewrite forallb_app, H1, H2.
Qed.

(** A run without issues goes on through what follows. *)
Lemma bracket_loop_app_clean a :
  forall stack stack' b,
    bracket_loop a stack [] = (stack', []) ->
    bracket_loop (a ++ b) stack [] = bracket_loop b stack' [].
Proof.
  induction a as [|c a IH]; intros stack stack' b; simpl.
  - by intros [= ->].
  - destruct (is_open c); [apply IH|].
    destruct (is_close c); [|apply IH].
    destruct stack as [|o stack]; [done|].
    destruct (closer o =? c)%N; [apply IH|].
    intros H. by apply bracket_loop_clean_from_nonempty in H.
Qed.

(** In a run without issues the parentheses opened are those closed and
    those left on the stack. *)
Lemma bracket_loop_paren_count code :
  forall stack stack',
    forallb is_open stack = true ->
    bracket_loop code stack [] = (stack', []) ->
    count_char (ch "(") code + count_char (ch "(") stack
    = count_char (ch ")") code + count_char (ch "(") stack'.
Proof.
  induction code as [|c code IH]; intros stack stack' Hs; simpl.
  - by intros [= ->].
  - destruct (is_open c) eqn:Ho.
    + intros H. apply IH in H; [|by simpl; rewrite Ho].
      rewrite (not_close_not_rparen c (open_not_close c Ho)).
      simpl in H. lia.
    + rewrite (not_open_not_lparen c Ho).
      destruct (is_close c) eqn:Hc.
      * destruct stack as [|o stack]; [done|].
        simpl in Hs. apply andb_true_iff in Hs as [Hoo Hs].
        destruct (N.eqb_spec (closer o) c) as [<-|Hne].
        -- intros H. apply IH in H; [|done]. simpl.
           destruct (is_open_cases o Hoo) as [->|[->| ->]]; simpl in *; lia.
        -- intros H. by apply bracket_loop_clean_from_nonempty in H.
      * rewrite (not_close_not_rparen c Hc). intros H. apply IH in H; [|done]. lia.
Qed.

Lemma isspace_not_bracket c :
  isspace c = true -> is_open c = false /\ is_close c = false.
Proof.
  intros H. split.
  - destruct (is_open c) eqn:E; [|done].
    destruct (is_open_cases c E) as [->|[->| ->]]; done.
  - destruct (is_close c) eqn:E; [|done].
    destruct (is_close_cases c E) as [->|[->| ->]]; done.
Qed.

Lemma bracket_loop_spaces l stack iss :
  forallb isspace l = true -> bracket_loop l stack iss = (stack, iss).
Proof.
  induction l as [|c l IH]; simpl; [done|].
  intros [Hc Hl]%andb_true_iff.
  destruct (isspace_not_bracket c Hc) as [-> ->]. by apply IH.
Qed.

Lemma unclosed_not_blank code ops :
  ops <> [] -> unclosed ops code -> whitespace_only code = false.
Proof.
  intros Hne Hu. destruct (whitespace_only code) eqn:E; [|done].
  pose proof (bracket_loop_unclosed _ _ Hu [] []) as H.
  rewrite bracket_loop_spaces in H by done.
  injection H as H. rewrite app_nil_r in H.
  apply (f_equal (@rev N)) in H. rewrite rev_involutive in H. done.
Qed.

Lemma unclosed_parens_count code n :
  unclosed (repeat (ch "(") n) code ->
  count_char (ch "(") code = count_char (ch ")") code + n.
Proof.
  intros Hu. pose proof (bracket_loop_unclosed _ _ Hu [] []) as H.
  apply bracket_loop_paren_count in H; [|done].
  rewrite app_nil_r, rev_repeat, count_char_repeat_same in H. simpl in H. lia.
Qed.

Lemma bracket_loop_close_all n :
  forall rest stack,
    bracket_loop (repeat (ch ")") n ++ rest) (repeat (ch "(") n ++ stack) []
    = bracket_loop rest stack [].
Proof. induction n as [|n IH]; intros rest stack; simpl; [done|]. apply IH. Qed.

(** The issues of the syntax heuristics trigger no repair. *)
Lemma fix_step_syntax_issue code issue fixed :
  In issue (_check_basic_syntax code) -> fix_step fixed issue = fixed.
Proof.
  unfold _check_basic_syntax. rewrite in_flat_map.
  intros (pi & Hpi & Hin).
  assert (issue = snd pi) as ->.
  { destruct (Re.search (fst pi) code); simpl in Hin; [|done].
    by destruct Hin. }
  unfold suspicious_patterns in Hpi. simpl in Hpi.
  destruct Hpi as [<-|[<-|[<-|[<-|[]]]]]; reflexivity.
Qed.

(** Nothing is repaired once parentheses and quotes are even. *)
Lemma fix_step_stable fixed issue :
  count_char (ch "(") fixed <= count_char (ch ")") fixed ->
  (count_char SQ fixed mod 2 =? 0) = true ->
  (count_char DQ fixed mod 2 =? 0) = true ->
  fix_step fixed issue = fixed.
Proof.
  intros Hp Hs Hd. unfold fix_step. rewrite Hs, Hd. simpl negb.
  destruct (Nat.ltb_spec (count_char (ch ")") fixed) (count_char (ch "(") fixed)); [lia|].
  by repeat match goal with |- context [if ?b then _ else _] => destruct b end.
Qed.

Lemma fix_step_unclosed fixed m n :
  count_char (ch "(") fixed = count_char (ch ")") fixed + S n ->
  fix_step fixed (issue_unclosed m) = fixed ++ repeat (ch ")") (S n).
Proof.
  intros H. unfold fix_step, issue_unclosed. rewrite contains_prefix, H.
  destruct (Nat.ltb_spec (count_char (ch ")") fixed)
              (count_char (ch ")") fixed + S n)); [|lia].
  do 2 f_equal. lia.
Qed.

Lemma fix_step_odd_single fixed :
  (count_char SQ fixed mod 2 =? 0) = false ->
  fix_step fixed issue_odd_single = fixed ++ [SQ].
Proof.
  intros H. unfold fix_step.
  change (contains unclosed_marker issue_odd_single) with false.
  change (contains issue_odd_single issue_odd_single) with true.
  cbv iota. by rewrite H.
Qed.

Lemma fix_step_odd_double fixed :
  (count_char DQ fixed mod 2 =? 0) = false ->
  fix_step fixed issue_odd_double = fixed ++ [DQ].
Proof.
  intros H. unfold fix_step.
  change (contains unclosed_marker issue_odd_double) with false.
  change (contains issue_odd_single issue_odd_double) with false.
  change (contains issue_odd_double issue_odd_double) with true.
  cbv iota. by rewrite H.
Qed.

Lemma count_quote_suffix_lparen code : count_char (ch "(") (quote_suffix code) = 0.
Proof.
  unfold quote_suffix.
  by destruct (negb (count_char SQ code mod 2 =? 0)),
              (negb (count_char DQ code mod 2 =? 0)).
Qed.

Lemma count_quote_suffix_rparen code : count_char (ch ")") (quote_suffix code) = 0.
Proof.
  unfold quote_suffix.
  by destruct (negb (count_char SQ code mod 2 =? 0)),
              (negb (count_char DQ code mod 2 =? 0)).
Qed.

Lemma count_quote_suffix_single code :
  count_char SQ (quote_suffix code)
  = if count_char SQ code mod 2 =? 0 then 0 else 1.
Proof.
  unfold quote_suffix.
  by destruct (count_char SQ code mod 2 =? 0), (count_char DQ code mod 2 =? 0).
Qed.

Lemma count_quote_suffix_double code :
  count_char DQ (quote_suffix code)
  = if count_char DQ code mod 2 =? 0 then 0 else 1.
Proof.
  unfold quote_suffix.
  by destruct (count_char SQ code mod 2 =? 0), (count_char DQ code mod 2 =? 0).
Qed.

Lemma bracket_loop_quote_suffix code stack :
  bracket_loop (quote_suffix code) stack [] = (stack, []).
Proof.
  unfold quote_suffix.
  by destruct (negb (count_char SQ code mod 2 =? 0)),
              (negb (count_char DQ code mod 2 =? 0)).
Qed.

(** What the repair makes of code whose bracket scan ends with [S n]
    open parentheses. *)
Lemma suggest_fix_unclosed_parens ast_parse self code n :
  validation_enabled self = true ->
  unclosed (repeat (ch "(") (S n)) code ->
  suggest_fix code (issues (validate_code_chunk ast_parse self code))
  = code ++ repeat (ch ")") (S n) ++ quote_suffix code.
Proof.
  intros He Hu.
  pose proof (unclosed_not_blank code _ (repeat_S_not_nil _ n) Hu) as Hw.
  pose proof (unclosed_parens_count code _ Hu) as Hcount.
  destruct (validate_code_chunk_checked ast_parse self code He Hw) as (-> & _).
  rewrite (bracket_balance_unclosed code _ (repeat_S_not_nil _ n) Hu).
  unfold suggest_fix. rewrite !fold_left_app.
  rewrite (fold_left_id fix_step (_check_basic_syntax code))
    by (intros x Hx a; by apply (fix_step_syntax_issue code)).
  simpl fold_left at 3. rewrite (fix_step_unclosed code _ n Hcount).
  set (f1 := code ++ repeat (ch ")") (S n)).
  assert (count_char SQ f1 = count_char SQ code) as HS.
  { unfold f1. rewrite count_char_app, count_char_repeat_other by done. lia. }
  assert (count_char DQ f1 = count_char DQ code) as HD.
  { unfold f1. rewrite count_char_app, count_char_repeat_other by done. lia. }
  assert (count_char (ch "(") f1 = count_char (ch ")") f1) as HP.
  { unfold f1. rewrite !count_char_app, count_char_repeat_other by done.
    rewrite count_char_repeat_same. lia. }
  assert (fold_left fix_step (_check_quote_balance code) f1
          = f1 ++ quote_suffix code) as ->.
  { unfold _check_quote_balance, quote_suffix. rewrite fold_left_app.
    destruct (count_char SQ code mod 2 =? 0) eqn:E1;
      destruct (count_char DQ code mod 2 =? 0) eqn:E2; simpl.
    - by rewrite app_nil_r.
    - rewrite fix_step_odd_double; [done | by rewrite HD].
    - rewrite fix_step_odd_single; [done | by rewrite HS].
    - rewrite fix_step_odd_single by (by rewrite HS).
      rewrite fix_step_odd_double; [by rewrite <- app_assoc|].
      by rewrite count_char_app, HD, Nat.add_0_r. }
  set (f3 := f1 ++ quote_suffix code).
  assert (fold_left fix_step (_check_ast_validity ast_parse code) f3 = f3) as ->.
  { apply fold_left_fixed. intros x _. apply fix_step_stable.
    - unfold f3. rewrite !count_char_app, count_quote_suffix_lparen,
        count_quote_suffix_rparen. lia.
    - unfold f3. rewrite count_char_app, HS, count_quote_suffix_single.
      destruct (count_char SQ code mod 2 =? 0) eqn:E1;
        [by rewrite Nat.add_0_r | by apply odd_plus_one].
    - unfold f3. rewrite count_char_app, HD, count_quote_suffix_double.
      destruct (count_char DQ code mod 2 =? 0) eqn:E1;
        [by rewrite Nat.add_0_r | by apply odd_plus_one]. }
  unfold f3, f1. by rewrite <- app_assoc.
Qed.

Lemma bracket_balance_after_closing code n k :
  unclosed (repeat (ch "(") (n + k)) code ->
  forall tail stack',
    bracket_loop tail (repeat (ch "(") n) [] = (stack', []) ->
    _check_bracket_balance (code ++ repeat (ch ")") k ++ tail)
    = match stack' with
      | [] => []
      | _ :: _ => [issue_unclosed (length stack')]
      end.
Proof.
  intros Hu tail stack' Ht. unfold _check_bracket_balance.
  pose proof (bracket_loop_unclosed _ _ Hu [] []) as H.
  rewrite app_nil_r, rev_repeat in H.
  rewrite (bracket_loop_app_clean _ _ _ _ H).
  replace (n + k) with (k + n) by lia. rewrite repeat_app.
  by rewrite bracket_loop_close_all, Ht.
Qed.

(** C7, amended.  When the bracket scan of the code ends with [S n]
    opening parentheses left unclosed (and no other bracket issue), the
    repair of the code with its reported issues appends exactly [S n]
    closing parentheses, followed by one quote character for each kind of
    quote that occurs an odd number of times; the bracket check of the
    result reports nothing, and fewer closing parentheses would not do.
    Whatever the issues, the repair only appends closing parentheses and
    quote characters to the code.  Repairing the code print(1 with its
    reported issues yields print(1). *)
Theorem suggest_fix_closes_parentheses ast_parse self code n :
  validation_enabled self = true ->
  unclosed (repeat (ch "(") (S n)) code ->
  let fixed := suggest_fix code (issues (validate_code_chunk ast_parse self code)) in
  fixed = code ++ repeat (ch ")") (S n) ++ quote_suffix code
  /\ _check_bracket_balance fixed = []
  /\ (forall k, k < S n -> _check_bracket_balance (code ++ repeat (ch ")") k) <> [])
  /\ (forall code' issues', exists suffix,
        suggest_fix code' issues' = code' ++ suffix
        /\ forallb repair_char suffix = true)
  /\ (forall ast_parse',
        suggest_fix (u "print(1")
          (issues (validate_code_chunk ast_parse' __init__ (u "print(1")))
        = u "print(1)").
Proof.
  intros He Hu. cbv zeta.
  rewrite (suggest_fix_unclosed_parens ast_parse self code n He Hu).
  split; [done|]. split; [|split; [|split]].
  - rewrite (bracket_balance_after_closing code 0 (S n) Hu (quote_suffix code) []); [done|].
    apply bracket_loop_quote_suffix.
  - intros k Hk.
    rewrite <- (app_nil_r (repeat (ch ")") k)).
    rewrite (bracket_balance_after_closing code (S n - k) k
               ltac:(by replace (S n - k + k) with (S n) by lia) []
               (repeat (ch "(") (S n - k))); [|done].
    destruct (S n - k) as [|m] eqn:E; [lia|done].
  - apply suggest_fix_appends.
  - intros ast_parse'.
    rewrite (suggest_fix_unclosed_parens ast_parse' __init__ (u "print(1") 0); [done|done|].
    apply (unclosed_cons _ _ (u "print")); [repeat constructor | done |].
    apply unclosed_nil. repeat constructor.
Qed.

Lemma suggest_fix_closes_parentheses_witness :
  suggest_fix (u "print(1")
    (issues (validate_code_chunk (fun _ => SyntaxError (u "'(' was never closed"))
                                 __init__ (u "print(1")))
  = u "print(1)".
Proof.
  apply (suggest_fix_closes_parentheses
           (fun _ => SyntaxError (u "'(' was never closed")) __init__ (u "print(1") 0).
  - reflexivity.
  - apply (unclosed_cons _ _ (u "print")); [repeat constructor | done |].
    apply unclosed_nil. repeat constructor.
Defined.

(** C7 as stated fails: a repair lowers the count of another category.
    The code made of an opening parenthesis and a single quote has one
    quote issue, which the validation reports; its repair has none, and
    the validation of the repair reports none. *)
Lemma suggest_fix_lowers_quote_issues :
  let ast_parse := fun _ : list N => SyntaxError (u "unterminated string literal") in
  let code := [ch "("; SQ] in
  let fixed := suggest_fix code (issues (validate_code_chunk ast_parse __init__ code)) in
  fixed = [ch "("; SQ; ch ")"; SQ]
  /\ length (_check_quote_balance code) = 1
  /\ length (_check_quote_balance fixed) = 0
  /\ existsb (str_eqb issue_odd_single)
       (issues (validate_code_chunk ast_parse __init__ code)) = true
  /\ existsb (str_eqb issue_odd_single)
       (issues (validate_code_chunk ast_parse __init__ fixed)) = false.
Proof. cbv zeta. repeat split; vm_compute; reflexivity. Qed.

(** A repair can also add an issue of another category: the code made
    of a closing parenthesis, a single quote and an opening parenthesis
    has no issue of the syntax heuristics; its repair, which appends a
    quote, has one. *)
Lemma suggest_fix_raises_syntax_issues :
  let ast_parse := fun _ : list N => SyntaxError (u "unmatched ')'") in
  let code := [ch ")"; SQ; ch "("] in
  let fixed := suggest_fix code (issues (validate_code_chunk ast_parse __init__ code)) in
  fixed = [ch ")"; SQ; ch "("; SQ]
  /\ length (_check_basic_syntax code) = 0
  /\ length (_check_basic_syntax fixed) = 1.
Proof. cbv zeta. repeat split; vm_compute; reflexivity. Qed.

End RepairFacts.

(** ** Parsing a response (C2, C10) *)

Section ParseFacts.
Import ResponseParser VLLMIntegrationService.
Variable unicode_alnum : N -> bool.

(** C2, at the example of the claim.  For the explanation line followed
    by a python-tagged fence around print(1), both fence patterns match
    the fenced region: the tagged one captures print(1), the generic one
    captures the tag and print(1).  The two blocks differ, so both are
    kept, and the code field is print(1), a blank line, python, print(1)
    instead of print(1) alone; the explanation is as the claim says. *)
Theorem parse_response_tagged_fence :
  _extract_code_blocks unicode_alnum tagged_fence_example
    = [u "print(1)"; u "python" ++ nl ++ u "print(1)"]
  /\ parse_response unicode_alnum tagged_fence_example !! "code"
     = Some (PStr (u "print(1)" ++ nl ++ nl ++ u "python" ++ nl ++ u "print(1)"))
  /\ parse_response unicode_alnum tagged_fence_example !! "explanation"
     = Some (PStr (u "Explanation: does X")).
Proof. split; [|split]; vm_compute; reflexivity. Qed.

(** Without the language tag only the generic pattern matches, and the
    code field is the trimmed content of the fence. *)
Lemma parse_response_plain_fence :
  parse_response unicode_alnum plain_fence_example !! "code" = Some (PStr (u "print(1)"))
  /\ parse_response unicode_alnum plain_fence_example !! "explanation"
     = Some (PStr (u "Explanation: does X")).
Proof. split; vm_compute; reflexivity. Qed.

Lemma whitespace_only_nonempty raw : whitespace_only raw = false -> nonempty raw = true.
Proof. by destruct raw. Qed.

Lemma parse_response_blank raw :
  whitespace_only raw = true -> parse_response unicode_alnum raw = blank_parse.
Proof.
  intros H. unfold parse_response. rewrite nonempty_strip, H. simpl.
  by rewrite orb_true_r.
Qed.

Lemma parse_response_metadata raw :
  whitespace_only raw = false ->
  exists meta conf,
    parse_response unicode_alnum raw !! "metadata" = Some (PDict meta)
    /\ meta !! "parsing_confidence" = Some (PFloat conf)
    /\ is_Some (parse_response unicode_alnum raw !! "code")
    /\ is_Some (parse_response unicode_alnum raw !! "explanation").
Proof.
  intros H. unfold parse_response.
  rewrite nonempty_strip, H, (whitespace_only_nonempty raw H). simpl.
  eexists _, _. split; [|split; [|split]].
  - rewrite !lookup_insert_ne by done. apply lookup_insert_eq.
  - rewrite !lookup_insert_ne by done. apply lookup_insert_eq.
  - rewrite lookup_insert_ne by done. rewrite lookup_insert_eq. by eexists.
  - rewrite lookup_insert_eq. by eexists.
Qed.

Lemma build_response_blank update_metadata user_preferences content :
  whitespace_only content = true ->
  build_response unicode_alnum update_metadata user_preferences content
  = Raise (key_error "metadata").
Proof.
  intros H. unfold build_response. by rewrite (parse_response_blank content H).
Qed.

Lemma build_response_not_blank update_metadata user_preferences content :
  whitespace_only content = false -> has_preferences user_preferences = false ->
  exists r, build_response unicode_alnum update_metadata user_preferences content = Ok r
            /\ success r = true.
Proof.
  intros H Hp. unfold build_response.
  destruct (parse_response_metadata content H)
    as (meta & conf & Hm & Hc & [code Hcode] & [expl Hexpl]).
  unfold subscript_value, subscript. rewrite Hcode, Hexpl, Hm, Hc, Hp. by eexists.
Qed.

(** The loop over the events returns early only with a failure. *)
Lemma accumulate_early events acc r :
  accumulate events acc = Ok (inr r) -> success r = false.
Proof.
  revert acc. induction events as [|ev events IH]; intros acc; simpl; [done|].
  destruct ev as [content| |msg].
  - destruct content; try done. apply IH.
  - done.
  - by intros [= <-].
Qed.

(** C10.  For every empty or white-space-only input [parse_response]
    returns the dict of the two keys explanation and code, both empty,
    without a metadata key; for every other input the result has a
    metadata entry (with its parsing_confidence).  Hence when the text
    accumulated from the stream is blank, [generate_code_sync] returns
    the failure response built by its exception handler from the
    [KeyError] of the missing key, and not a success; when the
    accumulated text is not blank the subscripts succeed (and without
    preferences the success response is returned). *)
Theorem parse_response_blank_has_no_metadata raw :
  (whitespace_only raw = true ->
     parse_response unicode_alnum raw = blank_parse
     /\ parse_response unicode_alnum raw !! "metadata" = None
     /\ dom (parse_response unicode_alnum raw) = {["explanation"; "code"]})
  /\ (whitespace_only raw = false ->
        exists meta conf,
          parse_response unicode_alnum raw !! "metadata" = Some (PDict meta)
          /\ meta !! "parsing_confidence" = Some (PFloat conf))
  /\ (forall update_metadata json_loads health post self w user_preferences content,
        accumulate (fst (generate_code_streaming json_loads health post self w)) []
          = Ok (inl content) ->
        (whitespace_only content = true ->
           let r := generate_code_sync unicode_alnum update_metadata json_loads health
                      post self w user_preferences in
           r = failure (u "코드 생성 실패: 'metadata'") /\ success r = false)
        /\ (whitespace_only content = false ->
              has_preferences user_preferences = false ->
              success (generate_code_sync unicode_alnum update_metadata json_loads
                         health post self w user_preferences)
              = true)).
Proof.
  split; [|split].
  - intros H. rewrite (parse_response_blank raw H). split; [done|].
    split; [done|]. unfold blank_parse. rewrite !dom_insert_L. set_solver.
  - intros H. destruct (parse_response_metadata raw H) as (meta & conf & ? & ? & _).
    by exists meta, conf.
  - intros update_metadata json_loads health post self w user_preferences content Hacc.
    unfold generate_code_sync. rewrite Hacc. split.
    + intros H. by rewrite (build_response_blank _ _ _ H).
    + intros H Hp.
      destruct (build_response_not_blank update_metadata user_preferences content H Hp)
        as (r & -> & Hr).
      done.
Qed.

End ParseFacts.

Lemma parse_response_blank_has_no_metadata_witness :
  ResponseParser.parse_response (fun _ => false) (u "   ") = blank_parse
  /\ ResponseParser.parse_response (fun _ => false) (u "   ") !! "metadata" = None
  /\ dom (ResponseParser.parse_response (fun _ => false) (u "   "))
     = {["explanation"; "code"]}.
Proof.
  apply (parse_response_blank_has_no_metadata (fun _ => false) (u "   ")).
  reflexivity.
Defined.

(** ** Stream lines and event sequences (C3, C4) *)

Section StreamFacts.
Import VLLMIntegrationService.
Variable json_loads : list N -> loads_result.







Lemma process_never_error line_text msg :
  _process_stream_line json_loads line_text <> Ok (Some (error msg)).
Proof.
  unfold _process_stream_line.
  repeat match goal with
         | |- context [if ?b then _ else _] => destruct b
         | |- context [match ?x with _ => _ end] => destruct x
         end; done.
Qed.

(** *** The line loop *)

Lemma line_guard line :
  nonempty (strip line) && negb (str_eqb (strip line) (u "data: "))
  = nonempty (strip line).
Proof.
  destruct (str_eqb_spec (strip line) (u "data: ")) as [H|_].
  - by apply strip_not_bare_prefix in H.
  - by rewrite andb_true_r.
Qed.

(** One round of the [for line in lines] loop. *)
Lemma process_lines_cons line lines :
  process_lines json_loads (line :: lines) =
  match _process_stream_line json_loads (strip line) with
  | Raise _ => ([], false)
  | Ok None => process_lines json_loads lines
  | Ok (Some done) => ([done], true)
  | Ok (Some result) =>
      (result :: (process_lines json_loads lines).1, (process_lines json_loads lines).2)
  end.
Proof.
  simpl. rewrite line_guard. destruct (strip line) as [|c l] eqn:E; [done|].
  simpl nonempty. cbv iota.
  destruct (_process_stream_line json_loads (c :: l)) as [[[content| |msg]|]|e];
    try done; by destruct (process_lines json_loads lines).
Qed.

Lemma line_token_outcome line :
  line_token json_loads line =
  match _process_stream_line json_loads (strip line) with
  | Ok (Some (token content)) => [content]
  | _ => []
  end.
Proof.
  unfold line_token. rewrite line_guard. by destruct (strip line).
Qed.

(** Passing lines give their tokens and leave the loop running. *)
Lemma process_lines_passing lines1 rest :
  Forall (passing json_loads) lines1 ->
  process_lines json_loads (lines1 ++ rest)
  = (map token (flat_map (line_token json_loads) lines1)
       ++ (process_lines json_loads rest).1,
     (process_lines json_loads rest).2).
Proof.
  induction 1 as [|line lines1 Hp _ IH];
    [simpl; by destruct (process_lines json_loads rest)|].
  rewrite <- app_comm_cons, process_lines_cons. cbn [flat_map].
  rewrite line_token_outcome. unfold passing in Hp.
  destruct (_process_stream_line json_loads (strip line)) as [[[content| |msg]|]|e];
    try done; by rewrite IH.
Qed.

(** The generator returns in the lines of a chunk exactly when the loop
    reaches, through passing lines, a line that gives the done event. *)
Lemma process_lines_returned lines :
  (process_lines json_loads lines).2 = true <->
  exists lines1 line lines2,
    lines = lines1 ++ line :: lines2 /\ Forall (passing json_loads) lines1
    /\ _process_stream_line json_loads (strip line) = Ok (Some done).
Proof.
  split.
  - induction lines as [|line lines IH]; [done|].
    rewrite process_lines_cons.
    destruct (_process_stream_line json_loads (strip line))
      as [[[content| |msg]|]|e] eqn:Hp; simpl; try done.
    + intros (l1 & l & l2 & -> & Hf & Hd)%IH. exists (line :: l1), l, l2.
      split; [done|]. split; [|done]. apply Forall_cons. split; [|done].
      unfold passing. by rewrite Hp.
    + intros _. by exists [], line, lines.
    + by apply process_never_error in Hp.
    + intros (l1 & l & l2 & -> & Hf & Hd)%IH. exists (line :: l1), l, l2.
      split; [done|]. split; [|done]. apply Forall_cons. split; [|done].
      unfold passing. by rewrite Hp.
  - intros (l1 & l & l2 & -> & Hf & Hd).
    rewrite (process_lines_passing _ _ Hf), process_lines_cons, Hd. done.
Qed.

Lemma process_lines_undisturbed lines :
  Forall (passing json_loads) lines ->
  process_lines json_loads lines
  = (map token (flat_map (line_token json_loads) lines), false).
Proof.
  intros H. rewrite <- (app_nil_r lines) at 1.
  rewrite (process_lines_passing _ _ H). simpl. by rewrite app_nil_r.
Qed.

(** The events of the lines of a chunk are tokens, followed by a done
    event exactly when the generator returned; the tokens are among those
    of the lines, in their order. *)
Lemma process_lines_shape lines :
  exists toks,
    (process_lines json_loads lines).1
    = map token toks ++ (if (process_lines json_loads lines).2 then [done] else [])
    /\ sublist toks (flat_map (line_token json_loads) lines).
Proof.
  induction lines as [|line lines (toks & IH & Hsub)]; [by exists []|].
  rewrite process_lines_cons. cbn [flat_map]. rewrite line_token_outcome.
  destruct (_process_stream_line json_loads (strip line))
    as [[[content| |msg]|]|e] eqn:Hp; simpl.
  - exists (content :: toks). rewrite IH. split; [done|]. by apply sublist_skip.
  - exists []. split; [done|]. apply sublist_nil_l.
  - by apply process_never_error in Hp.
  - by exists toks.
  - exists []. split; [done|]. apply sublist_nil_l.
Qed.

(** *** The chunk loop *)

(** A chunk that decodes: its lines, then the chunks that follow. *)
Lemma read_chunks_decoded chunk chunks finish content :
  decode_utf8 chunk = Some content ->
  read_chunks json_loads (chunk :: chunks) finish
  = remaining_events json_loads (split_lines content) chunks finish.
Proof.
  intros Hd. unfold remaining_events. simpl. destruct chunk as [|b chunk].
  - injection Hd as <-. done.
  - by rewrite Hd.
Qed.

(** A chunk that does not decode contributes nothing. *)
Lemma read_chunks_undecodable chunk chunks finish :
  decode_utf8 chunk = None ->
  read_chunks json_loads (chunk :: chunks) finish = read_chunks json_loads chunks finish.
Proof. intros H. simpl. rewrite H. by destruct chunk. Qed.

Lemma ends_stream_returned chunk :
  ends_stream json_loads chunk <->
  exists content, decode_utf8 chunk = Some content
                  /\ (process_lines json_loads (split_lines content)).2 = true.
Proof.
  unfold ends_stream. split.
  - intros (content & l1 & l & l2 & Hd & Hs & Hf & Hdone). exists content.
    split; [done|]. apply process_lines_returned. by exists l1, l, l2.
  - intros (content & Hd & (l1 & l & l2 & Hs & Hf & Hdone)%process_lines_returned).
    by exists content, l1, l, l2.
Qed.

Lemma done_reached_decidable chunks :
  done_reached json_loads chunks \/ ~ done_reached json_loads chunks.
Proof.
  unfold done_reached. induction chunks as [|chunk chunks IH].
  - right. by intros H%Exists_nil.
  - destruct IH as [IH|IH]; [left; by apply Exists_cons_tl|].
    destruct (decode_utf8 chunk) as [content|] eqn:Hd.
    + destruct (process_lines json_loads (split_lines content)).2 eqn:Hr.
      * left. apply Exists_cons_hd, ends_stream_returned. by exists content.
      * right. intros [(c & Hc & Hr')%ends_stream_returned|H]%Exists_cons; [|done].
        congruence.
    + right. intros [(c & Hc & _)%ends_stream_returned|H]%Exists_cons; [|done].
      congruence.
Qed.

Lemma map_token_inj a b : map token a = map token b -> a = b.
Proof.
  revert b. induction a as [|x a IH]; intros [|y b]; simpl; try done.
  intros [= -> H]. f_equal. by apply IH.
Qed.

(** The events read from the body: tokens in the order of their arrival,
    then one terminal event, which is done when a done event was reached
    and otherwise the event of the ending. *)
Lemma read_chunks_shape chunks finish :
  exists toks last,
    read_chunks json_loads chunks finish = map token toks ++ [last]
    /\ is_terminal last = true
    /\ sublist toks (arriving_tokens json_loads chunks)
    /\ (done_reached json_loads chunks -> last = done)
    /\ (~ done_reached json_loads chunks -> last = end_event finish)
    /\ (undisturbed json_loads chunks ->
        toks = arriving_tokens json_loads chunks /\ last = end_event finish).
Proof.
  unfold done_reached, undisturbed.
  induction chunks as [|chunk chunks (toks & last & IH & Hl & Hsub & Hdone & Hend & Hall)].
  - exists [], (end_event finish). split; [by destruct finish|].
    split; [by destruct finish|]. split; [done|].
    split; [by intros H%Exists_nil|]. done.
  - destruct (decode_utf8 chunk) as [content|] eqn:Hd.
    + rewrite (read_chunks_decoded _ _ _ _ Hd). unfold remaining_events.
      cbn [arriving_tokens flat_map]. rewrite Hd.
      destruct (process_lines_shape (split_lines content)) as (toks1 & H1 & Hs1).
      destruct (process_lines json_loads (split_lines content)) as [evs ret] eqn:E.
      simpl in H1. subst evs. destruct ret.
      * exists toks1, done. split; [done|]. split; [done|].
        split; [by apply sublist_inserts_r|]. split; [done|].
        assert (ends_stream json_loads chunk) as He.
        { apply ends_stream_returned. exists content. by rewrite E. }
        split; [intros Hn; destruct Hn; by apply Exists_cons_hd|].
        intros Hu. specialize (Hu chunk content (or_introl eq_refl) Hd).
        rewrite (process_lines_undisturbed _ Hu) in E. congruence.
      * exists (toks1 ++ toks), last. rewrite IH, app_nil_r, map_app, app_assoc.
        assert (~ ends_stream json_loads chunk) as He.
        { intros (c & Hc & Hr)%ends_stream_returned. rewrite Hd in Hc.
          injection Hc as <-. rewrite E in Hr. done. }
        split; [done|]. split; [done|]. split; [by apply sublist_app|].
        split; [intros [H|H]%Exists_cons; [done | by apply Hdone]|].
        split; [intros Hn; apply Hend; intros H; apply Hn; by apply Exists_cons_tl|].
        intros Hu.
        destruct Hall as [-> ->]; [intros c0 ct Hin; apply Hu; by right|].
        split; [|done]. f_equal.
        pose proof (process_lines_undisturbed _ (Hu chunk content (or_introl eq_refl) Hd))
          as Hp.
        rewrite E in Hp. injection Hp as Hp.
        rewrite app_nil_r in Hp. by apply map_token_inj in Hp.
    + rewrite (read_chunks_undecodable _ _ _ Hd). cbn [arriving_tokens flat_map].
      rewrite Hd. simpl app. exists toks, last.
      assert (~ ends_stream json_loads chunk) as He.
      { intros (c & Hc & _)%ends_stream_returned. congruence. }
      split; [done|]. split; [done|]. split; [done|].
      split; [intros [H|H]%Exists_cons; [done | by apply Hdone]|].
      split; [intros Hn; apply Hend; intros H; apply Hn; by apply Exists_cons_tl|].
      intros Hu. apply Hall. intros c0 ct Hin. apply Hu. by right.
Qed.

Lemma terminal_count_tokens toks last :
  is_terminal last = true ->
  length (List.filter is_terminal (map token toks ++ [last])) = 1.
Proof.
  intros H. rewrite List.filter_app, length_app. simpl. rewrite H. simpl.
  induction toks as [|t toks IH]; simpl; [done|]. done.
Qed.

Lemma terminal_cases last :
  is_terminal last = true -> last = done \/ exists msg, last = error msg.
Proof. destruct last as [c| |msg]; [done | by left | right; by exists msg]. Qed.

(** The events from the POST on, for a service that holds a session. *)
Lemma request_stream_shape post self' :
  session self' = true ->
  exists toks last,
    request_stream json_loads post self' = map token toks ++ [last]
    /\ is_terminal last = true
    /\ (forall r, post = PostAnswers r ->
          sublist toks (arriving_tokens json_loads (chunks r)))
    /\ (request_failure json_loads post <-> exists msg, last = error msg)
    /\ (forall r, post = PostAnswers r -> (status r =? 200)%Z = true ->
          undisturbed json_loads (chunks r) ->
          toks = arriving_tokens json_loads (chunks r) /\ last = end_event (finish r)).
Proof.
  intros Hs. unfold request_stream, request_failure. rewrite Hs. simpl negb. cbv iota.
  destruct post as [e|r].
  { exists [], (error (u "오류: " ++ message e)). split; [done|]. split; [done|].
    split; [done|]. split; [|done]. split; [by eexists | intros _; left; by eexists]. }
  destruct (status r =? 200)%Z eqn:Hst; simpl negb; cbv iota.
  - destruct (read_chunks_shape (chunks r) (finish r))
      as (toks & last & -> & Hl & Hsub & Hdone & Hend & Hall).
    exists toks, last. split; [done|]. split; [done|].
    split; [by intros r' [= <-]|]. split; [|by intros r' [= <-]].
    split.
    + intros [[e He]|[(r' & [= <-] & Hst')|(r' & msg & [= <-] & Hfin & Hn)]];
        [done | congruence |].
      rewrite (Hend Hn), Hfin. by eexists.
    + intros [msg ->]. right; right.
      destruct (done_reached_decidable (chunks r)) as [Hd|Hn]; [by apply Hdone in Hd|].
      specialize (Hend Hn). destruct (finish r) as [|m] eqn:Hfin; [done|].
      by exists r, m.
  - assert (exists msg, (match text r with
                         | Ok _ => [error (u "API 오류: " ++ str_of_int (status r))]
                         | Raise e => [error (u "오류: " ++ message e)]
                         end) = [error msg]) as [msg ->]
      by (destruct (text r); by eexists).
    exists [], (error msg). split; [done|]. split; [done|].
    split; [intros; apply sublist_nil_l|]. split; [|by intros r' [= <-]; congruence].
    split; [by eexists | intros _; right; left; by exists r].
Qed.

(** C4.  The events that [generate_code_streaming] produces are finitely
    many: token events followed by exactly one terminal event, which is
    the last of the sequence; the token events come in the order in which
    their lines arrived, and they are all the tokens of the body when no
    line raises or ends the stream.  The terminal event is an error
    exactly on a failure (connecting raises, there is no session, the
    POST raises or is not answered with 200, or reading the body fails
    before a done event was reached), and a done exactly otherwise. *)
Theorem streaming_ends_with_one_terminal health post self w :
  let events := (generate_code_streaming json_loads health post self w).1 in
  exists toks last,
    events = map token toks ++ [last]
    /\ is_terminal last = true
    /\ length (List.filter is_terminal events) = 1
    /\ (forall r, post = PostAnswers r ->
          sublist toks (arriving_tokens json_loads (chunks r)))
    /\ (stream_failure json_loads health post self w <-> exists msg, last = error msg)
    /\ (~ stream_failure json_loads health post self w <-> last = done)
    /\ (~ connection_failure health self w ->
        forall r, post = PostAnswers r -> (status r =? 200)%Z = true ->
        undisturbed json_loads (chunks r) ->
        toks = arriving_tokens json_loads (chunks r) /\ last = end_event (finish r)).
Proof.
  cbv zeta.
  assert (forall toks last (F : Prop) evs,
            evs = map token toks ++ [last] -> is_terminal last = true ->
            (F <-> exists msg, last = error msg) ->
            length (List.filter is_terminal evs) = 1 /\ (~ F <-> last = done)) as Hfin.
  { intros toks last F evs -> Hl HF. split; [by apply terminal_count_tokens|].
    destruct (terminal_cases last Hl) as [->|[msg ->]].
    - split; [done|]. intros _ [msg Hm]%HF. done.
    - split; [intros Hn; destruct Hn; apply HF; by eexists | done]. }
  assert (forall msg, connection_failure health self w ->
            exists toks last,
              [error msg] = map token toks ++ [last]
              /\ is_terminal last = true
              /\ length (List.filter is_terminal [error msg]) = 1
              /\ (forall r, post = PostAnswers r ->
                    sublist toks (arriving_tokens json_loads (chunks r)))
              /\ (stream_failure json_loads health post self w
                  <-> exists msg, last = error msg)
              /\ (~ stream_failure json_loads health post self w <-> last = done)
              /\ (~ connection_failure health self w ->
                  forall r, post = PostAnswers r -> (status r =? 200)%Z = true ->
                  undisturbed json_loads (chunks r) ->
                  toks = arriving_tokens json_loads (chunks r)
                  /\ last = end_event (finish r))) as Herr.
  { intros msg Hf. exists [], (error msg).
    assert (stream_failure json_loads health post self w <-> exists m, error msg = error m)
      as HF by (split; [by eexists | intros _; by left]).
    destruct (Hfin [] (error msg) _ [error msg] eq_refl eq_refl HF) as [Hc Hd].
    split; [done|]. split; [done|]. split; [done|].
    split; [intros; apply sublist_nil_l|]. split; [done|]. split; [done|].
    intros Hn. by destruct Hn. }
  assert (forall self', session self' = true -> ~ connection_failure health self w ->
            exists toks last,
              request_stream json_loads post self' = map token toks ++ [last]
              /\ is_terminal last = true
              /\ length (List.filter is_terminal (request_stream json_loads post self')) = 1
              /\ (forall r, post = PostAnswers r ->
                    sublist toks (arriving_tokens json_loads (chunks r)))
              /\ (stream_failure json_loads health post self w
                  <-> exists msg, last = error msg)
              /\ (~ stream_failure json_loads health post self w <-> last = done)
              /\ (~ connection_failure health self w ->
                  forall r, post = PostAnswers r -> (status r =? 200)%Z = true ->
                  undisturbed json_loads (chunks r) ->
                  toks = arriving_tokens json_loads (chunks r)
                  /\ last = end_event (finish r))) as Hposted.
  { intros self' Hs Hnc.
    destruct (request_stream_shape post self' Hs) as (toks & last & He & Hl & Hsub & HF & Hall).
    assert (stream_failure json_loads health post self w <-> exists msg, last = error msg)
      as HF'.
    { unfold stream_failure. rewrite <- HF. split; [by intros [?|?] | by right]. }
    destruct (Hfin toks last _ _ He Hl HF') as [Hc Hd].
    exists toks, last. split; [done|]. split; [done|]. split; [done|].
    split; [done|]. split; [done|]. split; [done|]. intros _. apply Hall. }
  unfold generate_code_streaming.
  destruct (is_connected self) eqn:Hc; simpl negb; cbv iota.
  - destruct (session self) eqn:Hs.
    + apply Hposted; [done|]. intros [(Hc' & _)|(_ & Hs')]; congruence.
    + simpl. unfold request_stream. rewrite Hs. simpl. apply Herr. by right.
  - destruct (connect_total health self w) as [[[res self'] w'] Hconn].
    rewrite Hconn. destruct res as [[]|e]; simpl.
    + apply Hposted; [by apply connect_loop_ok in Hconn as (_ & _ & ?)|].
      intros [(_ & e & s1 & w1 & Hr)|(Hc' & _)]; congruence.
    + apply Herr. left. split; [done|]. by exists e, self', w'.
Qed.





End StreamFacts.



(** Two calls on a connected service: an answer with status 503 gives
    the one error event; a body of one token line that ends gives the
    token and the done event. *)
Lemma streaming_examples :
  let self := {| VLLMIntegrationService.session := true;
                 VLLMIntegrationService.is_connected := true;
                 VLLMIntegrationService.connection_retries := 0;
                 VLLMIntegrationService.max_retries := 3 |} in
  let answer status :=
    VLLMIntegrationService.PostAnswers
      (VLLMIntegrationService.Response status (Ok [])
         [ascii_bytes (u "data: " ++ text_foo_payload)]
         VLLMIntegrationService.EndOfBody) in
  (VLLMIntegrationService.generate_code_streaming example_loads
     (fun _ => VLLMIntegrationService.Status 200) (answer 503%Z) self
     VLLMIntegrationService.no_effects).1
  = [VLLMIntegrationService.error (u "API 오류: 503")]
  /\ (VLLMIntegrationService.generate_code_streaming example_loads
        (fun _ => VLLMIntegrationService.Status 200) (answer 200%Z) self
        VLLMIntegrationService.no_effects).1
     = [VLLMIntegrationService.token (PStr (u "foo")); VLLMIntegrationService.done].
Proof. cbv zeta. split; vm_compute; reflexivity. Qed.
(** ** Decoding parameters (C8, C9) *)

Section PayloadFacts.
Import VLLMIntegrationService.

Lemma preference_without user_preferences key default :
  has_preferences user_preferences = false ->
  preference user_preferences key default = PStr default.
Proof.
  destruct user_preferences as [d|]; simpl; [|done].
  intros H. apply negb_false_iff, bool_decide_eq_true in H. by subst d.
Qed.

(** C8.  For every request, preferences and complexity tier, the
    temperature, token budget and nucleus threshold of the payload of
    [_prepare_vllm_payload] are those of the layered rule: the baseline
    0.3 / 400 / 0.8, then the skill level (beginner: budget by 1.5,
    expert: by 0.8), then the style (concise: temperature by 0.8 with
    floor 0.1, detailed: by 1.2 with ceiling 0.4), then the safety level
    (enhanced: threshold by 0.9 with floor 0.7, minimal: by 1.1 with
    ceiling 0.95), and last the overlay of the tier (medium: by 1.3 with
    ceiling 0.5, by 1.5, by 1.1 with ceiling 0.9; complex: by 1.6 with
    ceiling 0.7, by 2.0, by 1.2 with ceiling 0.95; simple: none). *)
Theorem prepare_payload_layered_rule py_hash build_personalized_prompt
    request complexity user_id user_preferences :
  decoding_of (_prepare_vllm_payload py_hash build_personalized_prompt
                 request complexity user_id user_preferences)
  = layered_rule user_preferences complexity.
Proof.
  unfold layered_rule, _prepare_vllm_payload, decoding_of.
  destruct (has_preferences user_preferences) eqn:Hp.
  - destruct user_preferences as [d|]; [|done]. simpl or_empty. simpl preference.
    unfold skill_adjustment, style_adjustment, safety_adjustment.
    destruct (eq_str (dict_get d "skill_level" (PStr (u "intermediate"))) (u "beginner"));
    destruct (eq_str (dict_get d "skill_level" (PStr (u "intermediate"))) (u "expert"));
    destruct (eq_str (dict_get d "code_style" (PStr (u "standard"))) (u "concise"));
    destruct (eq_str (dict_get d "code_style" (PStr (u "standard"))) (u "detailed"));
    destruct (eq_str (dict_get d "safety_level" (PStr (u "standard"))) (u "enhanced"));
    destruct (eq_str (dict_get d "safety_level" (PStr (u "standard"))) (u "minimal"));
    destruct complexity; reflexivity.
  - rewrite !preference_without by done. by destruct complexity.
Qed.

(** Without preferences the budgets are 400, 600 and 800 tokens. *)
Lemma prepare_payload_default_budgets py_hash hook request user_id :
  map (fun tier => p_max_tokens
                     (_prepare_vllm_payload py_hash hook request tier user_id None))
      [SIMPLE; MEDIUM; COMPLEX]
  = [400; 600; 800]%Z.
Proof. reflexivity. Qed.

(** The token budget of [_prepare_vllm_payload] is never 512. *)
Lemma prepare_payload_budget_not_512 py_hash hook request tier user_id user_preferences :
  p_max_tokens (_prepare_vllm_payload py_hash hook request tier user_id user_preferences)
  <> 512%Z.
Proof.
  unfold _prepare_vllm_payload.
  destruct (has_preferences user_preferences); [|by destruct tier].
  set (prefs := or_empty user_preferences).
  destruct (eq_str (dict_get prefs "skill_level" (PStr (u "intermediate"))) (u "beginner"));
  destruct (eq_str (dict_get prefs "skill_level" (PStr (u "intermediate"))) (u "expert"));
  destruct (eq_str (dict_get prefs "code_style" (PStr (u "standard"))) (u "concise"));
  destruct (eq_str (dict_get prefs "code_style" (PStr (u "standard"))) (u "detailed"));
  destruct (eq_str (dict_get prefs "safety_level" (PStr (u "standard"))) (u "enhanced"));
  destruct (eq_str (dict_get prefs "safety_level" (PStr (u "standard"))) (u "minimal"));
  destruct tier; done.
Qed.

(** C9, amended.  The payload of [generate_code_streaming] takes its
    decoding parameters from the request: a parameter that is set and not
    zero is passed on as it is, and a parameter that is unset or zero is
    replaced by its fallback, 512 tokens, temperature 0.7, nucleus
    threshold 0.9.  The preferences are forwarded as the
    user_select_options field (the empty dict when there are none) and
    have no influence on the decoding parameters: the layered rule of
    [_prepare_vllm_payload] is not applied, whose token budget is never
    the 512 of this path. *)
Theorem streaming_payload_parameters py_hash request user_id user_preferences :
  let p := streaming_payload py_hash request user_id user_preferences in
  (forall n, max_tokens request = Some n -> n <> 0%Z -> p_max_tokens p = n)
  /\ (max_tokens request = None \/ max_tokens request = Some 0%Z ->
      p_max_tokens p = 512%Z)
  /\ (forall f, temperature request = Some f -> PrimFloat.eqb f 0%float = false ->
        p_temperature p = f)
  /\ (temperature request = None
      \/ (exists f, temperature request = Some f /\ PrimFloat.eqb f 0%float = true) ->
      p_temperature p = 0.7%float)
  /\ (forall f, top_p request = Some f -> PrimFloat.eqb f 0%float = false ->
        p_top_p p = f)
  /\ (top_p request = None
      \/ (exists f, top_p request = Some f /\ PrimFloat.eqb f 0%float = true) ->
      p_top_p p = 0.9%float)
  /\ p_user_select_options p
     = match user_preferences with Some d => d | None => ∅ end
  /\ (forall user_preferences',
        decoding_of (streaming_payload py_hash request user_id user_preferences')
        = decoding_of p)
  /\ (forall hook tier user_preferences',
        max_tokens request = None ->
        d_max_tokens (decoding_of p) = 512%Z
        /\ d_max_tokens (decoding_of (_prepare_vllm_payload py_hash hook request tier
                                        user_id user_preferences')) <> 512%Z).
Proof.
  cbv zeta. unfold streaming_payload, decoding_of. simpl.
  split; [|split; [|split; [|split; [|split; [|split; [|split; [|split]]]]]]].
  - intros n -> Hn. simpl. by destruct (Z.eqb_spec n 0).
  - by intros [->| ->].
  - intros f -> H. simpl. by rewrite H.
  - intros [->|(f & -> & H)]; simpl; [done | by rewrite H].
  - intros f -> H. simpl. by rewrite H.
  - intros [->|(f & -> & H)]; simpl; [done | by rewrite H].
  - done.
  - done.
  - intros hook tier user_preferences' ->. split; [done|].
    apply prepare_payload_budget_not_512.
Qed.

Lemma streaming_payload_parameters_witness :
  p_max_tokens
    (streaming_payload (fun _ => 0%Z)
       (Request (u "sort a list") None CODE_GENERATION (Some 256%Z) None None)
       (u "user") None)
  = 256%Z.
Proof.
  destruct (streaming_payload_parameters (fun _ => 0%Z)
              (Request (u "sort a list") None CODE_GENERATION (Some 256%Z) None None)
              (u "user") None) as (Hset & _).
  apply Hset; [reflexivity | discriminate].
Defined.

(** C9 as stated fails: a temperature that the request sets to 0.0 is
    not passed on; the payload carries the fallback 0.7. *)
Lemma streaming_payload_zero_temperature :
  let request :=
    Request (u "sort a list") None CODE_GENERATION None (Some 0.0%float) None in
  temperature request = Some 0.0%float
  /\ p_temperature (streaming_payload (fun _ => 0%Z) request (u "user") None) = 0.7%float
  /\ PrimFloat.eqb 0.7%float 0.0%float = false.
Proof. cbv zeta. split; [|split]; reflexivity. Qed.

End PayloadFacts.

(** * Further properties of the connection *)

Section ConnectionFacts.
Import VLLMIntegrationService.

Lemma backoff_delays_S r k : backoff_delays r (S k) = 2 ^ (r + 1) :: backoff_delays (r + 1) k.
Proof. unfold backoff_delays. simpl. by replace (S (r + 1)) with (r + 1 + 1) by lia. Qed.

Lemma backoff_delays_sum k : list_sum (backoff_delays 0 k) + 2 = 2 ^ (k + 1).
Proof.
  assert (forall r, list_sum (backoff_delays r k) + 2 ^ (r + 1) = 2 ^ (r + k + 1)) as H.
  { induction k as [|k IH]; intros r.
    - simpl. by replace (r + 0 + 1) with (r + 1) by lia.
    - rewrite backoff_delays_S. simpl list_sum.
      specialize (IH (r + 1)).
      replace (r + S k + 1) with (r + 1 + k + 1) by lia.
      replace (2 ^ (r + 1 + 1)) with (2 * 2 ^ (r + 1)) in IH
        by (rewrite (Nat.pow_add_r 2 (r + 1) 1); simpl; lia).
      lia. }
  specialize (H 0). simpl in H. simpl. lia.
Qed.

(** The run of [connect_loop] against probes that fail [k] times below
    the cap and then either succeed or reach the cap. *)
Lemma connect_loop_failures health k :
  forall fuel self w,
    (forall i, i < k -> probe_ok (health (probes w + i)) = false) ->
    connection_retries self + k < max_retries self ->
    connect_loop (k + fuel) health self w =
    connect_loop fuel health
      {| session := true;
         is_connected := if k is 0 then is_connected self else false;
         connection_retries := connection_retries self + k;
         max_retries := max_retries self |}
      {| probes := probes w + k;
         sleeps := sleeps w ++ backoff_delays (connection_retries self) k |}.
Proof.
  induction k as [|k IH]; intros fuel self w Hfail Hlt.
  - simpl. destruct fuel as [|fuel]; [done|]. simpl.
    rewrite !Nat.add_0_r, app_nil_r. done.
  - replace (S k + fuel) with (S (k + fuel)) by lia.
    rewrite connect_loop_fail_step;
      [|by rewrite <- (Nat.add_0_r (probes w)); apply Hfail; lia | lia].
    rewrite IH; simpl.
    + rewrite backoff_delays_S, <- app_assoc. simpl.
      replace (connection_retries self + 1 + k) with (connection_retries self + S k) by lia.
      replace (S (probes w + k)) with (probes w + S k) by lia.
      by destruct k.
    + intros i Hi. replace (S (probes w + i)) with (probes w + S i) by lia.
      apply Hfail. lia.
    + lia.
Qed.

(** X1.  Against probes that all fail, a [connect()] below the cap
    sends one probe for each retry that remains, sleeps 2^(r+1), ...,
    2^(cap-1) seconds between them and raises [ConnectionError] with the
    counter at the cap; started with the counter at zero it has then
    slept 2^cap - 2 seconds in all. *)
Theorem connect_all_fail_schedule health self w :
  (forall n, probe_ok (health n) = false) ->
  connection_retries self < max_retries self ->
  let k := max_retries self - connection_retries self - 1 in
  connect health self w =
    Some (Raise retries_exceeded,
          {| session := true; is_connected := false;
             connection_retries := max_retries self;
             max_retries := max_retries self |},
          {| probes := probes w + k + 1;
             sleeps := sleeps w ++ backoff_delays (connection_retries self) k |})
  /\ (connection_retries self = 0 ->
      list_sum (backoff_delays (connection_retries self) k) + 2 = 2 ^ max_retries self).
Proof.
  intros Hfail Hlt k. split.
  - unfold connect.
    replace (S (max_retries self - connection_retries self)) with (k + 2) by (unfold k; lia).
    rewrite connect_loop_failures by (auto; unfold k; lia).
    replace 2 with (S 1) at 1 by done.
    rewrite connect_loop_fail_last by (auto; simpl; unfold k; lia).
    simpl. do 3 f_equal; [f_equal; unfold k; lia | f_equal; lia].
  - intros H0. rewrite H0, backoff_delays_sum. f_equal. unfold k. lia.
Qed.

Lemma connect_all_fail_schedule_witness :
  connect (fun _ => ProbeRaises (u "refused"))
    {| session := false; is_connected := false; connection_retries := 0;
       max_retries := 5 |} no_effects
  = Some (Raise retries_exceeded,
          {| session := true; is_connected := false; connection_retries := 5;
             max_retries := 5 |},
          {| probes := 5; sleeps := [2; 4; 8; 16] |}).
Proof.
  destruct (connect_all_fail_schedule (fun _ => ProbeRaises (u "refused"))
              {| session := false; is_connected := false; connection_retries := 0;
                 max_retries := 5 |} no_effects) as [H _];
    [intros n; reflexivity | simpl; lia |].
  apply H.
Defined.

(** X2.  When the probes fail [k] times and then succeed, with [k]
    retries still below the cap, [connect()] returns after [k + 1]
    probes and the [k] delays 2^(r+1), ..., 2^(r+k), with the service
    connected, holding a session, and the counter back at zero. *)
Theorem connect_succeeds_after_failures health self w k :
  (forall i, i < k -> probe_ok (health (probes w + i)) = false) ->
  probe_ok (health (probes w + k)) = true ->
  connection_retries self + k < max_retries self ->
  connect health self w =
    Some (Ok tt,
          {| session := true; is_connected := true; connection_retries := 0;
             max_retries := max_retries self |},
          {| probes := probes w + k + 1;
             sleeps := sleeps w ++ backoff_delays (connection_retries self) k |}).
Proof.
  intros Hfail Hok Hlt. unfold connect.
  replace (S (max_retries self - connection_retries self))
    with (k + S (max_retries self - connection_retries self - k)) by lia.
  rewrite connect_loop_failures by auto.
  simpl. unfold probe_ok in Hok. rewrite Hok.
  do 3 f_equal. lia.
Qed.

Lemma connect_succeeds_after_failures_witness :
  connect (fun n => if n <? 2 then Status 503 else Status 200) __init__ no_effects
  = Some (Ok tt,
          {| session := true; is_connected := true; connection_retries := 0;
             max_retries := 3 |},
          {| probes := 3; sleeps := [2; 4] |}).
Proof.
  apply (connect_succeeds_after_failures
           (fun n => if n <? 2 then Status 503 else Status 200) __init__ no_effects 2).
  - intros i Hi. simpl. destruct i as [|[|i]]; [reflexivity | reflexivity | lia].
  - reflexivity.
  - simpl. lia.
Defined.

(** X3.  Once [connect()] has raised, the counter stays at the cap:
    [disconnect()] does not reset it, and a later [connect()] whose probe
    fails raises after that single probe, without sleeping.  Only a
    successful probe brings the backoff back. *)
Theorem connect_after_exhaustion health self w e self1 w1 health' :
  connect health self w = Some (Raise e, self1, w1) ->
  probe_ok (health' (probes w1)) = false ->
  let raised s :=
    Some (Raise retries_exceeded,
          {| session := true; is_connected := false;
             connection_retries := connection_retries s + 1;
             max_retries := max_retries s |},
          {| probes := probes w1 + 1; sleeps := sleeps w1 |}) in
  connect health' self1 w1 = raised self1
  /\ connect health' (disconnect self1) w1 = raised self1.
Proof.
  intros Hc Hp. apply connect_loop_raise in Hc as (_ & Hle & _).
  cbv zeta. unfold connect. split.
  - rewrite connect_loop_fail_last by (auto; lia).
    do 3 f_equal. lia.
  - rewrite connect_loop_fail_last by (auto; simpl; lia).
    simpl. do 3 f_equal. lia.
Qed.

Lemma connect_after_exhaustion_witness :
  let self1 := {| session := true; is_connected := false; connection_retries := 3;
                  max_retries := 3 |} in
  let w1 := {| probes := 3; sleeps := [2; 4] |} in
  connect (fun _ => Status 503) (disconnect self1) w1
  = Some (Raise retries_exceeded,
          {| session := true; is_connected := false; connection_retries := 4;
             max_retries := 3 |},
          {| probes := 4; sleeps := [2; 4] |}).
Proof.
  cbv zeta.
  destruct (connect_after_exhaustion (fun _ => Status 503) __init__ no_effects
              retries_exceeded
              {| session := true; is_connected := false; connection_retries := 3;
                 max_retries := 3 |}
              {| probes := 3; sleeps := [2; 4] |} (fun _ => Status 503))
    as [_ H]; [reflexivity | reflexivity |].
  apply H.
Defined.

(** A first probe that succeeds: no sleep, whatever the counter was. *)
Lemma connect_first_probe_ok health self w :
  probe_ok (health (probes w)) = true ->
  connect health self w =
    Some (Ok tt,
          {| session := true; is_connected := true; connection_retries := 0;
             max_retries := max_retries self |},
          {| probes := S (probes w); sleeps := sleeps w |}).
Proof. intros H. unfold connect. simpl. unfold probe_ok in H. by rewrite H. Qed.

Lemma health_check_total health body self w : is_Some (health_check health body self w).
Proof.
  unfold health_check.
  destruct (negb (session self)).
  - destruct (connect_total health self w) as [[[[[]|e] self'] w'] ->]; [|by eexists].
    destruct (health (probes w')) as [status|msg]; [|by eexists].
    destruct (status =? 200)%Z; [|by eexists]. destruct (body (probes w')); by eexists.
  - destruct (health (probes w)) as [status|msg]; [|by eexists].
    destruct (status =? 200)%Z; [|by eexists]. destruct (body (probes w)); by eexists.
Qed.

(** X4.  [health_check] always returns.  On a service that holds a
    session it sends exactly one probe, never sleeps and leaves the
    service as it is (the connected flag included): the answer is [True]
    exactly when the probe is answered with 200 and the text of the
    answer can be read.  On a service without a session it connects
    first, so that a server that answers 200 is probed twice; when
    connecting fails the answer is [False]. *)
Theorem health_check_behaviour health body self w :
  is_Some (health_check health body self w)
  /\ (session self = true ->
      health_check health body self w =
        Some (probe_ok (health (probes w))
                && (if body (probes w) is Ok _ then true else false),
              self, {| probes := S (probes w); sleeps := sleeps w |}))
  /\ (session self = false ->
      (forall n, probe_ok (health n) = true) -> (forall n t, body n <> Raise t) ->
      health_check health body self w =
        Some (true,
              {| session := true; is_connected := true; connection_retries := 0;
                 max_retries := max_retries self |},
              {| probes := probes w + 2; sleeps := sleeps w |}))
  /\ (session self = false ->
      forall e self' w', connect health self w = Some (Raise e, self', w') ->
      health_check health body self w = Some (false, self', w')).
Proof.
  split; [apply health_check_total|]. split; [|split].
  - intros Hs. unfold health_check. rewrite Hs. simpl.
    destruct (health (probes w)) as [status|msg]; simpl; [|done].
    destruct (status =? 200)%Z; simpl; [|done]. by destruct (body (probes w)).
  - intros Hs Hok Hbody. unfold health_check. rewrite Hs. simpl negb. cbv iota.
    rewrite (connect_first_probe_ok health self w) by apply Hok.
    simpl. specialize (Hok (S (probes w))). unfold probe_ok in Hok.
    destruct (health (S (probes w))) as [status|msg]; [|done]. rewrite Hok.
    destruct (body (S (probes w))) as [t|t] eqn:Hb; [|by apply Hbody in Hb].
    do 3 f_equal. lia.
  - intros Hs e self' w' Hc. unfold health_check. by rewrite Hs, Hc.
Qed.

Lemma health_check_behaviour_witness :
  health_check (fun _ => Status 200) (fun _ => Ok (u "ok")) __init__ no_effects
  = Some (true,
          {| session := true; is_connected := true; connection_retries := 0;
             max_retries := 3 |},
          {| probes := 2; sleeps := [] |}).
Proof.
  destruct (health_check_behaviour (fun _ => Status 200) (fun _ => Ok (u "ok"))
              __init__ no_effects) as (_ & _ & H & _).
  apply H; [reflexivity | intros n; reflexivity | intros n t; discriminate].
Defined.

End ConnectionFacts.

(** * Further properties of the validator *)

Section ScanFacts.
Import CodeQualityValidator.

Lemma close_not_open c : is_close c = true -> is_open c = false.
Proof. intros H. destruct (is_close_cases c H) as [->|[->| ->]]; done. Qed.

(** X5.  A closing bracket that meets an empty stack ends the scan:
    after properly nested text it is the only issue reported, whatever
    follows it (brackets left open after it are not counted). *)
Theorem bracket_balance_stops_at_unmatched_closer prefix c rest :
  well_bracketed prefix -> is_close c = true ->
  _check_bracket_balance (prefix ++ c :: rest) = [issue_too_many_closers].
Proof.
  intros Hp Hc. unfold _check_bracket_balance.
  rewrite (bracket_loop_skip _ Hp). simpl.
  by rewrite (close_not_open c Hc), Hc.
Qed.

Lemma bracket_balance_stops_at_unmatched_closer_witness :
  _check_bracket_balance (u "f(x))" ++ u "((([") = [issue_too_many_closers].
Proof.
  apply (bracket_balance_stops_at_unmatched_closer (u "f(x)") (ch ")") (u "((([")).
  - apply bracket_balance_nil_iff. reflexivity.
  - reflexivity.
Defined.

End ScanFacts.

(** ** What a match needs *)

Section MatchFacts.
Import Re.

Lemma greedy_suffix p rs : forall sn cp c',
  In c' (greedy p sn rs cp) -> exists w, rs = w ++ rest c'.
Proof.
  induction rs as [|x rs IH]; intros sn cp c'; simpl.
  - intros [<-|[]]. by exists [].
  - destruct (p x).
    + intros [H|[<-|[]]]%in_app_or.
      * destruct (IH _ _ _ H) as [w ->]. by exists (x :: w).
      * by exists [].
    + intros [<-|[]]. by exists [].
Qed.

Lemma lazy_suffix p rs : forall sn cp c',
  In c' (lazy p sn rs cp) -> exists w, rs = w ++ rest c'.
Proof.
  induction rs as [|x rs IH]; intros sn cp c'; simpl.
  - intros [<-|[]]. by exists [].
  - intros [<-|H]; [by exists []|].
    destruct (p x); [|done].
    destruct (IH _ _ _ H) as [w ->]. by exists (x :: w).
Qed.

(** A match ends within the text that was left. *)
Lemma run_suffix r : forall c c',
  In c' (run r c) -> exists w, rest c = w ++ rest c'.
Proof.
  induction r as [|p|a IHa b IHb|a IHa b IHb|p|p|a IHa|a IHa|m|m|]; intros c c'; simpl.
  - intros [<-|[]]. by exists [].
  - destruct (rest c) as [|x rs] eqn:E; [done|].
    destruct (p x); [|done]. intros [<-|[]]. by exists [x].
  - intros (c1 & H1 & H2)%in_flat_map.
    destruct (IHa _ _ H1) as [w1 ->]. destruct (IHb _ _ H2) as [w2 ->].
    exists (w1 ++ w2). by rewrite <- app_assoc.
  - intros [H|H]%in_app_or; [by apply IHa | by apply IHb].
  - apply greedy_suffix.
  - apply lazy_suffix.
  - intros (c1 & <- & H1)%in_map_iff. simpl. by apply IHa.
  - destruct (run a c); [done|]. intros [<-|[]]. by exists [].
  - destruct (at_bol m c); [|done]. intros [<-|[]]. by exists [].
  - destruct (at_eol m c); [|done]. intros [<-|[]]. by exists [].
  - destruct (rest c) eqn:E; [|done]. intros [<-|[]]. exists []. by rewrite E.
Qed.

Lemma run_demands q r : demands q r -> forall c c',
  In c' (run r c) -> exists x, In x (rest c) /\ q x.
Proof.
  induction r as [|p|a IHa b IHb|a IHa b IHb|p|p|a IHa|a IHa|m|m|];
    simpl; try done; intros Hd c c'.
  - destruct (rest c) as [|x rs] eqn:E; [done|].
    destruct (p x) eqn:Hp; [|done]. intros _. exists x. split; [by left | by apply Hd].
  - intros (c1 & H1 & H2)%in_flat_map. destruct Hd as [Hd|Hd].
    + by apply (IHa Hd c c1).
    + destruct (IHb Hd _ _ H2) as (x & Hx & Hq).
      destruct (run_suffix _ _ _ H1) as [w ->].
      exists x. split; [|done]. apply in_or_app. by right.
  - destruct Hd as [Ha Hb]. intros [H|H]%in_app_or; [by apply (IHa Ha c c') |].
    by apply (IHb Hb c c').
  - intros (c1 & <- & H1)%in_map_iff. by apply (IHa Hd c c1).
Qed.

Lemma first_match_demands q r must_advance sn rs f :
  demands q r -> first_match r must_advance sn rs = Some f ->
  exists x, In x rs /\ q x.
Proof.
  intros Hd. unfold first_match.
  destruct (List.filter _ _) as [|c l] eqn:E; [done|]. intros _.
  assert (In c (c :: l)) as Hin by (by left).
  rewrite <- E in Hin. apply List.filter_In in Hin as [Hin _].
  by apply (run_demands q r Hd _ _ Hin).
Qed.

(** A pattern is found only in a text that has what the pattern demands. *)
Lemma search_demands q r s :
  demands q r -> search r s = true -> exists x, In x s /\ q x.
Proof.
  intros Hd. unfold search.
  assert (forall rs sn, search_from r sn rs = true -> exists x, In x rs /\ q x) as H.
  { induction rs as [|y rs IH]; intros sn; simpl.
    - destruct (first_match r false sn []) eqn:E; [|done].
      intros _. by apply (first_match_demands q r _ _ _ _ Hd E).
    - destruct (first_match r false sn (y :: rs)) eqn:E.
      + intros _. by apply (first_match_demands q r _ _ _ _ Hd E).
      + intros (x & Hx & Hq)%IH. exists x. split; [by right | done]. }
  apply H.
Qed.

Lemma demands_seqs q rs : Exists (demands q) rs -> demands q (seqs rs).
Proof.
  induction rs as [|r rs IH]; intros H; [by apply Exists_nil in H|].
  destruct rs as [|r' rs].
  - apply Exists_cons in H as [H|H]; [done | by apply Exists_nil in H].
  - change (demands q r \/ demands q (seqs (r' :: rs))).
    apply Exists_cons in H as [H|H]; [by left | right; by apply IH].
Qed.

Lemma demands_chr x : demands (eq x) (chr x).
Proof. intros y Hy. by apply N.eqb_eq in Hy. Qed.

Lemma demands_lit x s : In x s -> demands (eq x) (lit s).
Proof.
  induction s as [|y s IH]; [done|]. intros [->|H]; simpl.
  - left. apply demands_chr.
  - right. by apply IH.
Qed.

End MatchFacts.

Section SyntaxFacts.
Import Re CodeQualityValidator.

Lemma demands_quote : demands is_quote (Cls quote).
Proof.
  intros x. unfold quote, one_of. simpl.
  destruct (N.eqb_spec x DQ) as [->|_]; [by left|].
  destruct (N.eqb_spec x SQ) as [->|_]; [by right | done].
Qed.

(** X6.  The syntax heuristics report nothing for code without an
    opening parenthesis, and nothing for code that has neither a quote
    character nor an equals sign. *)
Theorem basic_syntax_needs_parenthesis code :
  _check_basic_syntax code <> [] ->
  In (ch "(") code /\ (In DQ code \/ In SQ code \/ In (ch "=") code).
Proof.
  unfold _check_basic_syntax, suspicious_patterns. cbn [flat_map fst snd].
  set (p1 := seqs [lit (u "print("); Cls quote; StarG not_quote; Cls quote; Cls quote]).
  set (p2 := seqs [Cls quote; StarG not_quote; chr (ch "("); StarG not_rparen; Cls quote]).
  set (p3 := seqs [chr (ch "("); StarG not_rparen; chr (ch "("); StarG not_rparen;
                   Cls quote; StarG not_quote; Eol false]).
  set (p4 := seqs [Bol false; StarG not_eq; chr (ch "="); StarG not_eq; chr (ch "(");
                   StarG not_rparen; Eol false]).
  assert (forall (x : N) s, (exists y, In y s /\ x = y) -> In x s) as Hin
    by (by intros x s (y & Hy & ->)).
  assert (forall s, (exists y, In y s /\ is_quote y) -> In DQ s \/ In SQ s \/ In (ch "=") s)
    as Hq by (intros s (y & Hy & [->| ->]); auto).
  destruct (search p1 code) eqn:E1.
  { intros _. split.
    - apply Hin, (search_demands _ p1); [|done].
      apply demands_seqs, Exists_cons_hd, demands_lit. vm_compute. tauto.
    - apply Hq, (search_demands _ p1); [|done].
      apply demands_seqs, Exists_cons_tl, Exists_cons_hd, demands_quote. }
  destruct (search p2 code) eqn:E2.
  { intros _. split.
    - apply Hin, (search_demands _ p2); [|done].
      apply demands_seqs. do 2 apply Exists_cons_tl. apply Exists_cons_hd, demands_chr.
    - apply Hq, (search_demands _ p2); [|done].
      apply demands_seqs, Exists_cons_hd, demands_quote. }
  destruct (search p3 code) eqn:E3.
  { intros _. split.
    - apply Hin, (search_demands _ p3); [|done].
      apply demands_seqs, Exists_cons_hd, demands_chr.
    - apply Hq, (search_demands _ p3); [|done].
      apply demands_seqs. do 4 apply Exists_cons_tl. apply Exists_cons_hd, demands_quote. }
  destruct (search p4 code) eqn:E4; [|done].
  intros _. split.
  - apply Hin, (search_demands _ p4); [|done].
    apply demands_seqs. do 4 apply Exists_cons_tl. apply Exists_cons_hd, demands_chr.
  - right; right. apply Hin, (search_demands _ p4); [|done].
    apply demands_seqs. do 2 apply Exists_cons_tl. apply Exists_cons_hd, demands_chr.
Qed.

Lemma basic_syntax_needs_parenthesis_witness :
  In (ch "(") (u "x = f(1")
  /\ (In DQ (u "x = f(1") \/ In SQ (u "x = f(1") \/ In (ch "=") (u "x = f(1")).
Proof.
  apply (basic_syntax_needs_parenthesis (u "x = f(1")).
  vm_compute. discriminate.
Defined.

End SyntaxFacts.

Section ValidityFacts.
Import CodeQualityValidator.

Lemma length_split_on sep l : forall cur,
  length (split_on sep cur l) = count_char sep l + 1.
Proof.
  induction l as [|c l IH]; intros cur; simpl; [done|].
  destruct (c =? sep)%N; simpl; by rewrite IH.
Qed.

Lemma quote_balance_nil_iff code : _check_quote_balance code = [] <-> quotes_even code.
Proof.
  unfold _check_quote_balance, quotes_even.
  destruct (count_char SQ code mod 2 =? 0), (count_char DQ code mod 2 =? 0);
    simpl; split; (try done); by intros [? ?].
Qed.

Lemma ast_validity_nil_iff ast_parse code :
  _check_ast_validity ast_parse code = [] <-> ast_parse code = Parsed.
Proof. unfold _check_ast_validity. by destruct (ast_parse code). Qed.

Lemma validate_code_chunk_sizes ast_parse self code :
  validation_enabled self = true -> whitespace_only code = false ->
  code_length (validate_code_chunk ast_parse self code) = Some (length code)
  /\ line_count (validate_code_chunk ast_parse self code) = Some (count_char LF code + 1).
Proof.
  intros He Hw. unfold validate_code_chunk.
  rewrite He, nonempty_strip, Hw. simpl negb. simpl orb. cbv iota.
  by destruct (nonempty (_check_basic_syntax code)),
              (nonempty (_check_bracket_balance code)),
              (nonempty (_check_quote_balance code)),
              (nonempty (_check_ast_validity ast_parse code)).
Qed.

(** X7.  When the checks run, code is valid exactly when no syntax
    heuristic fires, its brackets are properly nested, each kind of quote
    occurs an even number of times and [ast.parse] accepts it; the result
    then carries the length of the code and the number of its lines. *)
Theorem validate_code_chunk_valid_iff ast_parse self code :
  validation_enabled self = true -> whitespace_only code = false ->
  let r := validate_code_chunk ast_parse self code in
  (valid r = true <->
     _check_basic_syntax code = [] /\ well_bracketed code /\ quotes_even code
     /\ ast_parse code = Parsed)
  /\ code_length r = Some (length code)
  /\ line_count r = Some (length (split_lines code)).
Proof.
  intros He Hw. cbv zeta.
  destruct (validate_code_chunk_checked ast_parse self code He Hw) as (Hi & _ & Hv).
  destruct (validate_code_chunk_sizes ast_parse self code He Hw) as (Hl & Hn).
  cbv zeta in Hi, Hv. split; [|split; [done|]].
  - rewrite Hv, Hi, Nat.eqb_eq, !length_app.
    rewrite <- bracket_balance_nil_iff, <- quote_balance_nil_iff,
      <- (ast_validity_nil_iff ast_parse code).
    split.
    + intros H. repeat split; apply nil_length_inv; lia.
    + by intros (-> & -> & -> & ->).
  - unfold split_lines. by rewrite length_split_on.
Qed.

Lemma validate_code_chunk_valid_iff_witness :
  let r := validate_code_chunk (fun _ => Parsed) __init__ (u "print(1)" ++ nl ++ u "x = [2]") in
  valid r = true /\ code_length r = Some 16 /\ line_count r = Some 2.
Proof.
  cbv zeta.
  destruct (validate_code_chunk_valid_iff (fun _ => Parsed) __init__
              (u "print(1)" ++ nl ++ u "x = [2]")) as (Hv & Hl & Hn);
    [reflexivity | reflexivity |].
  split; [|split; [exact Hl | exact Hn]].
  apply Hv. split; [reflexivity|]. split; [|split; [split; reflexivity | reflexivity]].
  apply bracket_balance_nil_iff. reflexivity.
Defined.

End ValidityFacts.

Section RepairAlgebra.
Import CodeQualityValidator.
Local Arguments Nat.modulo : simpl never.

Lemma fix_step_appended fixed issue :
  fix_step fixed issue = fixed ++ appended (repair_of issue) fixed.
Proof.
  unfold fix_step, repair_of.
  destruct (contains unclosed_marker issue).
  - simpl. destruct (Nat.ltb_spec (count_char (ch ")") fixed) (count_char (ch "(") fixed));
      [done|].
    replace (count_char (ch "(") fixed - count_char (ch ")") fixed) with 0 by lia.
    by rewrite app_nil_r.
  - destruct (contains issue_odd_single issue).
    + simpl. destruct (count_char SQ fixed mod 2 =? 0); simpl; by rewrite ?app_nil_r.
    + destruct (contains issue_odd_double issue); simpl; [|by rewrite app_nil_r].
      destruct (count_char DQ fixed mod 2 =? 0); simpl; by rewrite ?app_nil_r.
Qed.

(** What a repair would append after a repair has been made: nothing if
    it is the same repair, and what it would have appended before if it
    is another one. *)
Lemma appended_after k k' s :
  appended k (s ++ appended k' s) = if repair_eqb k k' then [] else appended k s.
Proof.
  assert (forall c x : N, x <> c -> forall t, count_char c (t ++ [x]) = count_char c t) as Hx.
  { intros c x Hne t. rewrite count_char_app. simpl.
    apply N.eqb_neq in Hne. rewrite Hne. lia. }
  assert (forall (c : N) t, count_char c (t ++ [c]) = count_char c t + 1) as Hs.
  { intros c t. rewrite count_char_app. simpl. by rewrite N.eqb_refl. }
  destruct k, k'; simpl; rewrite ?app_nil_r; try done.
  - rewrite !count_char_app, count_char_repeat_other, count_char_repeat_same by done.
    match goal with |- repeat _ ?n = [] => by replace n with 0 by lia end.
  - destruct (count_char SQ s mod 2 =? 0); rewrite ?app_nil_r; [done|].
    by rewrite !Hx.
  - destruct (count_char DQ s mod 2 =? 0); rewrite ?app_nil_r; [done|].
    by rewrite !Hx.
  - by rewrite count_char_app, count_char_repeat_other, Nat.add_0_r.
  - destruct (count_char SQ s mod 2 =? 0) eqn:E; rewrite ?app_nil_r; [by rewrite E|].
    by rewrite Hs, (odd_plus_one _ E).
  - destruct (count_char DQ s mod 2 =? 0); rewrite ?app_nil_r; [done|].
    by rewrite Hx.
  - by rewrite count_char_app, count_char_repeat_other, Nat.add_0_r.
  - destruct (count_char SQ s mod 2 =? 0); rewrite ?app_nil_r; [done|].
    by rewrite Hx.
  - destruct (count_char DQ s mod 2 =? 0) eqn:E; rewrite ?app_nil_r; [by rewrite E|].
    by rewrite Hs, (odd_plus_one _ E).
Qed.

(** A repair that has nothing to append stays so through later repairs. *)
Lemma appended_nil_fold k issues : forall s,
  appended k s = [] -> appended k (fold_left fix_step issues s) = [].
Proof.
  induction issues as [|j issues IH]; intros s H; simpl; [done|].
  apply IH. rewrite fix_step_appended, appended_after.
  by destruct (repair_eqb k (repair_of j)).
Qed.

Lemma appended_nil_after_fold issues : forall s issue,
  In issue issues -> appended (repair_of issue) (fold_left fix_step issues s) = [].
Proof.
  induction issues as [|j issues IH]; intros s issue; simpl; [done|].
  intros [->|Hin]; [|by apply IH].
  apply appended_nil_fold. rewrite fix_step_appended, appended_after.
  by destruct (repair_of issue).
Qed.

(** X8.  The repair is idempotent: repairing repaired code for the
    same issues changes nothing. *)
Theorem suggest_fix_idempotent code issues :
  suggest_fix (suggest_fix code issues) issues = suggest_fix code issues.
Proof.
  unfold suggest_fix at 1. apply fold_left_fixed. intros issue Hin.
  rewrite fix_step_appended. unfold suggest_fix.
  by rewrite (appended_nil_after_fold issues code issue Hin), app_nil_r.
Qed.

Lemma count_char_blank c s :
  isspace c = false -> whitespace_only s = true -> count_char c s = 0.
Proof.
  intros Hc. induction s as [|x s IH]; simpl; [done|].
  intros [Hx Hs]%andb_true_iff. rewrite (IH Hs).
  destruct (N.eqb_spec x c) as [->|]; [congruence | done].
Qed.

Lemma repair_of_odd_single : repair_of issue_odd_single = SingleQuote.
Proof. reflexivity. Qed.

Lemma repair_of_odd_double : repair_of issue_odd_double = DoubleQuote.
Proof. reflexivity. Qed.

Lemma repair_of_unclosed n : repair_of (issue_unclosed n) = CloseParens.
Proof. unfold repair_of, issue_unclosed. by rewrite contains_prefix. Qed.

Lemma odd_single_reported code :
  (count_char SQ code mod 2 =? 0) = false ->
  In issue_odd_single (_check_quote_balance code).
Proof. intros E. unfold _check_quote_balance. rewrite E. by left. Qed.

Lemma odd_double_reported code :
  (count_char DQ code mod 2 =? 0) = false ->
  In issue_odd_double (_check_quote_balance code).
Proof.
  intros E. unfold _check_quote_balance. rewrite E. apply in_or_app. right. by left.
Qed.

(** X9.  With validation enabled, the code repaired for its reported
    issues has no quote issue left: each kind of quote occurs an even
    number of times.  When the bracket check reported openers left
    unclosed, the repaired code has at least as many closing as opening
    parentheses. *)
Theorem suggest_fix_balances_quotes ast_parse self code :
  validation_enabled self = true ->
  let fixed := suggest_fix code (issues (validate_code_chunk ast_parse self code)) in
  _check_quote_balance fixed = []
  /\ ((exists n, In (issue_unclosed n) (_check_bracket_balance code)) ->
      count_char (ch "(") fixed <= count_char (ch ")") fixed).
Proof.
  intros He. cbv zeta.
  destruct (whitespace_only code) eqn:Hw.
  - rewrite validate_code_chunk_unchecked by auto. simpl. split.
    + apply quote_balance_nil_iff. split; by rewrite count_char_blank.
    + intros [n Hn]. rewrite (proj2 (bracket_balance_nil_iff code)) in Hn; [done|].
      clear -Hw. induction code as [|c code IH]; [constructor|].
      simpl in Hw. apply andb_true_iff in Hw as [Hc Hs].
      destruct (isspace_not_bracket c Hc). apply wb_other; auto.
  - destruct (validate_code_chunk_checked ast_parse self code He Hw) as (-> & _).
    set (issues := _ ++ _ ++ _ ++ _).
    assert (appended SingleQuote (suggest_fix code issues) = []) as HS.
    { destruct (count_char SQ code mod 2 =? 0) eqn:E.
      - apply appended_nil_fold. simpl. by rewrite E.
      - rewrite <- repair_of_odd_single. apply appended_nil_after_fold.
        unfold issues. do 2 (apply in_or_app; right). apply in_or_app. left.
        by apply odd_single_reported. }
    assert (appended DoubleQuote (suggest_fix code issues) = []) as HD.
    { destruct (count_char DQ code mod 2 =? 0) eqn:E.
      - apply appended_nil_fold. simpl. by rewrite E.
      - rewrite <- repair_of_odd_double. apply appended_nil_after_fold.
        unfold issues. do 2 (apply in_or_app; right). apply in_or_app. left.
        by apply odd_double_reported. }
    split.
    + apply quote_balance_nil_iff. simpl in HS, HD. split.
      * by destruct (count_char SQ (suggest_fix code issues) mod 2 =? 0).
      * by destruct (count_char DQ (suggest_fix code issues) mod 2 =? 0).
    + intros [n Hn].
      assert (appended CloseParens (suggest_fix code issues) = []) as HP.
      { rewrite <- (repair_of_unclosed n). apply appended_nil_after_fold.
        unfold issues. apply in_or_app. right. apply in_or_app. by left. }
      simpl in HP.
      destruct (count_char (ch "(") (suggest_fix code issues)
                - count_char (ch ")") (suggest_fix code issues)) eqn:E; [lia|done].
Qed.

Lemma suggest_fix_balances_quotes_witness :
  _check_quote_balance
    (suggest_fix (u "print('a")
       (issues (validate_code_chunk (fun _ => SyntaxError (u "unterminated string literal"))
                  __init__ (u "print('a")))) = [].
Proof.
  apply (suggest_fix_balances_quotes
           (fun _ => SyntaxError (u "unterminated string literal")) __init__ (u "print('a")).
  reflexivity.
Defined.

End RepairAlgebra.

(** * Further properties of the response parser *)

Section TrimFacts.

(** A text is trimmed when [strip] leaves it as it is. *)
Lemma trimmed_parts s : strip s = s -> lstrip s = s /\ rstrip s = s.
Proof.
  intros H. assert (lstrip s = s) as Hl.
  { rewrite <- H at 1. unfold strip. rewrite lstrip_rstrip by apply drop_while_idem.
    exact H. }
  split; [done|]. unfold strip in H. by rewrite Hl in H.
Qed.

Lemma lstrip_app a b : a <> [] -> lstrip a = a -> lstrip (a ++ b) = a ++ b.
Proof.
  unfold lstrip. intros Hne H. apply drop_while_fixed in H.
  destruct a as [|c a]; [done|]. simpl. by rewrite H.
Qed.

Lemma rstrip_app a b : b <> [] -> rstrip b = b -> rstrip (a ++ b) = a ++ b.
Proof.
  unfold rstrip. intros Hne H.
  apply (f_equal (@rev N)) in H. rewrite rev_involutive in H.
  apply drop_while_fixed in H.
  destruct (rev b) as [|c r] eqn:E.
  - apply (f_equal (@rev N)) in E. rewrite rev_involutive in E. done.
  - rewrite rev_app_distr, E. simpl. rewrite H.
    change (c :: r ++ rev a) with ((c :: r) ++ rev a).
    by rewrite <- E, <- rev_app_distr, rev_involutive.
Qed.

Lemma join_nonempty sep parts :
  parts <> [] -> Forall (fun p => p <> []) parts -> join sep parts <> [].
Proof.
  destruct parts as [|p [|q ps]]; [done| |].
  - intros _ H. by apply Forall_inv in H.
  - intros _ H. apply Forall_inv in H. simpl. by destruct p.
Qed.

(** Joining trimmed, non-empty parts gives a trimmed text. *)
Lemma strip_join sep parts :
  Forall (fun p => p <> [] /\ strip p = p) parts -> strip (join sep parts) = join sep parts.
Proof.
  intros H.
  assert (lstrip (join sep parts) = join sep parts) as Hl.
  { destruct parts as [|p [|q ps]]; [done| |].
    - apply Forall_inv in H as [_ H]. by apply trimmed_parts in H as [? _].
    - apply Forall_inv in H as [Hne H]. apply trimmed_parts in H as [H _].
      by apply lstrip_app. }
  unfold strip. rewrite Hl.
  induction parts as [|p ps IH]; [done|].
  destruct ps as [|q ps].
  - apply Forall_inv in H as [_ H]. by apply trimmed_parts in H as [_ ?].
  - change (join sep (p :: q :: ps)) with (p ++ sep ++ join sep (q :: ps)).
    rewrite app_assoc. apply rstrip_app.
    + apply join_nonempty; [done|]. apply Forall_inv_tail in H.
      eapply Forall_impl; [exact H|]. by intros a [? _].
    + apply IH.
      * by apply Forall_inv_tail in H.
      * destruct ps as [|q' ps].
        -- apply Forall_inv_tail, Forall_inv in H as [_ H].
           by apply trimmed_parts in H as [? _].
        -- apply Forall_inv_tail, Forall_inv in H as [Hne H].
           apply trimmed_parts in H as [H _]. by apply lstrip_app.
Qed.

Lemma startswith_app_l n h q : startswith n h = true -> startswith n (h ++ q) = true.
Proof.
  revert h. induction n as [|a n IH]; intros [|b h]; simpl; try done.
  intros [-> H]%andb_true_iff. simpl. by apply IH.
Qed.

Lemma contains_app_l n h q : contains n h = true -> contains n (h ++ q) = true.
Proof.
  induction h as [|b h IH].
  - simpl. rewrite orb_false_r. intros H. destruct n; [|done]. by destruct q.
  - change (contains n (b :: h)) with (startswith n (b :: h) || contains n h).
    change (contains n ((b :: h) ++ q))
      with (startswith n ((b :: h) ++ q) || contains n (h ++ q)).
    intros [H|H]%orb_true_iff.
    + by rewrite (startswith_app_l _ _ q H).
    + rewrite (IH H). by rewrite orb_true_r.
Qed.

Lemma contains_app_r n p h : contains n h = true -> contains n (p ++ h) = true.
Proof.
  intros H. induction p as [|b p IH]; [done|].
  change (contains n ((b :: p) ++ h))
    with (startswith n ((b :: p) ++ h) || contains n (p ++ h)).
  by rewrite IH, orb_true_r.
Qed.

Lemma contains_refl n : contains n n = true.
Proof. rewrite <- (app_nil_r n) at 2. apply contains_prefix. Qed.

(** A joined text contains each of its parts. *)
Lemma contains_join sep parts b : In b parts -> contains b (join sep parts) = true.
Proof.
  induction parts as [|p ps IH]; [done|].
  destruct ps as [|q ps].
  - intros [->|[]]. apply contains_refl.
  - change (join sep (p :: q :: ps)) with (p ++ sep ++ join sep (q :: ps)).
    intros [->|H].
    + apply contains_prefix.
    + rewrite app_assoc. apply contains_app_r. by apply IH.
Qed.

End TrimFacts.

Section BlockFacts.
Import ResponseParser.
Variable unicode_alnum : N -> bool.

Lemma mem_In s l : mem s l = true <-> In s l.
Proof.
  unfold mem. rewrite existsb_exists. split.
  - intros (x & Hx & Heq). apply str_eqb_eq in Heq. by subst.
  - intros H. exists s. split; [done|]. by apply str_eqb_eq.
Qed.

Lemma stripped_nonempty_trimmed matches :
  Forall (fun b => b <> [] /\ strip b = b) (stripped_nonempty matches).
Proof.
  unfold stripped_nonempty. apply List.Forall_forall. intros b Hb.
  apply in_map_iff in Hb as (m & <- & Hm). apply List.filter_In in Hm as [_ Hm].
  split; [by destruct (strip m) | apply strip_idem].
Qed.

Lemma found_blocks_trimmed patterns text : forall acc,
  Forall (fun b => b <> [] /\ strip b = b) acc ->
  Forall (fun b => b <> [] /\ strip b = b)
    (fold_left (fun acc pattern => acc ++ stripped_nonempty (Re.findall pattern text))
               patterns acc).
Proof.
  induction patterns as [|r patterns IH]; intros acc H; simpl; [done|].
  apply IH. apply Forall_app. split; [done | apply stripped_nonempty_trimmed].
Qed.

(** The loop that removes duplicates and short blocks. *)
Lemma unique_blocks_spec code_blocks : forall acc,
  NoDup acc ->
  let unique_blocks :=
    fold_left (fun unique_blocks block =>
                 if nonempty block && negb (mem block unique_blocks) then
                   if 3 <=? length block then unique_blocks ++ [block]
                   else unique_blocks
                 else unique_blocks)
              code_blocks acc in
  NoDup unique_blocks
  /\ (forall b, In b unique_blocks <->
                In b acc \/ (In b code_blocks /\ 3 <= length b)).
Proof.
  induction code_blocks as [|block code_blocks IH]; intros acc Hnd; cbv zeta in *;
    cbn [fold_left].
  - split; [done|]. intros b. split; [by left | by intros [?|[[] _]]].
  - destruct (nonempty block && negb (mem block acc)) eqn:E.
    + apply andb_true_iff in E as [Hne Hmem]. apply negb_true_iff in Hmem.
      destruct (Nat.leb_spec 3 (length block)) as [Hlen|Hlen].
      * destruct (IH (acc ++ [block])) as [H1 H2].
        { apply NoDup_app. split; [done|]. split; [|apply NoDup_singleton].
          intros x Hx [->|[]]%list_elem_of_In. apply list_elem_of_In in Hx.
          apply mem_In in Hx. congruence. }
        split; [done|]. intros b. rewrite H2, in_app_iff. cbn [In].
        split; [intros [[?|[<-|[]]]|[? ?]]; auto | intros [?|[[<-|?] ?]]; auto].
      * destruct (IH acc Hnd) as [H1 H2]. split; [done|]. intros b. rewrite H2. cbn [In].
        split; [intros [?|[? ?]]; auto | ].
        intros [?|[[<-|?] ?]]; [auto | exfalso; lia | auto].
    + destruct (IH acc Hnd) as [H1 H2]. split; [done|]. intros b. rewrite H2. cbn [In].
      split; [intros [?|[? ?]]; auto | intros [?|[[<-|?] ?]]; auto].
      left. apply andb_false_iff in E as [E|E].
      * destruct block; [simpl in *; lia | done].
      * apply negb_false_iff in E. by apply mem_In.
Qed.

Lemma extract_code_blocks_spec text :
  NoDup (_extract_code_blocks unicode_alnum text)
  /\ Forall (fun block => 3 <= length block /\ strip block = block)
       (_extract_code_blocks unicode_alnum text).
Proof.
  unfold _extract_code_blocks.
  set (fenced := fold_left _ [fence_python; fence_generic] []).
  set (code_blocks := if negb (nonempty fenced) then _ else fenced).
  assert (Forall (fun b => b <> [] /\ strip b = b) code_blocks) as Ht.
  { assert (Forall (fun b => b <> [] /\ strip b = b) fenced) as Hf
      by (by apply found_blocks_trimmed).
    unfold code_blocks. destruct (negb (nonempty fenced)); [|done].
    by apply found_blocks_trimmed. }
  destruct (unique_blocks_spec code_blocks [] (NoDup_nil_2)) as [Hnd Hin].
  split; [done|]. apply List.Forall_forall. intros b Hb.
  apply Hin in Hb as [[]|[Hb Hlen]]. split; [done|].
  rewrite List.Forall_forall in Ht. by apply Ht.
Qed.

(** Fenced blocks, when there are any, keep the inline patterns from
    being tried. *)
Lemma extract_code_blocks_fenced_first text :
  let fenced :=
    stripped_nonempty (Re.findall fence_python text)
    ++ stripped_nonempty (Re.findall fence_generic text) in
  fenced <> [] ->
  forall block, In block (_extract_code_blocks unicode_alnum text) -> In block fenced.
Proof.
  cbv zeta. intros Hne block. unfold _extract_code_blocks. cbn [fold_left app].
  destruct (stripped_nonempty (Re.findall fence_python text)
            ++ stripped_nonempty (Re.findall fence_generic text)) as [|b0 bs] eqn:E;
    [done|].
  simpl negb. cbv iota. rewrite <- E.
  intros H. apply (unique_blocks_spec _ [] (NoDup_nil_2)) in H as [[]|[H _]]. done.
Qed.

(** X10.  The blocks that [_extract_code_blocks] returns are pairwise
    different, trimmed of surrounding white space, and at least three
    characters long; when the text has fenced blocks, only fenced blocks
    are returned. *)
Theorem extract_code_blocks_unique_trimmed text :
  NoDup (_extract_code_blocks unicode_alnum text)
  /\ Forall (fun block => 3 <= length block /\ strip block = block)
       (_extract_code_blocks unicode_alnum text)
  /\ (let fenced :=
        stripped_nonempty (Re.findall fence_python text)
        ++ stripped_nonempty (Re.findall fence_generic text) in
      fenced <> [] ->
      forall block, In block (_extract_code_blocks unicode_alnum text) ->
                    In block fenced).
Proof.
  destruct (extract_code_blocks_spec text) as [Hnd Hf].
  split; [done|]. split; [done|]. apply extract_code_blocks_fenced_first.
Qed.

Lemma merge_unique_spec code_blocks : forall acc,
  let unique_blocks :=
    fold_left (fun unique block => if negb (mem block unique) then unique ++ [block]
                                   else unique)
              code_blocks acc in
  (forall b, In b unique_blocks <-> In b acc \/ In b code_blocks)
  /\ (NoDup (acc ++ code_blocks) -> unique_blocks = acc ++ code_blocks).
Proof.
  induction code_blocks as [|block code_blocks IH]; intros acc; simpl.
  - split; [intros b; tauto | by rewrite app_nil_r].
  - destruct (mem block acc) eqn:E; simpl.
    + destruct (IH acc) as [H1 H2]. split.
      * intros b. rewrite H1. apply mem_In in E.
        split; [tauto | intros [?|[<-|?]]; auto].
      * intros Hnd. apply NoDup_app in Hnd as (_ & Hd & _).
        apply mem_In, list_elem_of_In in E. destruct (Hd _ E). by left.
    + destruct (IH (acc ++ [block])) as [H1 H2]. split.
      * intros b. rewrite H1, in_app_iff. simpl. tauto.
      * intros Hnd. rewrite <- app_assoc in H2. by apply H2.
Qed.

Lemma merge_code_blocks_join code_blocks :
  code_blocks <> [] ->
  _merge_code_blocks code_blocks
  = join (nl ++ nl)
      (fold_left (fun unique block => if negb (mem block unique) then unique ++ [block]
                                      else unique)
                 code_blocks []).
Proof.
  intros Hne. unfold _merge_code_blocks.
  destruct code_blocks as [|b0 bs] eqn:Eb; [done|]. rewrite <- Eb.
  assert (nonempty code_blocks = true) as -> by (by rewrite Eb).
  simpl negb. cbv iota zeta.
  by destruct (fold_left _ code_blocks []) as [|? [|? ?]].
Qed.

Lemma merge_code_blocks_contains code_blocks block :
  In block code_blocks -> contains block (_merge_code_blocks code_blocks) = true.
Proof.
  intros Hb. rewrite merge_code_blocks_join by (by destruct code_blocks).
  apply contains_join. apply (merge_unique_spec code_blocks []). by right.
Qed.

Lemma merge_code_blocks_NoDup code_blocks :
  NoDup code_blocks -> _merge_code_blocks code_blocks = join (nl ++ nl) code_blocks.
Proof.
  intros Hnd. destruct code_blocks as [|b0 bs] eqn:Eb; [done|]. rewrite <- Eb in *.
  rewrite merge_code_blocks_join by (by rewrite Eb).
  by rewrite (proj2 (merge_unique_spec code_blocks []) Hnd).
Qed.

(** X11.  No block is lost in merging: the merged code contains every
    block it was given, and blocks that are pairwise different are
    joined, in their order, by blank lines. *)
Theorem merge_code_blocks_keeps_blocks code_blocks :
  (forall block, In block code_blocks ->
     contains block (_merge_code_blocks code_blocks) = true)
  /\ (NoDup code_blocks ->
      _merge_code_blocks code_blocks = join (nl ++ nl) code_blocks).
Proof.
  split.
  - intros block. apply merge_code_blocks_contains.
  - apply merge_code_blocks_NoDup.
Qed.

Lemma calculate_confidence_bounds explanation code :
  fle 0.5%float (_calculate_confidence explanation code)
  /\ fle (_calculate_confidence explanation code) 1.0%float.
Proof.
  unfold _calculate_confidence.
  destruct (nonempty code && (10 <? length code)),
           (nonempty explanation && (20 <? length explanation)),
           (nonempty explanation && nonempty code);
    try destruct (existsb _ explanation_markers); done.
Qed.

(** The result for input that is not blank. *)
Lemma parse_response_not_blank raw :
  whitespace_only raw = false ->
  let code_blocks := _extract_code_blocks unicode_alnum raw in
  let final_code := _merge_code_blocks code_blocks in
  let final_explanation :=
    _clean_explanation (_extract_explanation raw code_blocks) in
  parse_response unicode_alnum raw
  = <["explanation" := PStr final_explanation]>
    (<["code" := PStr final_code]>
    (<["metadata" := PDict
         (<["code_blocks_found" := PInt (Z.of_nat (length code_blocks))]>
         (<["has_explanation" := PBool (nonempty final_explanation)]>
         (<["parsing_confidence" :=
              PFloat (_calculate_confidence final_explanation final_code)]> ∅)))]> ∅)).
Proof.
  intros H. cbv zeta. unfold parse_response.
  by rewrite nonempty_strip, H, (whitespace_only_nonempty raw H).
Qed.

(** X12.  For input that is not blank, the result of
    [parse_response] has exactly the keys explanation, code and metadata;
    the metadata has exactly three entries: the number of blocks
    extracted, whether the explanation is non-empty, and a parsing
    confidence that lies between 0.5 and 1.0. *)
Theorem parse_response_metadata_entries raw :
  whitespace_only raw = false ->
  let code_blocks := _extract_code_blocks unicode_alnum raw in
  let final_code := _merge_code_blocks code_blocks in
  let final_explanation :=
    _clean_explanation (_extract_explanation raw code_blocks) in
  exists conf,
    parse_response unicode_alnum raw
    = <["explanation" := PStr final_explanation]>
      (<["code" := PStr final_code]>
      (<["metadata" := PDict
           (<["code_blocks_found" := PInt (Z.of_nat (length code_blocks))]>
           (<["has_explanation" := PBool (nonempty final_explanation)]>
           (<["parsing_confidence" := PFloat conf]> ∅)))]> ∅))
    /\ dom (parse_response unicode_alnum raw) = {["explanation"; "code"; "metadata"]}
    /\ fle 0.5%float conf /\ fle conf 1.0%float.
Proof.
  intros H. cbv zeta. rewrite (parse_response_not_blank raw H). cbv zeta.
  eexists. split; [reflexivity|]. split.
  - rewrite !dom_insert_L. set_solver.
  - apply calculate_confidence_bounds.
Qed.

(** The merged blocks of a text are trimmed. *)
Lemma merged_blocks_trimmed text :
  strip (_merge_code_blocks (_extract_code_blocks unicode_alnum text))
  = _merge_code_blocks (_extract_code_blocks unicode_alnum text).
Proof.
  destruct (extract_code_blocks_spec text) as [Hnd Hf].
  rewrite merge_code_blocks_NoDup by done.
  apply strip_join. eapply Forall_impl; [exact Hf|].
  intros b [Hlen Hs]. split; [|done]. destruct b; [simpl in Hlen; lia | done].
Qed.

(** X13.  Both texts that [parse_response] returns are trimmed: neither
    the explanation nor the code begins or ends with white space. *)
Theorem parse_response_fields_trimmed raw :
  exists final_explanation final_code,
    parse_response unicode_alnum raw !! "explanation" = Some (PStr final_explanation)
    /\ parse_response unicode_alnum raw !! "code" = Some (PStr final_code)
    /\ strip final_explanation = final_explanation
    /\ strip final_code = final_code.
Proof.
  unfold parse_response.
  destruct (negb (nonempty raw) || negb (nonempty (strip raw))).
  - by exists [], [].
  - eexists _, _. split; [apply lookup_insert_eq|].
    split; [rewrite lookup_insert_ne by done; apply lookup_insert_eq|]. split.
    + unfold _clean_explanation. destruct (negb (nonempty _)); [done | apply strip_idem].
    + apply merged_blocks_trimmed.
Qed.

Lemma split_on_app sep l rest : forall cur,
  ~ In sep l ->
  split_on sep cur (l ++ sep :: rest) = (rev cur ++ l) :: split_on sep [] rest.
Proof.
  induction l as [|c l IH]; intros cur Hn; simpl.
  - by rewrite N.eqb_refl, app_nil_r.
  - destruct (N.eqb_spec c sep) as [->|Hne]; [by destruct Hn; left|].
    rewrite IH by (intros ?; apply Hn; by right). simpl. by rewrite <- app_assoc.
Qed.

Lemma split_on_without sep l : forall cur,
  ~ In sep cur -> Forall (fun line => ~ In sep line) (split_on sep cur l).
Proof.
  induction l as [|c l IH]; intros cur Hn; simpl.
  - apply Forall_cons. split; [|done]. by rewrite <- in_rev.
  - destruct (N.eqb_spec c sep) as [->|Hne].
    + apply Forall_cons. split; [by rewrite <- in_rev | apply IH; by intros []].
    + apply IH. intros [->|H]; [done | by apply Hn].
Qed.

Lemma split_lines_join lines :
  lines <> [] -> Forall (fun line => ~ In LF line) lines ->
  split_lines (join nl lines) = lines.
Proof.
  induction lines as [|l ls IH]; [done|]. intros _ H.
  destruct ls as [|l' ls].
  - apply split_lines_single. by apply Forall_inv in H.
  - change (join nl (l :: l' :: ls)) with (l ++ LF :: join nl (l' :: ls)).
    unfold split_lines. rewrite split_on_app by (by apply Forall_inv in H).
    simpl rev. simpl app. f_equal. apply IH; [done | by apply Forall_inv_tail in H].
Qed.

Lemma In_drop_while p (x : N) l : In x (drop_while p l) -> In x l.
Proof.
  induction l as [|c l IH]; simpl; [done|].
  destruct (p c); [by right; apply IH | done].
Qed.

Lemma In_strip x s : In x (strip s) -> In x s.
Proof.
  unfold strip, rstrip, lstrip. rewrite <- in_rev. intros H.
  apply In_drop_while in H. rewrite <- in_rev in H. by apply In_drop_while in H.
Qed.

(** The loop that selects the lines of the explanation. *)
Lemma explanation_lines_spec (keep : list N -> bool) lines : forall acc,
  fold_left (fun acc line =>
               let line := strip line in
               if negb (nonempty line) then acc
               else if keep line then acc ++ [line] else acc)
            lines acc
  = acc ++ List.filter (fun line => nonempty line && keep line) (map strip lines).
Proof.
  induction lines as [|l lines IH]; intros acc; simpl; [by rewrite app_nil_r|].
  rewrite IH. destruct (nonempty (strip l)); simpl; [|done].
  destruct (keep (strip l)); [by rewrite <- app_assoc | done].
Qed.

(** X14.  Every line of the text that [_extract_explanation] returns is
    a trimmed, non-empty line that either contains one of the explanation
    markers, or is longer than ten characters and contains none of the
    code patterns (def, class, import, print, the equals sign). *)
Theorem extract_explanation_lines text code_blocks :
  let explanation := _extract_explanation text code_blocks in
  explanation = []
  \/ Forall (fun line =>
               line <> [] /\ strip line = line
               /\ (existsb (fun marker => contains marker line) explanation_markers = true
                   \/ (existsb (fun pattern => contains pattern line) code_like = false
                       /\ 10 < length line)))
            (split_lines explanation).
Proof.
  cbv zeta. unfold _extract_explanation. cbv zeta.
  set (explanation_text := fold_left _ code_blocks _).
  rewrite (explanation_lines_spec
             (fun line =>
                existsb (fun marker => contains marker line) explanation_markers
                || negb (existsb (fun pattern => contains pattern line) code_like)
                   && (10 <? length line))).
  simpl app.
  set (kept := List.filter _ _).
  destruct kept as [|l ls] eqn:E; [by left|]. right. rewrite <- E.
  assert (Forall (fun line => ~ In LF line) kept) as Hlf.
  { apply List.Forall_forall. intros line [Hin _]%List.filter_In.
    apply in_map_iff in Hin as (l0 & <- & Hl0). intros H%In_strip.
    pose proof (split_on_without LF explanation_text [] (fun H => H)) as Hs.
    rewrite List.Forall_forall in Hs. by apply (Hs l0). }
  rewrite split_lines_join; [|by rewrite E | done].
  apply List.Forall_forall. intros line [Hin Hk]%List.filter_In.
  apply in_map_iff in Hin as (l0 & <- & _).
  apply andb_true_iff in Hk as [Hne Hk].
  split; [by destruct (strip l0)|]. split; [apply strip_idem|].
  apply orb_true_iff in Hk as [Hk|Hk]; [by left|]. right.
  apply andb_true_iff in Hk as [Hc Hlen]. apply negb_true_iff in Hc.
  split; [done|]. by apply Nat.ltb_lt.
Qed.

End BlockFacts.

Lemma parse_response_metadata_entries_witness :
  dom (ResponseParser.parse_response (fun _ => false) tagged_fence_example)
  = {["explanation"; "code"; "metadata"]}.
Proof.
  destruct (parse_response_metadata_entries (fun _ => false) tagged_fence_example)
    as (conf & _ & H & _); [reflexivity|].
  exact H.
Defined.

(** * Further properties of the service *)

Section PayloadBounds.
Import VLLMIntegrationService.

Lemma model_mapping_range m :
  In (model_mapping m)
     [VLLMModelType.AUTOCOMPLETE; VLLMModelType.PROMPT; VLLMModelType.COMMENT;
      VLLMModelType.ERROR_FIX].
Proof. destruct m; simpl; tauto. Qed.

(** X15.  Both payload builders send a user id between 0 and 999999
    and one of the four model types of the server, and they agree on the
    model type and on the forwarded preferences.  They agree on the user
    id for a non-empty user name; for an empty one [_prepare_vllm_payload]
    hashes the name anonymous instead. *)
Theorem payload_identifiers py_hash hook request tier user_id user_preferences :
  let p := _prepare_vllm_payload py_hash hook request tier user_id user_preferences in
  let q := streaming_payload py_hash request user_id user_preferences in
  (0 <= p_user_id p < 1000000)%Z /\ (0 <= p_user_id q < 1000000)%Z
  /\ In (p_model_type p)
        [VLLMModelType.AUTOCOMPLETE; VLLMModelType.PROMPT; VLLMModelType.COMMENT;
         VLLMModelType.ERROR_FIX]
  /\ p_model_type q = p_model_type p
  /\ p_user_select_options q = p_user_select_options p
  /\ (user_id <> [] -> p_user_id p = p_user_id q)
  /\ (user_id = [] -> p_user_id p = (py_hash (u "anonymous") mod 1000000)%Z).
Proof.
  cbv zeta. unfold _prepare_vllm_payload, streaming_payload.
  destruct (if has_preferences user_preferences then _ else _) as [[bt bm] bp].
  destruct (if str_eqb (value tier) (u "simple") then _ else _) as [[t m] tp].
  simpl. split; [by apply Z.mod_pos_bound|]. split; [by apply Z.mod_pos_bound|].
  split; [apply model_mapping_range|]. split; [done|]. split; [done|].
  split; [by destruct user_id | by intros ->].
Qed.

(** X16.  Whatever the preferences and the tier, the parameters of
    [_prepare_vllm_payload] stay in fixed ranges: between 320 and 1200
    tokens, a nucleus threshold between 0.7 and 0.95, and a temperature
    below 0.6.  The temperature is the plain product of the baseline 0.3,
    the factor of the style and the factor of the tier: its floors and
    ceilings never take effect. *)
Theorem prepare_payload_ranges py_hash hook request tier user_id user_preferences :
  let p := _prepare_vllm_payload py_hash hook request tier user_id user_preferences in
  (320 <= p_max_tokens p <= 1200)%Z
  /\ fle 0.7%float (p_top_p p) /\ fle (p_top_p p) 0.95%float
  /\ fle 0.2%float (p_temperature p) /\ fle (p_temperature p) 0.6%float
  /\ p_temperature p
     = (0.3 * style_factor (preference user_preferences "code_style" (u "standard"))
        * tier_factor tier)%float.
Proof.
  cbv zeta. unfold _prepare_vllm_payload, style_factor.
  destruct (has_preferences user_preferences) eqn:Hp.
  - destruct user_preferences as [d|]; [|done]. simpl or_empty. simpl preference.
    destruct (eq_str (dict_get d "skill_level" (PStr (u "intermediate"))) (u "beginner"));
    destruct (eq_str (dict_get d "skill_level" (PStr (u "intermediate"))) (u "expert"));
    destruct (eq_str (dict_get d "code_style" (PStr (u "standard"))) (u "concise"));
    destruct (eq_str (dict_get d "code_style" (PStr (u "standard"))) (u "detailed"));
    destruct (eq_str (dict_get d "safety_level" (PStr (u "standard"))) (u "enhanced"));
    destruct (eq_str (dict_get d "safety_level" (PStr (u "standard"))) (u "minimal"));
    destruct tier; vm_compute; repeat split; congruence.
  - rewrite preference_without by done.
    destruct tier; vm_compute; repeat split; congruence.
Qed.

End PayloadBounds.

Section PromptFacts.
Import VLLMIntegrationService.

(** X20.  Without a personalization hook, or without preferences, the
    prompt does not depend on the preferences: it begins with the system
    prompt, contains the request's prompt and, when the context is not
    blank, the context, and it ends with the opening fence. *)
Theorem build_enhanced_prompt_shape hook request user_preferences :
  has_preferences user_preferences = false \/ hook = None ->
  let p := _build_enhanced_prompt hook request user_preferences in
  p = _build_enhanced_prompt None request None
  /\ startswith system_prompt p = true
  /\ contains (prompt request) p = true
  /\ (forall ctx, context request = Some ctx -> whitespace_only ctx = false ->
        contains ctx p = true)
  /\ (exists before, p = before ++ u "```python").
Proof.
  intros H. cbv zeta.
  assert (_build_enhanced_prompt hook request user_preferences
          = _build_enhanced_prompt None request None) as ->.
  { unfold _build_enhanced_prompt. cbv zeta.
    destruct (has_preferences user_preferences); [|done].
    by destruct H as [?| ->]. }
  split; [done|]. unfold _build_enhanced_prompt. cbv zeta. simpl has_preferences. cbv iota.
  split; [apply startswith_app|]. split; [|split].
  - do 4 apply contains_app_r. apply contains_prefix.
  - intros ctx -> Hw. rewrite (whitespace_only_nonempty ctx Hw), nonempty_strip, Hw.
    simpl andb. cbv iota. rewrite <- !app_assoc.
    do 11 apply contains_app_r. apply contains_prefix.
  - eexists. rewrite !app_assoc. reflexivity.
Qed.

Lemma build_enhanced_prompt_shape_witness :
  contains (u "sort a list")
    (_build_enhanced_prompt None
       (Request (u "sort a list") None CODE_GENERATION None None None)
       (Some (<["skill_level" := PStr (u "expert")]> ∅))) = true.
Proof.
  destruct (build_enhanced_prompt_shape None
              (Request (u "sort a list") None CODE_GENERATION None None None)
              (Some (<["skill_level" := PStr (u "expert")]> ∅)))
    as (_ & _ & H & _); [by right|].
  exact H.
Defined.

End PromptFacts.

Section SettingsFacts.
Import Settings.

Lemma filter_sublist {A} (p : A -> bool) l : sublist (List.filter p l) l.
Proof.
  induction l as [|x l IH]; simpl; [constructor|].
  destruct (p x); [by apply sublist_skip | by apply sublist_cons].
Qed.

(** X21.  In production, [get_cors_origins] never returns the wildcard
    origin: it returns the configured origins without it, in their order,
    which for the default configuration is no origin at all.  In any
    other environment (the comparison is exact, upper case included) it
    returns the configured origins unchanged. *)
Theorem cors_origins_without_wildcard_in_production self :
  (is_production self = true ->
     ~ In (u "*") (get_cors_origins self)
     /\ (forall origin, In origin (get_cors_origins self)
                        <-> In origin (CORS_ORIGINS self) /\ origin <> u "*")
     /\ sublist (get_cors_origins self) (CORS_ORIGINS self)
     /\ (CORS_ORIGINS self = CORS_ORIGINS defaults -> get_cors_origins self = []))
  /\ (is_production self = false -> get_cors_origins self = CORS_ORIGINS self).
Proof.
  unfold is_production, get_cors_origins. split; intros ->; [|done].
  assert (forall origin, In origin (List.filter (fun o => negb (str_eqb o (u "*")))
                                      (CORS_ORIGINS self))
                         <-> In origin (CORS_ORIGINS self) /\ origin <> u "*") as Hin.
  { intros origin. rewrite List.filter_In, negb_true_iff.
    destruct (str_eqb_spec origin (u "*")); split; intros [? ?]; done. }
  split; [|split; [done|split]].
  - intros H. apply Hin in H as [_ H]. done.
  - apply filter_sublist.
  - by intros ->.
Qed.

Lemma cors_origins_without_wildcard_in_production_witness :
  get_cors_origins
    {| ENVIRONMENT := u "production";
       CORS_ORIGINS := [u "*"; u "https://hapa.example"] |}
  = [u "https://hapa.example"]
  /\ get_cors_origins
       {| ENVIRONMENT := u "Production";
          CORS_ORIGINS := [u "*"; u "https://hapa.example"] |}
     = [u "*"; u "https://hapa.example"].
Proof.
  split.
  - reflexivity.
  - apply (cors_origins_without_wildcard_in_production
             {| ENVIRONMENT := u "Production";
                CORS_ORIGINS := [u "*"; u "https://hapa.example"] |}).
    reflexivity.
Defined.

End SettingsFacts.

Section SyncFacts.
Import ResponseParser VLLMIntegrationService.
Variable unicode_alnum : N -> bool.
Variable update_metadata :
  CodeGenerationResponse -> gmap string pyval -> result CodeGenerationResponse.
Variable json_loads : list N -> loads_result.

Lemma streaming_connect_raises health post self w e self' w' :
  is_connected self = false ->
  connect health self w = Some (Raise e, self', w') ->
  (generate_code_streaming json_loads health post self w).1
  = [error (u "오류: " ++ message retries_exceeded)].
Proof.
  intros Hc Hr. unfold generate_code_streaming. rewrite Hc, Hr. simpl.
  by apply connect_loop_raise in Hr as (-> & _).
Qed.

Lemma streaming_reaches_post health post self w :
  reaches_post health self w ->
  exists self', session self' = true
    /\ (generate_code_streaming json_loads health post self w).1
       = request_stream json_loads post self'.
Proof.
  unfold generate_code_streaming.
  intros [[Hc Hs]|(Hc & self' & w' & Hok)]; rewrite Hc; simpl negb; cbv iota.
  - by exists self.
  - rewrite Hok. exists self'. split; [|done].
    by apply connect_loop_ok in Hok as (_ & _ & ?).
Qed.

Lemma sync_of_error health post self w user_preferences msg :
  (generate_code_streaming json_loads health post self w).1 = [error msg] ->
  generate_code_sync unicode_alnum update_metadata json_loads health post self w
    user_preferences = failure msg.
Proof. intros H. unfold generate_code_sync. by rewrite H. Qed.

(** X17.  [generate_code_sync] turns the failures before the body into
    failure responses that carry the text of the error event: the message
    of the exhausted retries when connecting raises; the text of the
    exception when the POST raises; the status when the POST is answered
    with another status than 200 (or the text of the exception when the
    body of that answer cannot be read). *)
Theorem generate_code_sync_failures health post self w user_preferences :
  let response :=
    generate_code_sync unicode_alnum update_metadata json_loads health post self w
      user_preferences in
  (is_connected self = false ->
   forall e self' w', connect health self w = Some (Raise e, self', w') ->
   response = failure (u "오류: " ++ message retries_exceeded))
  /\ (reaches_post health self w ->
      forall e, post = PostRaises e -> response = failure (u "오류: " ++ message e))
  /\ (reaches_post health self w ->
      forall r, post = PostAnswers r -> (status r =? 200)%Z = false ->
      response = failure (match text r with
                          | Ok _ => u "API 오류: " ++ str_of_int (status r)
                          | Raise e => u "오류: " ++ message e
                          end)).
Proof.
  cbv zeta. split; [|split].
  - intros Hc e self' w' Hr. apply sync_of_error.
    by apply (streaming_connect_raises health post self w e self' w').
  - intros Hp e ->. apply sync_of_error.
    destruct (streaming_reaches_post health (PostRaises e) self w Hp) as (s' & Hs & ->).
    unfold request_stream. by rewrite Hs.
  - intros Hp r -> Hst. apply sync_of_error.
    destruct (streaming_reaches_post health (PostAnswers r) self w Hp) as (s' & Hs & ->).
    unfold request_stream. rewrite Hs, Hst. simpl. by destruct (text r).
Qed.

(** A chunk in which the generator returns ends the reading. *)
Lemma read_chunks_returned chunk chunks finish content :
  decode_utf8 chunk = Some content ->
  (process_lines json_loads (split_lines content)).2 = true ->
  read_chunks json_loads (chunk :: chunks) finish
  = (process_lines json_loads (split_lines content)).1.
Proof.
  intros Hd Hr. simpl. destruct chunk as [|b chunk].
  - injection Hd as <-. done.
  - rewrite Hd. destruct (process_lines json_loads (split_lines content)) as [evs ret].
    simpl in *. by rewrite Hr.
Qed.

(** X18.  The done marker ends the stream: once the lines of a chunk
    have produced the done event, nothing that follows has an effect, be
    it further chunks or a failure of the transport. *)
Theorem done_ends_stream chunks1 chunk chunks2 finish finish' content :
  decode_utf8 chunk = Some content ->
  (process_lines json_loads (split_lines content)).2 = true ->
  read_chunks json_loads (chunks1 ++ chunk :: chunks2) finish
  = read_chunks json_loads (chunks1 ++ [chunk]) finish'.
Proof.
  intros Hd Hr. induction chunks1 as [|c chunks1 IH].
  - simpl app. by rewrite !(read_chunks_returned chunk _ _ content Hd Hr).
  - simpl. destruct c as [|b c]; [done|].
    destruct (decode_utf8 (String b c)); [|done].
    destruct (process_lines json_loads (split_lines l)) as [evs ret].
    destruct ret; [done | by rewrite IH].
Qed.

Lemma count_words_positive s :
  whitespace_only s = false -> 1 <= count_words false s.
Proof.
  induction s as [|c s IH]; simpl; [done|].
  destruct (isspace c); simpl; [done | lia].
Qed.

(** X19.  A response of [generate_code_sync] that reports success
    (without preferences) comes from a stream whose token texts,
    concatenated, are not blank: its code is the merged blocks of that
    text and is trimmed, it carries no error message, its token count is
    the number of words of the text and at least one, and its confidence
    lies between 0.5 and 1.0. *)
Theorem generate_code_sync_success health post self w user_preferences :
  has_preferences user_preferences = false ->
  let response :=
    generate_code_sync unicode_alnum update_metadata json_loads health post self w
      user_preferences in
  success response = true ->
  exists content conf,
    accumulate (generate_code_streaming json_loads health post self w).1 []
      = Ok (inl content)
    /\ whitespace_only content = false
    /\ generated_code response
       = _merge_code_blocks (_extract_code_blocks unicode_alnum content)
    /\ strip (generated_code response) = generated_code response
    /\ error_message response = None
    /\ total_tokens response = count_words false content
    /\ 1 <= total_tokens response
    /\ confidence_score response = Some conf
    /\ fle 0.5%float conf /\ fle conf 1.0%float.
Proof.
  intros Hp. cbv zeta. unfold generate_code_sync.
  destruct (accumulate _ []) as [[content|early]|e] eqn:Hacc; [| |done].
  2: { intros H. apply accumulate_early in Hacc. congruence. }
  destruct (whitespace_only content) eqn:Hw.
  { by rewrite (build_response_blank unicode_alnum update_metadata _ _ Hw). }
  pose proof (parse_response_not_blank unicode_alnum content Hw) as Heq.
  cbv zeta in Heq.
  pose proof (calculate_confidence_bounds
                (_clean_explanation
                   (_extract_explanation content
                      (_extract_code_blocks unicode_alnum content)))
                (_merge_code_blocks (_extract_code_blocks unicode_alnum content)))
    as [Hlo Hhi].
  pose proof (merged_blocks_trimmed unicode_alnum content) as Hc0s.
  unfold build_response, subscript_value, subscript. rewrite Heq.
  rewrite lookup_insert_ne, lookup_insert_eq by done.
  rewrite lookup_insert_eq.
  rewrite !lookup_insert_ne, lookup_insert_eq by done.
  rewrite !lookup_insert_ne, lookup_insert_eq by done.
  rewrite Hp. simpl. intros _. eexists content, _.
  repeat split; try done. by apply count_words_positive.
Qed.

End SyncFacts.

Lemma generate_code_sync_success_witness :
  let response :=
    VLLMIntegrationService.generate_code_sync (fun _ => false) (fun r _ => Ok r)
      example_loads (fun _ => VLLMIntegrationService.Status 200)
      (VLLMIntegrationService.PostAnswers
         (VLLMIntegrationService.Response 200 (Ok [])
            [ascii_bytes (u "data: " ++ text_foo_payload)]
            VLLMIntegrationService.EndOfBody))
      VLLMIntegrationService.__init__ VLLMIntegrationService.no_effects None in
  VLLMIntegrationService.total_tokens response = 1
  /\ VLLMIntegrationService.error_message response = None.
Proof.
  cbv zeta.
  destruct (generate_code_sync_success (fun _ => false) (fun r _ => Ok r)
              example_loads (fun _ => VLLMIntegrationService.Status 200)
              (VLLMIntegrationService.PostAnswers
                 (VLLMIntegrationService.Response 200 (Ok [])
                    [ascii_bytes (u "data: " ++ text_foo_payload)]
                    VLLMIntegrationService.EndOfBody))
              VLLMIntegrationService.__init__ VLLMIntegrationService.no_effects None)
    as (content & conf & Hacc & _ & _ & _ & He & Ht & _);
    [reflexivity | vm_compute; reflexivity |].
  split; [|exact He]. rewrite Ht.
  vm_compute in Hacc. injection Hacc as <-. reflexivity.
Defined.

Lemma done_ends_stream_witness :
  VLLMIntegrationService.read_chunks example_loads
    [ascii_bytes (u "data: " ++ text_foo_payload);
     ascii_bytes (u "data: [DONE]");
     ascii_bytes (u "data: " ++ text_foo_payload)]
    (VLLMIntegrationService.ReadFails (u "connection reset"))
  = VLLMIntegrationService.read_chunks example_loads
      [ascii_bytes (u "data: " ++ text_foo_payload); ascii_bytes (u "data: [DONE]")]
      VLLMIntegrationService.EndOfBody.
Proof.
  apply (done_ends_stream example_loads
           [ascii_bytes (u "data: " ++ text_foo_payload)]
           (ascii_bytes (u "data: [DONE]"))
           [ascii_bytes (u "data: " ++ text_foo_payload)]
           (VLLMIntegrationService.ReadFails (u "connection reset"))
           VLLMIntegrationService.EndOfBody (u "data: [DONE]"));
    reflexivity.
Defined.
